(** * Citation preprocessing: normalisation, garbage filter, law extraction
      and context enrichment

    A shallow embedding of [preprocess_citations.py], of
    [categorize_citation] and [main] from [analyze_unparseable.py], and of
    the loops of [build_abbreviation_triplets.py] and
    [build_title_mappings.py].

    Python strings are sequences of Unicode code points; they are modelled
    as lists of code points.  The Unicode character database (which code
    points are decimal digits, white space, alphanumeric, and the case
    mappings) belongs to the Python runtime, not to the repository: it is a
    parameter of the development (class [Unicode]), and an instance that
    is exact on Basic Latin and Latin-1 is given to run the code.

    The literals of the program that are not ASCII are taken character for
    character as they stand in the source file. *)

From Stdlib Require Import NArith ZArith List Bool Lia.
From Stdlib Require Import Strings.String Strings.Ascii Strings.Byte.
From stdpp Require Import base option list gmap.

Local Open Scope N_scope.
Local Open Scope list_scope.

(** ** Strings *)

Definition char := N.
Definition str := list char.

(** [utf8] reads the bytes of a literal of this file as UTF-8 text. *)
Fixpoint utf8_go (need : nat) (acc : N) (bs : list N) : str :=
  match bs with
  | [] => []
  | b :: tl =>
      match need with
      | S k =>
          let acc' := acc * 64 + b mod 64 in
          match k with
          | O => acc' :: utf8_go O 0 tl
          | S _ => utf8_go k acc' tl
          end
      | O =>
          if b <? 128 then b :: utf8_go O 0 tl
          else if b <? 224 then utf8_go 1 (b mod 32) tl
          else if b <? 240 then utf8_go 2 (b mod 16) tl
          else utf8_go 3 (b mod 8) tl
      end
  end.

Definition utf8 (s : string) : str :=
  utf8_go O 0 (List.map Byte.to_N (list_byte_of_string s)).

Arguments utf8 s%_string.

Definition str_eqb (a b : str) : bool := bool_decide (a = b).

(** [s.startswith(p)] *)
Fixpoint startswith (p s : str) : bool :=
  match p, s with
  | [], _ => true
  | a :: p', b :: s' => (a =? b) && startswith p' s'
  | _ :: _, [] => false
  end.

(** [s.endswith(p)] *)
Definition endswith (p s : str) : bool := startswith (rev p) (rev s).

(** [p in s] for strings: [p] occurs as a contiguous substring of [s]. *)
Fixpoint contains (p s : str) : bool :=
  startswith p s ||
  match s with
  | [] => false
  | _ :: s' => contains p s'
  end.

(** ** The Unicode tables used by [re] and by the [str] methods *)

Class Unicode := {
  (** [\d] of [re] on a [str] pattern, [str.isdecimal] *)
  isdecimal : char -> bool;
  (** [\s] of [re] on a [str] pattern, and the characters [str.strip] removes *)
  isspace : char -> bool;
  (** [str.isalnum] on one character; [\w] is [isalnum] or the underscore *)
  isalnum : char -> bool;
  (** [str.isdigit] on one character *)
  isdigit : char -> bool;
  (** [str.lower] *)
  lower : str -> str;
  (** [str.upper] *)
  upper : str -> str
}.

(** ** Regular expressions as [re] evaluates them *)

Inductive cset_item :=
| CChar (c : char)
| CRange (lo hi : char).

Inductive regex :=
| Eps
| Lit (s : str)                    (* a literal run of characters *)
| Cls (items : list cset_item)     (* [...] *)
| Digit                            (* \d *)
| Space                            (* \s *)
| WordB                            (* \b *)
| Bos                              (* ^  (no MULTILINE flag) *)
| Eos                              (* $  (no MULTILINE flag) *)
| Seq (r1 r2 : regex)
| Alt (r1 r2 : regex)              (* r1|r2, r1 tried first *)
| Star (r : regex)                 (* r*, greedy *)
| Group (n : nat) (r : regex).     (* capturing group number n *)

(** r+, r{1,} *)
Definition Plus (r : regex) : regex := Seq r (Star r).
(** r? *)
Definition Opt (r : regex) : regex := Alt r Eps.

Declare Scope re_scope.
Delimit Scope re_scope with re.
Notation "a ⨾ b" := (Seq a b) (at level 60, right associativity) : re_scope.

Section Engine.
Context {U : Unicode}.

Definition in_item (c : char) (i : cset_item) : bool :=
  match i with
  | CChar x => c =? x
  | CRange lo hi => (lo <=? c) && (c <=? hi)
  end.

Definition in_class (items : list cset_item) (c : char) : bool :=
  existsb (in_item c) items.

(** [\w]: alphanumeric or underscore *)
Definition isword (c : char) : bool := isalnum c || (c =? 95).

Definition isword_opt (o : option char) : bool :=
  match o with
  | Some c => isword c
  | None => false
  end.

(** The matcher walks the subject left to right.  [m_prev] is the character
    just before the current position ([None] at the start of the subject),
    [m_rest] what is left, [m_caps] the text of the groups closed so far. *)
Record mstate := MState {
  m_prev : option char;
  m_rest : str;
  m_caps : list (nat * str)
}.

Definition step_char (st : mstate) (c : char) (tl : str) : mstate :=
  MState (Some c) tl (m_caps st).

(** One character that satisfies [p]. *)
Definition m_char (p : char -> bool) (st : mstate)
    (k : mstate -> option mstate) : option mstate :=
  match m_rest st with
  | c :: tl => if p c then k (step_char st c tl) else None
  | [] => None
  end.

Fixpoint m_lit (s : str) (st : mstate)
    (k : mstate -> option mstate) : option mstate :=
  match s with
  | [] => k st
  | a :: s' => m_char (N.eqb a) st (fun st' => m_lit s' st' k)
  end.

(** [$] without MULTILINE: at the end of the subject, or just before a
    newline that is its last character. *)
Definition at_eos (rest : str) : bool :=
  match rest with
  | [] => true
  | [c] => c =? 10
  | _ => false
  end.

Definition at_wordb (st : mstate) : bool :=
  xorb (isword_opt (m_prev st)) (isword_opt (head (m_rest st))).

(** Greedy repetition of a matcher [ma]: one more iteration is tried first,
    then the continuation.  An iteration has to consume input; [fuel] bounds
    the number of iterations by the length of what is left. *)
Fixpoint m_star (ma : mstate -> (mstate -> option mstate) -> option mstate)
    (fuel : nat) (st : mstate) (k : mstate -> option mstate) : option mstate :=
  match fuel with
  | O => k st
  | S f =>
      match ma st (fun st' =>
                     if (length (m_rest st') <? length (m_rest st))%nat
                     then m_star ma f st' k else None) with
      | Some r => Some r
      | None => k st
      end
  end.

(** The text a group has consumed between [st0] and [st1]. *)
Definition consumed (st0 st1 : mstate) : str :=
  take (length (m_rest st0) - length (m_rest st1))%nat (m_rest st0).

Fixpoint m (r : regex) (st : mstate)
    (k : mstate -> option mstate) : option mstate :=
  match r with
  | Eps => k st
  | Lit s => m_lit s st k
  | Cls items => m_char (in_class items) st k
  | Digit => m_char isdecimal st k
  | Space => m_char isspace st k
  | WordB => if at_wordb st then k st else None
  | Bos => match m_prev st with None => k st | Some _ => None end
  | Eos => if at_eos (m_rest st) then k st else None
  | Seq r1 r2 => m r1 st (fun st' => m r2 st' k)
  | Alt r1 r2 =>
      match m r1 st k with
      | Some r => Some r
      | None => m r2 st k
      end
  | Star r1 => m_star (m r1) (length (m_rest st)) st k
  | Group n r1 =>
      m r1 st (fun st' =>
        k (MState (m_prev st') (m_rest st') ((n, consumed st st') :: m_caps st')))
  end.

(** A match object: how many characters the match spans, and its groups. *)
Record match_obj := MatchObj {
  span : nat;
  groups : list (nat * str)
}.

(** [m.group(n)] *)
Definition group (mo : match_obj) (n : nat) : str :=
  match find (fun p => Nat.eqb (fst p) n) (groups mo) with
  | Some p => snd p
  | None => []
  end.

(** The pattern tried at one position of the subject. *)
Definition match_at (r : regex) (prev : option char) (rest : str)
    : option match_obj :=
  match m r (MState prev rest []) Some with
  | Some st => Some (MatchObj (length rest - length (m_rest st)) (m_caps st))
  | None => None
  end.

(** [re.match(r, s)] *)
Definition re_match (r : regex) (s : str) : option match_obj :=
  match_at r None s.

Fixpoint search_from (r : regex) (prev : option char) (rest : str)
    : option match_obj :=
  match match_at r prev rest with
  | Some mo => Some mo
  | None =>
      match rest with
      | [] => None
      | c :: tl => search_from r (Some c) tl
      end
  end.

(** [re.search(r, s)] *)
Definition re_search (r : regex) (s : str) : option match_obj :=
  search_from r None s.

(** Replacement templates: literal text and [\n] group references. *)
Inductive titem :=
| TLit (s : str)
| TGrp (n : nat).

Definition expand (t : list titem) (mo : match_obj) : str :=
  concat (List.map (fun i => match i with
                             | TLit s => s
                             | TGrp n => group mo n
                             end) t).

(** The scan of [re.sub]: matches are looked for left to right and do not
    overlap.  [skip] counts the characters of the subject that still belong
    to the match replaced last.  After an empty match the next character is
    copied. *)
Fixpoint sub_scan (r : regex) (t : list titem) (skip : nat)
    (prev : option char) (rest : str) : str :=
  match skip with
  | S k =>
      match rest with
      | c :: tl => sub_scan r t k (Some c) tl
      | [] => []
      end
  | O =>
      match match_at r prev rest with
      | Some mo =>
          expand t mo ++
          match rest with
          | c :: tl =>
              match span mo with
              | O => c :: sub_scan r t O (Some c) tl
              | S k => sub_scan r t k (Some c) tl
              end
          | [] => []
          end
      | None =>
          match rest with
          | c :: tl => c :: sub_scan r t O (Some c) tl
          | [] => []
          end
      end
  end.

(** [re.sub(r, t, s)] *)
Definition re_sub (r : regex) (t : list titem) (s : str) : str :=
  sub_scan r t O None s.

End Engine.

(** ** Python values and exceptions *)

#[local] Set Warnings "-register-all".

(** The values a decoded JSON document can hold, as far as the code
    distinguishes them (a float behaves as the other non-strings do and is
    left out). *)
Inductive value :=
| VStr (s : str)
| VNone
| VBool (b : bool)
| VInt (z : Z)
| VList (l : list value)
| VDict (l : list (str * value)).

(** Truth value of [v] in a condition ([not v] is its negation). *)
Definition truthy (v : value) : bool :=
  match v with
  | VStr s => negb (bool_decide (s = []))
  | VNone => false
  | VBool b => b
  | VInt z => negb (z =? 0)%Z
  | VList l => negb (bool_decide (length l = O))
  | VDict l => negb (bool_decide (length l = O))
  end.

(** [isinstance(v, str)] *)
Definition is_str (v : value) : bool :=
  match v with
  | VStr _ => true
  | _ => false
  end.

Inductive exn :=
| AttributeError
| KeyError
| UnicodeEncodeError.

Inductive result (A : Type) :=
| Ok (a : A)
| Raise (e : exn).
Arguments Ok {A} a.
Arguments Raise {A} e.

Definition bind {A B} (r : result A) (f : A -> result B) : result B :=
  match r with
  | Ok a => f a
  | Raise e => Raise e
  end.

Notation "x <- c1 ;' c2" := (bind c1 (fun x => c2))
  (at level 100, c1 at next level, right associativity).

(** A [for] loop that builds a list, stopped by the first exception. *)
Fixpoint mapM {A B} (f : A -> result B) (l : list A) : result (list B) :=
  match l with
  | [] => Ok []
  | x :: tl => y <- f x ;' ys <- mapM f tl ;' Ok (y :: ys)
  end.

(** A [for] loop that updates a state, stopped by the first exception. *)
Fixpoint foldM {A S} (f : S -> A -> result S) (s : S) (l : list A) : result S :=
  match l with
  | [] => Ok s
  | x :: tl => s' <- f s x ;' foldM f s' tl
  end.

(** A method of [str] called on [v]: any other value has no such attribute. *)
Definition as_str (v : value) : result str :=
  match v with
  | VStr s => Ok s
  | _ => Raise AttributeError
  end.

Section Program.
Context {U : Unicode}.

(** ** [str] methods *)

(** [s.strip()] *)
Fixpoint lstrip (s : str) : str :=
  match s with
  | c :: tl => if isspace c then lstrip tl else s
  | [] => []
  end.

Definition strip (s : str) : str := rev (lstrip (rev (lstrip s))).

(** [s.replace(c, '')] for a one-character [c] *)
Definition remove_char (c : char) (s : str) : str :=
  List.filter (fun x => negb (x =? c)) s.

(** [s.isdigit()] *)
Definition str_isdigit (s : str) : bool :=
  negb (bool_decide (s = [])) && forallb isdigit s.

(** ** [preprocess_citations.py]: [normalize_citation] *)

Definition chars (s : str) : list cset_item := List.map CChar s.

(** [[A-ZГ„Г–Гң]] *)
Definition cls_upper : list cset_item :=
  CRange 65 90 :: chars (utf8 "Г„Г–Гң").

(** [[A-ZГ„Г–Гңa-zГӨГ¶ГјГҹ]] *)
Definition cls_abbrev_tail : list cset_item :=
  CRange 65 90 :: chars (utf8 "Г„Г–Гң") ++
  CRange 97 122 :: chars (utf8 "ГӨГ¶ГјГҹ").

(** [[A-ZГ„Г–Гңa-zГӨГ¶Гј]] *)
Definition cls_abbrev_tail3 : list cset_item :=
  CRange 65 90 :: chars (utf8 "Г„Г–Гң") ++
  CRange 97 122 :: chars (utf8 "ГӨГ¶Гј").

(** [[a-zГ ГўГӨГ©ГЁГӘГ«ГҜГ®ГҙГ№Г»ГјГҝЕ“ГҰГ§]] *)
Definition cls_footnote_letter : list cset_item :=
  CRange 97 122 :: chars (utf8 "Г ГўГӨГ©ГЁГӘГ«ГҜГ®ГҙГ№Г»ГјГҝЕ“ГҰГ§").

Local Open Scope re_scope.

(** [(\d+)\s+a([A-ZГ„Г–Гң][A-ZГ„Г–Гңa-zГӨГ¶ГјГҹ]{1,})\b] *)
Definition re_fix1 : regex :=
  Group 1 (Plus Digit) ⨾ Plus Space ⨾ Lit (utf8 "a") ⨾
  Group 2 (Cls cls_upper ⨾ Plus (Cls cls_abbrev_tail)) ⨾ WordB.

(** [(\s)a([A-ZГ„Г–Гң][A-ZГ„Г–Гңa-zГӨГ¶ГјГҹ]{1,})\b] *)
Definition re_fix2 : regex :=
  Group 1 Space ⨾ Lit (utf8 "a") ⨾
  Group 2 (Cls cls_upper ⨾ Plus (Cls cls_abbrev_tail)) ⨾ WordB.

(** [\b([Aa]rt)\.?(\d+)([A-ZГ„Г–Гң][A-ZГ„Г–Гңa-zГӨГ¶Гј]{1,})\b] *)
Definition re_fix3 : regex :=
  WordB ⨾ Group 1 (Cls (chars (utf8 "Aa")) ⨾ Lit (utf8 "rt")) ⨾
  Opt (Lit (utf8 ".")) ⨾ Group 2 (Plus Digit) ⨾
  Group 3 (Cls cls_upper ⨾ Plus (Cls cls_abbrev_tail3)) ⨾ WordB.

(** [([a-zГ ГўГӨГ©ГЁГӘГ«ГҜГ®ГҙГ№Г»ГјГҝЕ“ГҰГ§])\d+$] *)
Definition re_footnote : regex :=
  Group 1 (Cls cls_footnote_letter) ⨾ Plus Digit ⨾ Eos.

Definition normalize_citation (citation : value) : value * bool * bool :=
  match citation with
  | VStr ((_ :: _) as original) =>
      (* "43 aCP" -> "43 a CP" *)
      let citation1 :=
        re_sub re_fix1 [TGrp 1; TLit (utf8 " a "); TGrp 2] original in
      (* " aBauR" -> " a BauR" *)
      let citation2 :=
        re_sub re_fix2 [TGrp 1; TLit (utf8 "a "); TGrp 2] citation1 in
      (* "Art.6VwVG" -> "Art. 6 VwVG" *)
      let citation3 :=
        re_sub re_fix3
          [TGrp 1; TLit (utf8 ". "); TGrp 2; TLit (utf8 " "); TGrp 3]
          citation2 in
      (* trailing footnote digits *)
      let citation4 := re_sub re_footnote [TGrp 1] citation3 in
      let is_digit_only :=
        str_isdigit (remove_char 46 (remove_char 32 (strip citation4))) in
      let changed := negb (str_eqb citation4 original) in
      (VStr citation4, changed, is_digit_only)
  | _ =>
      (* not citation or not isinstance(citation, str) *)
      (citation, false, false)
  end.

(** ** [preprocess_citations.py]: [is_garbage_citation] *)

Inductive reason :=
| fragment_marker
| date_reference
| page_reference
| incomplete_fragment
| legislative_proposal
| non_citation_text.

(** [^(Abs\.|Al\.|al\.|lit\.|let\.|Lit\.|Let\.)\s] *)
Definition re_fragment : regex :=
  Bos ⨾
  Group 1 (Alt (Lit (utf8 "Abs.")) (Alt (Lit (utf8 "Al.")) (Alt (Lit (utf8 "al."))
          (Alt (Lit (utf8 "lit.")) (Alt (Lit (utf8 "let.")) (Alt (Lit (utf8 "Lit."))
          (Lit (utf8 "Let."))))))))
  ⨾ Space.

Definition month_patterns : list str :=
  [
    utf8 "januar"; utf8 "februar"; utf8 "mГӨrz"; utf8 "april"; utf8 "mai";
    utf8 "juni"; utf8 "juli"; utf8 "august"; utf8 "september";
    utf8 "oktober"; utf8 "november"; utf8 "dezember"; utf8 "janvier";
    utf8 "fГ©vrier"; utf8 "mars"; utf8 "avril"; utf8 "mai"; utf8 "juin";
    utf8 "juillet"; utf8 "aoГ»t"; utf8 "septembre"; utf8 "octobre";
    utf8 "novembre"; utf8 "dГ©cembre"; utf8 "gennaio"; utf8 "febbraio";
    utf8 "marzo"; utf8 "aprile"; utf8 "maggio"; utf8 "giugno";
    utf8 "luglio"; utf8 "agosto"; utf8 "settembre"; utf8 "ottobre";
    utf8 "novembre"; utf8 "dicembre"
  ].

(** [\b[Aa]rt\.?\s*\d] *)
Definition re_article : regex :=
  WordB ⨾ Cls (chars (utf8 "Aa")) ⨾ Lit (utf8 "rt") ⨾ Opt (Lit (utf8 ".")) ⨾
  Star Space ⨾ Digit.

(** [^\d+\s*(ff?\.?)$] *)
Definition re_page : regex :=
  Bos ⨾ Plus Digit ⨾ Star Space ⨾
  Group 1 (Lit (utf8 "f") ⨾ Opt (Lit (utf8 "f")) ⨾ Opt (Lit (utf8 "."))) ⨾ Eos.

Definition incomplete_endings : list str :=
  [ utf8 "de la"; utf8 "du"; utf8 "des"; utf8 "de l'"; utf8 "della";
    utf8 "del"; utf8 "ist ("; utf8 "sind ("; utf8 "sowie "; utf8 "et art";
    utf8 "e art" ].

Definition proposal_words : list str :=
  [ utf8 "proposition"; utf8 "motion"; utf8 "postulat"; utf8 "initiative";
    utf8 "anfrage" ].

(** [(Abs|abs|Art|art)\s*$] *)
Definition re_dangling : regex :=
  Group 1 (Alt (Lit (utf8 "Abs")) (Alt (Lit (utf8 "abs"))
          (Alt (Lit (utf8 "Art")) (Lit (utf8 "art"))))) ⨾
  Star Space ⨾ Eos.

Definition has_month (citation_lower : str) : bool :=
  existsb (fun month => contains month citation_lower) month_patterns.

Definition has_article (citation : str) : bool :=
  bool_decide (is_Some (re_search re_article citation)).

Definition is_garbage_citation (citation : value) : bool * option reason :=
  match citation with
  | VStr ((_ :: _) as citation) =>
      let citation_lower := lower citation in
      (* 1. paragraph/letter markers without article *)
      if bool_decide (is_Some (re_match re_fragment citation))
      then (true, Some fragment_marker)
      (* 2. dates *)
      else if has_month citation_lower && negb (has_article citation)
      then (true, Some date_reference)
      (* 3. page references *)
      else if bool_decide (is_Some (re_match re_page citation))
      then (true, Some page_reference)
      (* 4. incomplete sentence fragments *)
      else if existsb (fun ending => endswith ending citation) incomplete_endings
      then (true, Some incomplete_fragment)
      (* 5. proposal/motion markers *)
      else if existsb (fun word => contains word citation_lower) proposal_words
      then (true, Some legislative_proposal)
      (* 6. ends with "Abs" or "Art" *)
      else if bool_decide (is_Some (re_search re_dangling citation))
      then (true, Some incomplete_fragment)
      (* 7. long text without article reference *)
      else if (50 <? length citation)%nat && negb (has_article citation)
      then (true, Some non_citation_text)
      else (false, None)
  | _ =>
      (* not citation or not isinstance(citation, str) *)
      (false, None)
  end.

(** ** [preprocess_citations.py]: [extract_law_from_citations] *)

Definition swiss_law_abbrevs : list str :=
  [ utf8 "stgb"; utf8 "zgb"; utf8 "or"; utf8 "bv"; utf8 "schkg"; utf8 "zpo";
    utf8 "stpo"; utf8 "uvg"; utf8 "ahvg"; utf8 "kvg"; utf8 "bvg"; utf8 "avig";
    utf8 "urg"; utf8 "dsg"; utf8 "usg"; utf8 "mwstg"; utf8 "dbg"; utf8 "vwvg";
    utf8 "pa"; utf8 "cp"; utf8 "cc"; utf8 "cst"; utf8 "cste"; utf8 "but";
    utf8 "cost" ].

(** [\b(?:rs|sr)\s*], then group 1 holding [\d+(?:\.\d+)*], then [\b] *)
Definition re_rs : regex :=
  WordB ⨾ Alt (Lit (utf8 "rs")) (Lit (utf8 "sr")) ⨾ Star Space ⨾
  Group 1 (Plus Digit ⨾ Star (Lit (utf8 ".") ⨾ Plus Digit)) ⨾ WordB.

(** [r'\b' + re.escape(abbrev) + r'\b'], for an abbreviation made of
    letters (which [re.escape] leaves as they are) *)
Definition re_word (abbrev : str) : regex := WordB ⨾ Lit abbrev ⨾ WordB.

(** The RS/SR number of one lowercased citation:
    [f"RS {match.group(1)}"] when the guard and the pattern both succeed. *)
Definition rs_number (citation_lower : str) : option str :=
  if contains (utf8 "rs ") citation_lower || contains (utf8 "sr ") citation_lower
  then match re_search re_rs citation_lower with
       | Some mo => Some (utf8 "RS " ++ group mo 1)
       | None => None
       end
  else None.

(** The first abbreviation of [abbrevs] found as a whole word, upper-cased. *)
Definition known_abbrev (abbrevs : list str) (citation_lower : str) : option str :=
  match find (fun abbrev =>
                bool_decide (is_Some (re_search (re_word abbrev) citation_lower)))
             abbrevs with
  | Some abbrev => Some (upper abbrev)
  | None => None
  end.

(** What the body of the loop over the citations finds in one citation:
    the RS/SR number first, then the known abbreviations.  The two functions
    below run the same body, each with its own list of abbreviations. *)
Definition law_of_citation (abbrevs : list str) (citation_lower : str) : option str :=
  match rs_number citation_lower with
  | Some law => Some law
  | None => known_abbrev abbrevs citation_lower
  end.

Fixpoint extract_law_from_citations (citations : list value) : result (option str) :=
  match citations with
  | [] => Ok None
  | citation :: tl =>
      citation_str <- as_str citation ;'
      match law_of_citation swiss_law_abbrevs (lower citation_str) with
      | Some law => Ok (Some law)
      | None => extract_law_from_citations tl
      end
  end.

(** ** [preprocess_citations.py]: [enrich_article_only_citations] *)

(** The list of abbreviations of the first loop of the enricher. *)
Definition enrich_law_abbrevs : list str :=
  [ utf8 "stgb"; utf8 "zgb"; utf8 "or"; utf8 "bv"; utf8 "schkg"; utf8 "zpo";
    utf8 "stpo"; utf8 "uvg"; utf8 "ahvg"; utf8 "kvg"; utf8 "bvg"; utf8 "avig";
    utf8 "urg"; utf8 "dsg"; utf8 "usg"; utf8 "mwstg"; utf8 "dbg"; utf8 "vwvg";
    utf8 "pa"; utf8 "cp"; utf8 "cc"; utf8 "cst"; utf8 "cste"; utf8 "but";
    utf8 "cost"; utf8 "bgg"; utf8 "svg"; utf8 "emrk"; utf8 "cedh" ].

Definition swiss_law_indicators : list str :=
  [ utf8 "stgb"; utf8 "zgb"; utf8 "or"; utf8 "bv"; utf8 "schkg"; utf8 "zpo";
    utf8 "stpo"; utf8 "uvg"; utf8 "ahvg"; utf8 "kvg"; utf8 "bvg"; utf8 "avig";
    utf8 "urg"; utf8 "dsg"; utf8 "usg"; utf8 "mwstg"; utf8 "dbg"; utf8 "vwvg";
    utf8 "pa"; utf8 "cp"; utf8 "cc"; utf8 "bgg"; utf8 "svg"; utf8 "emrk";
    utf8 "cedh"; utf8 "cost"; utf8 "cst"; utf8 "cste"; utf8 "but" ].

(** [\b[A-ZГ„Г–Гң]{2,}\b] *)
Definition re_uppercase_abbrev : regex :=
  WordB ⨾ Cls cls_upper ⨾ Plus (Cls cls_upper) ⨾ WordB.

(** [[a-zГӨГ¶Гј]] *)
Definition cls_lower : list cset_item :=
  CRange 97 122 :: chars (utf8 "ГӨГ¶Гј").

(** [\b[A-ZГ„Г–Гң][a-zГӨГ¶Гј]*[A-ZГ„Г–Гң]] *)
Definition re_mixed_case_abbrev : regex :=
  WordB ⨾ Cls cls_upper ⨾ Star (Cls cls_lower) ⨾ Cls cls_upper.

(** First loop: the law references of all the citations, in order. *)
Definition all_laws (citations : list value) : result (list str) :=
  foldM (fun all_laws citation =>
           citation_str <- as_str citation ;'
           match law_of_citation enrich_law_abbrevs (lower citation_str) with
           | Some law => Ok (all_laws ++ [law])
           | None => Ok all_laws
           end) [] citations.

(** [list(set(all_laws))]: the order of the elements is not specified. *)
Definition unique_laws (all_laws : list str) : list str :=
  elements (list_to_set all_laws : gset str).

Definition is_article_only (citation : str) : bool :=
  let citation_lower := strip (lower citation) in
  let has_law_abbrev :=
    existsb (fun abbrev => contains abbrev citation_lower) swiss_law_indicators in
  let has_rs_sr :=
    contains (utf8 "rs ") citation_lower || contains (utf8 "sr ") citation_lower ||
    contains (utf8 "rs.") citation_lower || contains (utf8 "sr.") citation_lower in
  let has_uppercase_abbrev :=
    bool_decide (is_Some (re_search re_uppercase_abbrev citation)) in
  let has_mixed_case_abbrev :=
    bool_decide (is_Some (re_search re_mixed_case_abbrev citation)) in
  startswith (utf8 "art") citation_lower &&
  (length citation <? 25)%nat &&
  negb has_law_abbrev &&
  negb has_rs_sr &&
  negb has_uppercase_abbrev &&
  negb has_mixed_case_abbrev.

(** Second loop, on one citation: the new text and whether it was enriched. *)
Definition enrich_one (law_ref : str) (citation : value) : result (value * bool) :=
  citation_str <- as_str citation ;'
  if is_article_only citation_str
  then Ok (VStr (citation_str ++ utf8 " " ++ law_ref), true)
  else Ok (citation, false).

Definition enrich_article_only_citations (citations : list value)
    : result (list value * nat) :=
  laws <- all_laws citations ;'
  match unique_laws laws with
  | [law_ref] =>
      out <- mapM (enrich_one law_ref) citations ;'
      Ok (List.map fst out, length (List.filter snd out))
  | _ =>
      (* len(unique_laws) != 1 *)
      Ok (citations, O)
  end.

(** ** [preprocess_citations.py]: the loop of [process_csv] over one row

    The counters of [stats] that the citations of a row change.  The row
    counters and the lists of examples shown at the end of the run are left
    out. *)

Record stats := Stats {
  citations_processed : nat;
  citations_changed : nat;
  citations_removed_digit_only : nat;
  citations_removed_garbage : nat;
  citations_enriched : nat;
  citations_kept : nat
}.

(** What the loop reads of a row of the input table: the columns [uuid]
    and [part_number] ([None] when the table has no such column) and the
    value under ["articles de loi"] in the parsed analysis ([None] when the
    key is absent).  The analysis is taken to parse to a JSON object.  The
    column [part_content], which the loop only copies to the transformation
    log, is left out: the table is decoded from UTF-8, so its columns always
    encode again. *)
Record row := Row {
  row_uuid : option str;
  row_part_number : option str;
  row_articles : option value
}.

(** An entry of [failures]; its reason is always ['short_fragment']. *)
Record failure := Failure {
  uuid : str;
  part_number : str;
  original : value;
  normalized : value
}.

Record loop_state := LoopState {
  normalized_articles : list value;
  counters : stats;
  failures : list failure
}.

Definition known_abbrevs : list str :=
  [ utf8 "rs "; utf8 "sr "; utf8 "constitution"; utf8 "verfassung";
    utf8 "costituzione";
    utf8 "cst."; utf8 "cste."; utf8 "cst"; utf8 "cste"; utf8 "but"; utf8 "bv";
    utf8 "cost."; utf8 "cost";
    utf8 "stgb"; utf8 "zgb"; utf8 "or"; utf8 "svg"; utf8 "schkg"; utf8 "zpo";
    utf8 "stpo";
    utf8 "uvg"; utf8 "ahvg"; utf8 "kvg"; utf8 "bvg"; utf8 "avig"; utf8 "urg";
    utf8 "dsg";
    utf8 "usg"; utf8 "mwstg"; utf8 "dbg"; utf8 "vesr"; utf8 "fiskalg" ].

(** The test that logs a kept citation as a short fragment. *)
Definition is_short_fragment (normalized : str) : bool :=
  (length (strip normalized) <? 15)%nat &&
  negb (existsb (fun abbrev => contains abbrev (lower normalized)) known_abbrevs) &&
  negb (bool_decide (is_Some (re_search re_uppercase_abbrev normalized))) &&
  negb (bool_decide (is_Some (re_search re_mixed_case_abbrev normalized))).

(** A string can be written to a file opened with [encoding='utf-8'] when
    it holds no surrogate code point (U+D800 to U+DFFF); [json.loads] gives
    such a code point for a lone [\ud800] escape. *)
Definition encodable (s : str) : bool :=
  forallb (fun c => negb ((55296 <=? c) && (c <=? 57343))) s.

(** [f"{v}"] encodes: the text of a value that is not a string is ASCII. *)
Definition encodable_value (v : value) : bool :=
  match v with
  | VStr s => encodable s
  | _ => true
  end.

(** [file.write(f"{a} | {b} | ...")] on a file opened with
    [encoding='utf-8'] *)
Definition write (texts : list value) : result unit :=
  if forallb encodable_value texts then Ok tt else Raise UnicodeEncodeError.

(** The body of [for citation in articles]. *)
Definition process_citation (r : row) (ls : loop_state) (citation : value)
    : result loop_state :=
  let s := counters ls in
  let s := Stats (S (citations_processed s)) (citations_changed s)
                 (citations_removed_digit_only s) (citations_removed_garbage s)
                 (citations_enriched s) (citations_kept s) in
  let '(normalized, changed, is_digit_only) := normalize_citation citation in
  if is_digit_only then
    (* skip digit-only citations *)
    Ok (LoopState (normalized_articles ls)
          (Stats (citations_processed s) (citations_changed s)
                 (S (citations_removed_digit_only s)) (citations_removed_garbage s)
                 (citations_enriched s) (citations_kept s))
          (failures ls))
  else
    let '(is_garbage, garbage_reason) := is_garbage_citation normalized in
    if is_garbage then
      (* skip garbage citations *)
      Ok (LoopState (normalized_articles ls)
            (Stats (citations_processed s) (citations_changed s)
                   (citations_removed_digit_only s) (S (citations_removed_garbage s))
                   (citations_enriched s) (citations_kept s))
            (failures ls))
    else
      let articles := normalized_articles ls ++ [normalized] in
      let s := Stats (citations_processed s)
                     (if changed then S (citations_changed s) else citations_changed s)
                     (citations_removed_digit_only s) (citations_removed_garbage s)
                     (citations_enriched s) (S (citations_kept s)) in
      (* transformations_file.write(f"{citation} | {normalized} | {part_content}\n") *)
      _ <- (if changed then write [citation; normalized] else Ok tt) ;'
      (* len(normalized.strip()) *)
      normalized_str <- as_str normalized ;'
      if is_short_fragment normalized_str
      then
        (* row['uuid'], row.get('part_number', '0') *)
        match row_uuid r with
        | Some u =>
            Ok (LoopState articles s
                  (failures ls ++
                   [Failure u (default (utf8 "0") (row_part_number r))
                            citation normalized]))
        | None => Raise KeyError
        end
      else Ok (LoopState articles s (failures ls)).

(** A row whose ["articles de loi"] is the list [articles]: the citations
    are normalised and filtered, then enriched (up to the update of
    [stats['citations_enriched']]); the result replaces the list in the row
    that is handed to the writer. *)
Definition process_articles (r : row) (articles : list value) (s : stats)
    : result (list value * stats * list failure) :=
  ls <- foldM (process_citation r) (LoopState [] s []) articles ;'
  r <- enrich_article_only_citations (normalized_articles ls) ;'
  let '(enriched_articles, enriched_count) := r in
  let s := counters ls in
  Ok (enriched_articles,
      Stats (citations_processed s) (citations_changed s)
            (citations_removed_digit_only s) (citations_removed_garbage s)
            (citations_enriched s + enriched_count)%nat (citations_kept s),
      failures ls).

(** One parsed row.  The result holds the list put in the place of
    ["articles de loi"] in the row handed to [writer.writerow], [None] when
    the row is handed over as it came.  The log of the enrichments and the
    write of the row itself come after this and are left out: both raise
    UnicodeEncodeError when a string of the analysis holds a surrogate, so
    [Ok] stands for a row that is written only if these writes go through. *)
Definition process_row (r : row) (s : stats)
    : result (option (list value) * stats * list failure) :=
  match row_articles r with
  | None => Ok (None, s, [])
  | Some v =>
      if negb (truthy v) then Ok (None, s, [])
      else match v with
           | VList articles =>
               res <- process_articles r articles s ;'
               let '(out, s', fs) := res in Ok (Some out, s', fs)
           | _ => Ok (None, s, [])
           end
  end.

(** ** [analyze_unparseable.py]: [categorize_citation] *)

Inductive category :=
| GARBAGE_REPEALED
| GARBAGE_FRAGMENT
| GARBAGE_DATE
| GARBAGE_PAGE_REF
| GARBAGE_INCOMPLETE
| GARBAGE_PROPOSAL
| RESCUABLE_ARTICLE_ONLY
| NON_SWISS_LAW
| UNKNOWN.

(** [category.startswith('GARBAGE_')] *)
Definition is_garbage_category (c : category) : bool :=
  match c with
  | GARBAGE_REPEALED | GARBAGE_FRAGMENT | GARBAGE_DATE | GARBAGE_PAGE_REF
  | GARBAGE_INCOMPLETE | GARBAGE_PROPOSAL => true
  | RESCUABLE_ARTICLE_ONLY | NON_SWISS_LAW | UNKNOWN => false
  end.

Definition repealed_tokens : list str :=
  [ utf8 "abrogé"; utf8 "aufgehoben"; utf8 "abrogato" ].

Definition fragment_prefixes : list str :=
  [ utf8 "Abs. "; utf8 "Al. "; utf8 "al. "; utf8 "lit. "; utf8 "let. ";
    utf8 "Lit. "; utf8 "Let. " ].

Definition category_months : list str :=
  [ utf8 "Januar"; utf8 "Februar"; utf8 "März"; utf8 "April"; utf8 "Mai";
    utf8 "Juni";
    utf8 "Juli"; utf8 "August"; utf8 "September"; utf8 "Oktober";
    utf8 "November"; utf8 "Dezember";
    utf8 "janvier"; utf8 "février"; utf8 "mars"; utf8 "avril"; utf8 "mai";
    utf8 "juin";
    utf8 "juillet"; utf8 "août"; utf8 "septembre"; utf8 "octobre";
    utf8 "novembre"; utf8 "décembre" ].

Definition page_suffixes : list str :=
  [ utf8 "ff."; utf8 "f."; utf8 "ff"; utf8 "f" ].

Definition category_incomplete_endings : list str :=
  [ utf8 "de la"; utf8 "du"; utf8 "des"; utf8 "de l'"; utf8 "della";
    utf8 "del"; utf8 "ist ("; utf8 "sind (" ].

Definition category_proposal_words : list str :=
  [ utf8 "proposition"; utf8 "motion"; utf8 "postulat"; utf8 "initiative" ].

Definition article_prefixes : list str :=
  [ utf8 "Art. "; utf8 "art. "; utf8 "Art "; utf8 "art " ].

Definition non_swiss_words : list str :=
  [ utf8 "reglement"; utf8 "règlement"; utf8 "statut";
    utf8 "ordonnance communale";
    utf8 "feuerwehrreglement"; utf8 "öffentlichkeitsgesetz" ].

Definition categorize_str (citation : str) : category :=
  let citation_lower := lower citation in
  (* 1: repealed/abrogated articles *)
  if existsb (fun t => contains t citation_lower) repealed_tokens
  then GARBAGE_REPEALED
  (* 2: paragraph/letter markers without article *)
  else if existsb (fun p => startswith p citation) fragment_prefixes
  then GARBAGE_FRAGMENT
  (* 3: dates *)
  else if existsb (fun month => contains month citation) category_months
  then GARBAGE_DATE
  (* 4: page references *)
  else if existsb (fun e => endswith e citation) page_suffixes &&
          existsb isdigit citation
  then GARBAGE_PAGE_REF
  (* 5: incomplete sentences/fragments *)
  else if existsb (fun e => endswith e citation) category_incomplete_endings
  then GARBAGE_INCOMPLETE
  (* 6: proposal/motion markers *)
  else if existsb (fun word => contains word citation_lower) category_proposal_words
  then GARBAGE_PROPOSAL
  (* 7: article-only citations *)
  else if existsb (fun p => startswith p citation) article_prefixes &&
          (length citation <? 30)%nat
  then RESCUABLE_ARTICLE_ONLY
  (* 8: references to non-Swiss laws *)
  else if existsb (fun word => contains word citation_lower) non_swiss_words
  then NON_SWISS_LAW
  (* 9: everything else *)
  else UNKNOWN.

Definition categorize_citation (citation : value) : result category :=
  (* citation.lower() *)
  citation_str <- as_str citation ;'
  Ok (categorize_str citation_str).

End Program.

(** ** [analyze_unparseable.py]: [main]

    The report [main] computes from the citations [load_unparseable] has
    read: the counter of categories, the first examples of each category,
    the two totals it prints, and the list it writes to
    [garbage_citations_to_filter.jsonl].  What it prints is left out, but
    for the division by the number of citations in the percentages, and so
    is the write of the file: the prints of the examples and the write raise
    UnicodeEncodeError on a citation that holds a surrogate, so [Returns]
    stands for a run that ends only if they go through. *)

#[export] Instance category_eq_dec : EqDecision category.
Proof. solve_decision. Defined.

Definition category_index (c : category) : nat :=
  match c with
  | GARBAGE_REPEALED => 0
  | GARBAGE_FRAGMENT => 1
  | GARBAGE_DATE => 2
  | GARBAGE_PAGE_REF => 3
  | GARBAGE_INCOMPLETE => 4
  | GARBAGE_PROPOSAL => 5
  | RESCUABLE_ARTICLE_ONLY => 6
  | NON_SWISS_LAW => 7
  | UNKNOWN => 8
  end%nat.

Definition category_of_index (n : nat) : option category :=
  match n with
  | 0 => Some GARBAGE_REPEALED
  | 1 => Some GARBAGE_FRAGMENT
  | 2 => Some GARBAGE_DATE
  | 3 => Some GARBAGE_PAGE_REF
  | 4 => Some GARBAGE_INCOMPLETE
  | 5 => Some GARBAGE_PROPOSAL
  | 6 => Some RESCUABLE_ARTICLE_ONLY
  | 7 => Some NON_SWISS_LAW
  | 8 => Some UNKNOWN
  | _ => None
  end%nat.

#[export] Instance category_countable : Countable category.
Proof.
  refine (inj_countable category_index category_of_index _). by intros [].
Defined.

(** [category.startswith('RESCUABLE_')] *)
Definition is_rescuable_category (c : category) : bool :=
  match c with
  | RESCUABLE_ARTICLE_ONLY => true
  | _ => false
  end.

(** One line of the log of unparseable citations, a JSON object; [None]
    stands for a key the object does not have. *)
Record item := Item {
  item_citation : option value;
  item_element_id : option value
}.

(** An entry of [filtered_citations]. *)
Record filtered := Filtered {
  filtered_citation : value;
  filtered_category : category;
  filtered_element_id : value
}.

Record report := Report {
  categories : gmap category nat;
  by_category : gmap category (list value);
  total_garbage : nat;
  total_rescuable : nat;
  filtered_citations : list filtered
}.

(** How [main] ends: it returns, or one of the citation functions or a
    subscript raises, or the division of the percentages raises
    [ZeroDivisionError]. *)
Inductive outcome :=
| Returns (r : report)
| Fails (e : exn)
| DividesByZero.

(** [item[key]] *)
Definition subscript (field : option value) : result value :=
  match field with
  | Some v => Ok v
  | None => Raise KeyError
  end.

Section Report.
Context {U : Unicode}.

(** The body of the first loop. *)
Definition count_item (st : gmap category nat * gmap category (list value))
    (it : item) : result (gmap category nat * gmap category (list value)) :=
  let '(categories, by_category) := st in
  citation <- subscript (item_citation it) ;'
  category <- categorize_citation citation ;'
  (* categories[category] += 1 *)
  let categories := <[category := S (default O (categories !! category))]> categories in
  (* by_category[category] creates the list when it is missing *)
  let examples := default [] (by_category !! category) in
  let by_category :=
    if (length examples <? 10)%nat
    then <[category := examples ++ [citation]]> by_category
    else <[category := examples]> by_category in
  Ok (categories, by_category).

(** [sum(count for cat, count in categories.items() if p(cat))] *)
Definition sum_counts (p : category -> bool) (categories : gmap category nat) : nat :=
  map_fold (fun cat count acc => if p cat then (count + acc)%nat else acc) O categories.

(** The body of the second loop. *)
Definition filter_item (acc : list filtered) (it : item) : result (list filtered) :=
  citation <- subscript (item_citation it) ;'
  category <- categorize_citation citation ;'
  if is_garbage_category category
  then element_id <- subscript (item_element_id it) ;'
       Ok (acc ++ [Filtered citation category element_id])
  else Ok acc.

Definition main (citations : list item) : outcome :=
  match foldM count_item (∅, ∅) citations with
  | Raise e => Fails e
  | Ok (categories, by_category) =>
      let total_garbage := sum_counts is_garbage_category categories in
      let total_rescuable := sum_counts is_rescuable_category categories in
      (* total_garbage/len(citations)*100 *)
      if bool_decide (length citations = O) then DividesByZero
      else match foldM filter_item [] citations with
           | Raise e => Fails e
           | Ok filtered_citations =>
               Returns (Report categories by_category total_garbage total_rescuable
                               filtered_citations)
           end
  end.

End Report.

(** ** [build_abbreviation_triplets.py] and [build_title_mappings.py]

    Both scripts run one loop over the rows of the fedlex dataset and fill
    dictionaries.  A row is modelled by the four columns the loops read;
    the columns are string columns, [None] stands for a null. *)

Record fedlex_row := FedlexRow {
  RS_number : option str;
  Abbreviation : option str;
  Language : option str;
  Title : option str
}.

(** [s.split(sep)] for a one-character separator *)
Fixpoint split (sep : char) (s : str) : list str :=
  match s with
  | [] => [[]]
  | c :: tl =>
      if c =? sep then [] :: split sep tl
      else match split sep tl with
           | part :: parts => (c :: part) :: parts
           | [] => [[c]]
           end
  end.

(** [sep.join(words)] *)
Fixpoint join (sep : str) (words : list str) : str :=
  match words with
  | [] => []
  | [w] => w
  | w :: ws => w ++ sep ++ join sep ws
  end.

(** [s.lstrip(cs)] and [s.rstrip(cs)] with the characters to remove given *)
Fixpoint lstrip_chars (cs : str) (s : str) : str :=
  match s with
  | c :: tl => if existsb (N.eqb c) cs then lstrip_chars cs tl else s
  | [] => []
  end.

Definition rstrip_chars (cs : str) (s : str) : str := rev (lstrip_chars cs (rev s)).

Section Fedlex.
Context {U : Unicode}.

(** [s.split()]: the maximal runs of characters that are not whitespace *)
Fixpoint split_whitespace (s : str) : list str :=
  match s with
  | [] => []
  | c :: tl =>
      if isspace c then split_whitespace tl
      else match tl with
           | [] => [[c]]
           | d :: _ =>
               if isspace d then [c] :: split_whitespace tl
               else match split_whitespace tl with
                    | w :: ws => (c :: w) :: ws
                    | [] => [[c]]
                    end
           end
  end.

(** The two tests on the RS number that make both loops [continue]:
    [rs_number.startswith('0')], and three parts between dots that are all
    digits. *)
Definition skipped_rs_number (rs_number : str) : bool :=
  startswith (utf8 "0") rs_number ||
  (let parts := split 46 rs_number in
   (length parts =? 3)%nat && forallb str_isdigit parts).

(** *** The loop of [build_abbreviation_triplets] *)

Definition abbreviation_step (rs_to_abbrevs : gmap str (gmap str str))
    (row : fedlex_row) : gmap str (gmap str str) :=
  match RS_number row, Language row with
  | Some ((_ :: _) as rs_number), Some ((_ :: _) as language) =>
      if skipped_rs_number rs_number then rs_to_abbrevs
      else
        (* if abbreviation and abbreviation.strip() *)
        match Abbreviation row with
        | Some ((_ :: _) as abbreviation) =>
            match strip abbreviation with
            | [] => rs_to_abbrevs
            | _ :: _ =>
                (* rs_to_abbrevs[rs_number] creates the inner dict *)
                let langs := default ∅ (rs_to_abbrevs !! rs_number) in
                match langs !! language with
                | None => <[rs_number := <[language := strip abbreviation]> langs]> rs_to_abbrevs
                | Some _ => <[rs_number := langs]> rs_to_abbrevs
                end
            end
        | _ => rs_to_abbrevs
        end
  | _, _ => rs_to_abbrevs   (* not rs_number or not language *)
  end.

(** The dictionary [build_abbreviation_triplets] returns for the rows of
    the dataset. *)
Definition build_abbreviation_triplets (dataset : list fedlex_row)
    : gmap str (gmap str str) :=
  fold_left abbreviation_step dataset ∅.

(** *** The loop of [build_title_mappings] *)

(** [' '.join(title.lower().strip().split())], then [.rstrip('.,;:')] *)
Definition normalized_title (title : str) : str :=
  rstrip_chars (utf8 ".,;:") (join (utf8 " ") (split_whitespace (strip (lower title)))).

Record title_maps := TitleMaps {
  titles_by_rs : gmap str (gmap str str);
  title_to_rs : gmap str str
}.

Definition title_step (st : title_maps) (row : fedlex_row) : title_maps :=
  match RS_number row, Title row, Language row with
  | Some ((_ :: _) as rs_number), Some ((_ :: _) as title), Some ((_ :: _) as language) =>
      if skipped_rs_number rs_number then st
      else
        let langs := default ∅ (titles_by_rs st !! rs_number) in
        let titles_by_rs' :=
          match langs !! language with
          | None => <[rs_number := <[language := title]> langs]> (titles_by_rs st)
          | Some _ => <[rs_number := langs]> (titles_by_rs st)
          end in
        let t := normalized_title title in
        let title_to_rs' :=
          match title_to_rs st !! t with
          | None => <[t := rs_number]> (title_to_rs st)
          | Some _ => title_to_rs st
          end in
        TitleMaps titles_by_rs' title_to_rs'
  | _, _, _ => st   (* not rs_number or not title or not language *)
  end.

Definition build_title_mappings (dataset : list fedlex_row) : title_maps :=
  fold_left title_step dataset (TitleMaps ∅ ∅).

End Fedlex.

(** ** The Unicode tables on Basic Latin and Latin-1

    Exact for the code points below 256.  Above them no character is
    classified and the case mappings leave the character alone, so a
    computation with this instance is the computation of the program on
    subjects written in Latin-1. *)

Definition in_ranges (rs : list (N * N)) (c : char) : bool :=
  existsb (fun r => (fst r <=? c) && (c <=? snd r)) rs.

Definition latin1_isdecimal : char -> bool := in_ranges [(48, 57)].

Definition latin1_isspace : char -> bool :=
  in_ranges [(9, 13); (28, 32); (133, 133); (160, 160)].

Definition latin1_isalnum : char -> bool :=
  in_ranges [(48, 57); (65, 90); (97, 122); (170, 170); (178, 179);
             (181, 181); (185, 186); (188, 190); (192, 214); (216, 246);
             (248, 255)].

Definition latin1_isdigit : char -> bool :=
  in_ranges [(48, 57); (178, 179); (185, 185)].

Definition latin1_lower_char (c : char) : char :=
  if in_ranges [(65, 90); (192, 214); (216, 222)] c then c + 32 else c.

Definition latin1_upper_char (c : char) : str :=
  if c =? 181 then [924]
  else if c =? 223 then [83; 83]
  else if c =? 255 then [376]
  else if in_ranges [(97, 122); (224, 246); (248, 254)] c then [c - 32]
  else [c].

#[export] Instance latin1 : Unicode := {|
  isdecimal := latin1_isdecimal;
  isspace := latin1_isspace;
  isalnum := latin1_isalnum;
  isdigit := latin1_isdigit;
  lower := List.map latin1_lower_char;
  upper := fun s => concat (List.map latin1_upper_char s)
|}.

(** ** Notions used to state the properties *)

Section Notions.
Context {U : Unicode}.

(** The law references the first loop of the enricher collects, for a
    record whose citations are all strings. *)
Definition laws_of (citations : list str) : list str :=
  omap (fun c => law_of_citation enrich_law_abbrevs (lower c)) citations.

Definition law_set (citations : list str) : gset str :=
  list_to_set (laws_of citations).

(** The text the second loop of the enricher gives one citation. *)
Definition enrich_text (law_ref : str) (citation : str) : str :=
  if is_article_only citation then citation ++ utf8 " " ++ law_ref else citation.

(** The single-citation extractor: [extract_law_from_citations] applied to
    the one-element list [[citation]]. *)
Definition extractLawReference (citation : str) : option str :=
  match extract_law_from_citations [VStr citation] with
  | Ok (Some law) => Some law
  | _ => None
  end.

(** The words of the specification: the single-citation extractor applied
    to every citation of a record, deduplicated. *)
Definition extractAllLawReferences (citations : list str) : gset str :=
  list_to_set (omap extractLawReference citations).

(** The abbreviations that only the enricher looks for. *)
Definition enricher_only_abbrevs : list str :=
  [ utf8 "bgg"; utf8 "svg"; utf8 "emrk"; utf8 "cedh" ].

Definition has_word (abbrev citation_lower : str) : bool :=
  bool_decide (is_Some (re_search (re_word abbrev) citation_lower)).

(** The number of positions at which two lists differ. *)
Definition count_changed (xs ys : list str) : nat :=
  length (filter (fun p => p.1 ≠ p.2) (zip xs ys)).

(** The month tokens of the list of [is_garbage_citation] that are spelled
    in ASCII.  The others stand in the source file with each accented
    letter as two characters. *)
Definition spelled_months : list str :=
  List.filter (forallb (fun c => c <? 128)) month_patterns.

(** The markers of the fragment rule of [is_garbage_citation]. *)
Definition fragment_markers : list str :=
  [ utf8 "Abs."; utf8 "Al."; utf8 "al."; utf8 "lit."; utf8 "let.";
    utf8 "Lit."; utf8 "Let." ].

(** The string [normalize_citation] returns. *)
Definition normalized_text (citation : value) : value :=
  (normalize_citation citation).1.1.

(** Greedy repetition of a one-character step, by recursion on the subject:
    what [m_star] computes for [\d*] and the like. *)
Fixpoint star_chars (p : char -> bool) (prev : option char) (rest : str)
    (caps : list (nat * str)) (k : mstate -> option mstate) : option mstate :=
  match rest with
  | c :: tl =>
      if p c then
        match star_chars p (Some c) tl caps k with
        | Some r => Some r
        | None => k (MState prev rest caps)
        end
      else k (MState prev rest caps)
  | [] => k (MState prev [] caps)
  end.

(** The subjects the footnote pattern matches from their first character:
    a letter of its class, a non-empty run of decimal digits, the end. *)
Definition footnote_shape (rest : str) (c : char) (ds tail : str) : Prop :=
  rest = c :: ds ++ tail /\ in_class cls_footnote_letter c = true /\
  ds <> [] /\ forallb isdecimal ds = true /\ at_eos tail = true.

End Notions.

(** ** Notions used to state the further properties *)

Section FurtherNotions.
Context {U : Unicode}.

(** ** What a successful match has done

    [run r st st'] relates the state before a match of [r] to the state after
    it; the matcher only succeeds along this relation. *)

Definition run_char (p : char -> bool) (st st' : mstate) : Prop :=
  exists c, m_rest st = c :: m_rest st' /\ p c = true /\
            m_prev st' = Some c /\ m_caps st' = m_caps st.

Fixpoint run_lit (s : str) (st st' : mstate) : Prop :=
  match s with
  | [] => st' = st
  | a :: s' => exists mid, run_char (N.eqb a) st mid /\ run_lit s' mid st'
  end.

(** Iterations of a step, each consuming input. *)
Inductive iter (R : mstate -> mstate -> Prop) : mstate -> mstate -> Prop :=
| iter_done st : iter R st st
| iter_more st st1 st2 :
    R st st1 -> (length (m_rest st1) < length (m_rest st))%nat ->
    iter R st1 st2 -> iter R st st2.

Fixpoint run (r : regex) (st st' : mstate) : Prop :=
  match r with
  | Eps => st' = st
  | Lit s => run_lit s st st'
  | Cls items => run_char (in_class items) st st'
  | Digit => run_char isdecimal st st'
  | Space => run_char isspace st st'
  | WordB => at_wordb st = true /\ st' = st
  | Bos => m_prev st = None /\ st' = st
  | Eos => at_eos (m_rest st) = true /\ st' = st
  | Seq r1 r2 => exists mid, run r1 st mid /\ run r2 mid st'
  | Alt r1 r2 => run r1 st st' \/ run r2 st st'
  | Star r1 => iter (run r1) st st'
  | Group n r1 =>
      exists st1, run r1 st st1 /\
        st' = MState (m_prev st1) (m_rest st1) ((n, consumed st st1) :: m_caps st1)
  end.

(** What a match has consumed. *)
Definition eaten (st st' : mstate) (s : str) : Prop := m_rest st = s ++ m_rest st'.

(** A pattern without capturing groups. *)
Fixpoint groupless (r : regex) : bool :=
  match r with
  | Seq r1 r2 | Alt r1 r2 => groupless r1 && groupless r2
  | Star r1 => groupless r1
  | Group _ _ => false
  | _ => true
  end.

(** The characters of a citation that are neither white space, nor decimal
    digits, nor dots. *)
Definition letters (s : str) : str :=
  List.filter (fun c => negb (isspace c) && negb (isdecimal c) && negb (c =? 46)) s.

(** Runs of decimal digits separated by single dots: [\d+(?:\.\d+)*]. *)
Inductive dotted_digits : str -> Prop :=
| dotted_last ds :
    ds <> [] -> forallb isdecimal ds = true -> dotted_digits ds
| dotted_more ds s :
    ds <> [] -> forallb isdecimal ds = true -> dotted_digits s ->
    dotted_digits (ds ++ 46 :: s).

(** The endings the page rule accepts after the number. *)
Definition page_endings : list str :=
  [ utf8 "f"; utf8 "f."; utf8 "ff"; utf8 "ff." ].

(** *** The loop of [process_csv] *)

(** The test of [normalize_citation] for a text made of digits only. *)
Definition digit_only_text (s : str) : bool :=
  str_isdigit (remove_char 46 (remove_char 32 (strip s))).

(** A citation that the loop of [process_csv] keeps and logs as a short
    fragment. *)
Definition logged_short (citation : str) : bool :=
  let '(v, _, is_digit_only) := normalize_citation (VStr citation) in
  negb is_digit_only && negb (is_garbage_citation v).1 &&
  match v with
  | VStr n => is_short_fragment n
  | _ => false
  end.

(** The normalized text of a citation the loop of [process_csv] keeps. *)
Definition kept_text (citation : str) : option str :=
  match normalize_citation (VStr citation) with
  | (VStr n, _, false) => if (is_garbage_citation (VStr n)).1 then None else Some n
  | _ => None
  end.

(** The citation and its normalized text that the loop logs as a short
    fragment. *)
Definition logged_pair (citation : str) : option (value * value) :=
  match kept_text citation with
  | Some n => if is_short_fragment n then Some (VStr citation, VStr n) else None
  | None => None
  end.

(** *** The report of [main] *)

(** The category of an item whose citation is a string. *)
Definition item_category (it : item) : option category :=
  match item_citation it with
  | Some (VStr s) => Some (categorize_str s)
  | _ => None
  end.

(** An item [main] can process: its citation is a string. *)
Definition well_formed (it : item) : bool :=
  match item_citation it with
  | Some (VStr _) => true
  | _ => false
  end.

Definition has_category (cat : category) (it : item) : bool :=
  bool_decide (item_category it = Some cat).

Definition count_of (categories : gmap category nat) (cat : category) : nat :=
  default O (categories !! cat).

Definition all_categories : list category :=
  [ GARBAGE_REPEALED; GARBAGE_FRAGMENT; GARBAGE_DATE; GARBAGE_PAGE_REF;
    GARBAGE_INCOMPLETE; GARBAGE_PROPOSAL; RESCUABLE_ARTICLE_ONLY; NON_SWISS_LAW;
    UNKNOWN ].

(** The citations of the items of one category, in the order of the log. *)
Definition citations_of (cat : category) (items : list item) : list value :=
  omap (fun it => if has_category cat it then item_citation it else None) items.

(** Whether an item is of a garbage category. *)
Definition is_garbage_item (it : item) : bool :=
  match item_category it with
  | Some cat => is_garbage_category cat
  | None => false
  end.

(** The entry the second loop writes for an item. *)
Definition filtered_of (it : item) : option filtered :=
  match item_citation it, item_category it, item_element_id it with
  | Some citation, Some cat, Some element_id =>
      if is_garbage_category cat then Some (Filtered citation cat element_id) else None
  | _, _, _ => None
  end.

(** The examples of a category after more citations of it have been seen. *)
Definition more_examples (old : option (list value)) (new : list value)
    : option (list value) :=
  match new with
  | [] => old
  | _ :: _ => Some (default [] old ++ take (10 - length (default [] old)) new)
  end.

(** Sums over the categories. *)
Definition sum_over (l : list category) (f : category -> nat) : nat :=
  foldr (fun c acc => (f c + acc)%nat) O l.

(** A garbage item carries the [element_id] the second loop reads. *)
Definition has_element_id (it : item) : bool :=
  implb (is_garbage_item it) (bool_decide (is_Some (item_element_id it))).

(** *** The dictionaries of the two dataset scripts *)

(** The RS number and language of a row both loops go on with. *)
Definition accepted (row : fedlex_row) : option (str * str) :=
  match RS_number row, Language row with
  | Some ((_ :: _) as rs_number), Some ((_ :: _) as language) =>
      if skipped_rs_number rs_number then None else Some (rs_number, language)
  | _, _ => None
  end.

(** The abbreviation a row contributes for an RS number and a language. *)
Definition abbreviation_for (rs_number language : str) (row : fedlex_row) : option str :=
  match accepted row, Abbreviation row with
  | Some (rs, lang), Some abbreviation =>
      if bool_decide (rs = rs_number) && bool_decide (lang = language) &&
         negb (bool_decide (strip abbreviation = []))
      then Some (strip abbreviation) else None
  | _, _ => None
  end.

(** The title a row contributes for an RS number and a language. *)
Definition title_for (rs_number language : str) (row : fedlex_row) : option str :=
  match accepted row, Title row with
  | Some (rs, lang), Some ((_ :: _) as title) =>
      if bool_decide (rs = rs_number) && bool_decide (lang = language)
      then Some title else None
  | _, _ => None
  end.

(** The RS number a row contributes for a normalized title. *)
Definition rs_number_for (t : str) (row : fedlex_row) : option str :=
  match accepted row, Title row with
  | Some (rs, _), Some ((_ :: _) as title) =>
      if bool_decide (normalized_title title = t) then Some rs else None
  | _, _ => None
  end.

(** [d[k1][k2]] where both keys exist *)
Definition lookup2 (d : gmap str (gmap str str)) (k1 k2 : str) : option str :=
  d !! k1 ≫= (.!! k2).

(** Every inner dictionary has an entry. *)
Definition inhabited (m : gmap str (gmap str str)) : Prop :=
  forall rs langs, m !! rs = Some langs -> exists lang v, langs !! lang = Some v.

(** No two adjacent characters of [s] are both whitespace. *)
Fixpoint single_spaced (s : str) : bool :=
  match s with
  | c :: tl =>
      match tl with
      | d :: _ => negb (isspace c && isspace d)
      | [] => true
      end && single_spaced tl
  | [] => true
  end.

(** A word of [split()]: not empty, no whitespace in it. *)
Definition word (w : str) : Prop :=
  w <> [] /\ forall c, c ∈ w -> isspace c = false.

(** What holds of the words joined by one space. *)
Definition tidy (s : str) : Prop :=
  (forall c, head s = Some c -> isspace c = false) /\
  single_spaced s = true /\
  (forall c, c ∈ s -> isspace c = true -> c = 32).

End FurtherNotions.

(** * Properties *)

Section Properties.
Context {U : Unicode}.

(** ** Loops on records of strings never raise *)

Lemma all_laws_acc (acc : list str) (citations : list str) :
  foldM (fun all_laws citation =>
           citation_str <- as_str citation ;'
           match law_of_citation enrich_law_abbrevs (lower citation_str) with
           | Some law => Ok (all_laws ++ [law])
           | None => Ok all_laws
           end) acc (map VStr citations) = Ok (acc ++ laws_of citations).
Proof.
  revert acc. induction citations as [|c cs IH]; intros acc; simpl.
  - by rewrite app_nil_r.
  - unfold laws_of; simpl.
    destruct (law_of_citation enrich_law_abbrevs (lower c)) as [law|]; simpl.
    + rewrite IH. by rewrite <- app_assoc.
    + apply IH.
Qed.

Lemma all_laws_strings (citations : list str) :
  all_laws (map VStr citations) = Ok (laws_of citations).
Proof. unfold all_laws. by rewrite all_laws_acc. Qed.

Lemma enrich_loop_strings (law_ref : str) (citations : list str) :
  mapM (enrich_one law_ref) (map VStr citations) =
  Ok (map (fun c => (VStr (enrich_text law_ref c), is_article_only c)) citations).
Proof.
  induction citations as [|c cs IH]; simpl; [done|].
  rewrite IH. unfold enrich_one, enrich_text; simpl.
  by destruct (is_article_only c).
Qed.

Lemma unique_laws_length (laws : list str) :
  length (unique_laws laws) = size (list_to_set laws : gset str).
Proof. reflexivity. Qed.

Lemma unique_laws_single (laws : list str) (law : str) :
  unique_laws laws = [law] -> (list_to_set laws : gset str) = {[ law ]}.
Proof.
  intros H. apply set_eq. intros x.
  rewrite <- elem_of_elements. unfold unique_laws in H. rewrite H.
  rewrite elem_of_singleton. apply list_elem_of_singleton.
Qed.

(** What the enricher does on a record of strings, in one equation. *)
Lemma enrich_strings (citations : list str) :
  enrich_article_only_citations (map VStr citations) =
  match unique_laws (laws_of citations) with
  | [law_ref] =>
      Ok (map VStr (map (enrich_text law_ref) citations),
          length (List.filter is_article_only citations))
  | _ => Ok (map VStr citations, O)
  end.
Proof.
  unfold enrich_article_only_citations.
  rewrite all_laws_strings; simpl.
  destruct (unique_laws (laws_of citations)) as [|law [|? ?]]; try done.
  rewrite enrich_loop_strings; simpl. f_equal. f_equal.
  - rewrite !List.map_map. done.
  - induction citations as [|c cs IH]; simpl; [done|].
    destruct (is_article_only c); simpl; by rewrite IH.
Qed.

Lemma utf8_space : utf8 " " = [32].
Proof. reflexivity. Qed.

Lemma enrich_text_changed (law_ref c : str) :
  is_article_only c = true -> enrich_text law_ref c ≠ c.
Proof.
  intros H E. unfold enrich_text in E. rewrite H, utf8_space in E.
  apply (f_equal length) in E. rewrite length_app in E. simpl in E. lia.
Qed.

Lemma enrich_text_unchanged (law_ref c : str) :
  is_article_only c = false -> enrich_text law_ref c = c.
Proof. intros H. unfold enrich_text. by rewrite H. Qed.

(** ** The enricher and the number of laws of the record *)

(** C1.  For every record of citation strings, when the set of law
    references collected over all its citations does not have exactly one
    element (it is empty, or holds two or more references),
    [enrich_article_only_citations] returns the input sequence as it is and
    an enrichment count of 0: enrichment happens only with exactly one law. *)
Theorem enrich_requires_single_law (citations : list str) :
  size (law_set citations) ≠ 1%nat ->
  enrich_article_only_citations (map VStr citations) = Ok (map VStr citations, O).
Proof.
  intros Hsize. rewrite enrich_strings.
  pose proof (unique_laws_length (laws_of citations)) as Hlen.
  fold (law_set citations) in Hlen.
  destruct (unique_laws (laws_of citations)) as [|law [|? ?]]; try done.
Qed.

(** The same fact read the other way: an output that differs from the
    input, or a positive count, needs exactly one law in the record. *)
Lemma enrichment_implies_single_law (citations : list str) out n :
  enrich_article_only_citations (map VStr citations) = Ok (out, n) ->
  out ≠ map VStr citations \/ n ≠ O ->
  size (law_set citations) = 1%nat.
Proof.
  rewrite enrich_strings.
  pose proof (unique_laws_length (laws_of citations)) as Hlen.
  fold (law_set citations) in Hlen.
  destruct (unique_laws (laws_of citations)) as [|law [|? ?]];
    intros [= <- <-] [H|H]; try done.
Qed.

(** C4.  For every record of citation strings the enricher returns, and
    every citation of its output is the input citation at the same position,
    either as it was or followed by one space and the law reference that is
    the only element of the record's set of laws. *)
Theorem enriched_citation_shape (citations : list str) :
  exists out n,
    enrich_article_only_citations (map VStr citations) = Ok (map VStr out, n) /\
    Forall2 (fun c o =>
               o = c \/
               exists law_ref,
                 law_set citations = {[ law_ref ]} /\
                 o = c ++ utf8 " " ++ law_ref)
            citations out.
Proof.
  rewrite enrich_strings.
  destruct (unique_laws (laws_of citations)) as [|law [|? ?]] eqn:Hu.
  - exists citations, O. split; [done|]. apply Forall2_same_length_lookup_2; [done|].
    intros i x y Hx Hy. left. congruence.
  - exists (map (enrich_text law) citations), (length (List.filter is_article_only citations)).
    split; [done|].
    apply unique_laws_single in Hu. fold (law_set citations) in Hu.
    generalize dependent (law_set citations). intros ls Hls.
    induction citations as [|c cs IH]; simpl; constructor; [|done].
    unfold enrich_text. destruct (is_article_only c); [right|left; done].
    by exists law.
  - exists citations, O. split; [done|]. apply Forall2_same_length_lookup_2; [done|].
    intros i x y Hx Hy. left. congruence.
Qed.

Lemma count_changed_cons (x y : str) xs ys :
  count_changed (x :: xs) (y :: ys) =
  ((if decide (x = y) then 0 else 1) + count_changed xs ys)%nat.
Proof.
  unfold count_changed; simpl. rewrite filter_cons; simpl.
  destruct (decide (x = y)) as [->|Hne].
  - by rewrite decide_False by (intros H; by apply H).
  - by rewrite decide_True by done.
Qed.

Lemma count_changed_same (xs : list str) : count_changed xs xs = O.
Proof.
  induction xs as [|x xs IH]; [done|].
  rewrite count_changed_cons, IH. by rewrite decide_True by done.
Qed.

Lemma count_changed_enrich (law_ref : str) (citations : list str) :
  count_changed citations (map (enrich_text law_ref) citations) =
  length (List.filter is_article_only citations).
Proof.
  induction citations as [|c cs IH]; [done|]. simpl.
  rewrite count_changed_cons, IH.
  destruct (is_article_only c) eqn:Ha; simpl.
  - rewrite decide_False; [done|].
    intros E. by apply (enrich_text_changed law_ref c Ha).
  - by rewrite decide_True by (by rewrite enrich_text_unchanged).
Qed.

(** C9.  For every list of citation strings the enricher returns a list of
    the same length whose element at each position is a function of the
    input element at that position, and the count it returns is the number
    of positions at which output and input differ. *)
Theorem enrich_positionwise_and_count (citations : list str) :
  exists (f : str -> str) out n,
    enrich_article_only_citations (map VStr citations) = Ok (map VStr out, n) /\
    length out = length citations /\
    (forall i, out !! i = f <$> citations !! i) /\
    n = count_changed citations out.
Proof.
  rewrite enrich_strings.
  destruct (unique_laws (laws_of citations)) as [|law [|? ?]].
  - exists (fun c => c), citations, O. repeat split; try done.
    + intros i. by destruct (citations !! i).
    + by rewrite count_changed_same.
  - exists (enrich_text law), (map (enrich_text law) citations),
      (length (List.filter is_article_only citations)).
    repeat split.
    + by rewrite length_map.
    + intros i. apply list_lookup_fmap.
    + by rewrite count_changed_enrich.
  - exists (fun c => c), citations, O. repeat split; try done.
    + intros i. by destruct (citations !! i).
    + by rewrite count_changed_same.
Qed.

(** ** The enricher's collection of laws and the extractor *)

Lemma extractLawReference_eq (c : str) :
  extractLawReference c = law_of_citation swiss_law_abbrevs (lower c).
Proof.
  unfold extractLawReference; simpl.
  by destruct (law_of_citation swiss_law_abbrevs (lower c)).
Qed.

Lemma enrich_law_abbrevs_split :
  enrich_law_abbrevs = swiss_law_abbrevs ++ enricher_only_abbrevs.
Proof. reflexivity. Qed.

Lemma known_abbrev_app (l1 l2 : list str) (s : str) :
  known_abbrev (l1 ++ l2) s =
  match known_abbrev l1 s with
  | Some law => Some law
  | None => known_abbrev l2 s
  end.
Proof.
  unfold known_abbrev. induction l1 as [|a l1 IH]; simpl.
  - by destruct (find _ l2).
  - destruct (bool_decide _); [done|]. apply IH.
Qed.

(** Whatever the extractor finds in a citation, the enricher finds too. *)
Lemma extractor_found_by_enricher (c law : str) :
  law_of_citation swiss_law_abbrevs (lower c) = Some law ->
  law_of_citation enrich_law_abbrevs (lower c) = Some law.
Proof.
  unfold law_of_citation. destruct (rs_number (lower c)); [done|].
  rewrite enrich_law_abbrevs_split, known_abbrev_app. by intros ->.
Qed.

Lemma known_abbrev_none (l : list str) (s : str) :
  (forall a, a ∈ l -> has_word a s = false) -> known_abbrev l s = None.
Proof.
  unfold known_abbrev, has_word. intros H.
  induction l as [|a l IH]; simpl; [done|].
  rewrite (H a) by (by left). apply IH. intros b Hb. apply H. by right.
Qed.

Lemma enricher_agrees_without_extra (c : str) :
  (forall a, a ∈ enricher_only_abbrevs -> has_word a (lower c) = false) ->
  law_of_citation enrich_law_abbrevs (lower c) =
  law_of_citation swiss_law_abbrevs (lower c).
Proof.
  intros H. unfold law_of_citation. destruct (rs_number (lower c)); [done|].
  rewrite enrich_law_abbrevs_split, known_abbrev_app.
  rewrite (known_abbrev_none enricher_only_abbrevs) by done.
  by destruct (known_abbrev swiss_law_abbrevs (lower c)).
Qed.

(** C5, as amended.  The set of references the enricher gathers over a
    record contains every result the single-citation extractor gives on a
    citation of the record; the two sets are equal whenever no citation holds,
    as a whole word of its lowercased text, one of the four abbreviations
    that only the enricher looks for (bgg, svg, emrk, cedh). *)
Theorem enricher_laws_and_extractor (citations : list str) :
  extractAllLawReferences citations ⊆ law_set citations /\
  ((forall c a, c ∈ citations -> a ∈ enricher_only_abbrevs ->
                has_word a (lower c) = false) ->
   law_set citations = extractAllLawReferences citations).
Proof.
  split.
  - unfold extractAllLawReferences, law_set, laws_of. intros law.
    rewrite !elem_of_list_to_set, !list_elem_of_omap.
    intros (c & Hc & Hlaw). exists c. split; [done|].
    rewrite extractLawReference_eq in Hlaw. by apply extractor_found_by_enricher.
  - intros H. unfold extractAllLawReferences, law_set, laws_of. f_equal.
    induction citations as [|c cs IH]; [done|]. simpl.
    rewrite extractLawReference_eq.
    rewrite enricher_agrees_without_extra by (intros a Ha; apply H; [by left|done]).
    assert (IH' := IH (fun c' a Hc' Ha => H c' a (list_elem_of_further _ _ _ Hc') Ha)).
    destruct (law_of_citation swiss_law_abbrevs (lower c)); [f_equal|]; exact IH'.
Qed.

(** ** Values that are not strings *)

Lemma as_str_non_string (v : value) :
  is_str v = false -> as_str v = Raise AttributeError.
Proof. by destruct v. Qed.

Lemma normalize_non_string (v : value) :
  is_str v = false -> normalize_citation v = (v, false, false).
Proof. by destruct v. Qed.

Lemma is_garbage_non_string (v : value) :
  is_str v = false -> is_garbage_citation v = (false, None).
Proof. by destruct v. Qed.

(** C6, at its failing inputs.  On a value that is not a string,
    [categorize_citation], [extract_law_from_citations] and
    [enrich_article_only_citations] raise [AttributeError] instead of
    returning; so does the loop of [process_csv], which hands on what
    [normalize_citation] and [is_garbage_citation] let through. *)
Theorem non_string_citation_raises (v : value) (r : row) (s : stats) :
  is_str v = false ->
  categorize_citation v = Raise AttributeError /\
  extract_law_from_citations [v] = Raise AttributeError /\
  enrich_article_only_citations [v] = Raise AttributeError /\
  process_articles r [v] s = Raise AttributeError.
Proof.
  intros Hv. repeat split.
  - unfold categorize_citation. by rewrite as_str_non_string.
  - simpl. by rewrite as_str_non_string.
  - unfold enrich_article_only_citations, all_laws; simpl.
    by rewrite as_str_non_string.
  - unfold process_articles; simpl. unfold process_citation.
    rewrite normalize_non_string by done.
    rewrite is_garbage_non_string by done. simpl.
    by rewrite as_str_non_string.
Qed.

(** On strings the three functions do return. *)
Lemma string_input_returns (c : str) (citations : list str) :
  (exists l, categorize_citation (VStr c) = Ok l) /\
  (exists r, extract_law_from_citations (map VStr citations) = Ok r) /\
  (exists r, enrich_article_only_citations (map VStr citations) = Ok r).
Proof.
  repeat split.
  - by eexists.
  - induction citations as [|c' cs IH]; simpl; [by eexists|].
    destruct (law_of_citation swiss_law_abbrevs (lower c')); [by eexists|done].
  - rewrite enrich_strings.
    destruct (unique_laws (laws_of citations)) as [|law [|? ?]]; by eexists.
Qed.

(** ** Substrings and prefixes *)

Lemma startswith_spec (p s : str) :
  startswith p s = true <-> exists post, s = p ++ post.
Proof.
  revert s. induction p as [|a p IH]; intros s; simpl.
  - split; [by exists s|done].
  - destruct s as [|b s].
    + split; [done|]. by intros [post ?].
    + rewrite andb_true_iff, N.eqb_eq, IH. split.
      * intros [-> [post ->]]. by exists post.
      * intros [post [= -> ->]]. split; [done|by exists post].
Qed.

Lemma contains_spec (p s : str) :
  contains p s = true <-> exists pre post, s = pre ++ p ++ post.
Proof.
  induction s as [|b s IH].
  - simpl. rewrite orb_false_r, startswith_spec. split.
    + intros [post H]. by exists [], post.
    + intros (pre & post & H). destruct pre; [by exists post|done].
  - simpl. rewrite orb_true_iff, startswith_spec, IH. split.
    + intros [[post H]|(pre & post & H)].
      * by exists [], post.
      * exists (b :: pre), post. by rewrite H.
    + intros (pre & post & H). destruct pre as [|c pre].
      * left. by exists post.
      * right. injection H as -> ->. by exists pre, post.
Qed.

Ltac eval_utf8 :=
  repeat match goal with
         | |- context [utf8 ?s] =>
             let x := eval vm_compute in (utf8 s) in change (utf8 s) with x
         end.

(** ** The fragment rule and the date rule *)

(** C7, as amended.  For every citation that begins with one of the
    markers Abs., Al., al., lit., let., Lit., Let. (in these spellings)
    followed by a white-space character, the garbage filter answers
    [fragment_marker], whatever comes after; when that character is a space
    and the lowercased text holds no repealed token, [categorize_citation]
    answers [GARBAGE_FRAGMENT]. *)
Theorem fragment_marker_flagged (marker : str) (ws : char) (rest : str) :
  marker ∈ fragment_markers ->
  isspace ws = true ->
  is_garbage_citation (VStr (marker ++ ws :: rest)) = (true, Some fragment_marker) /\
  (ws = 32 ->
   existsb (fun t => contains t (lower (marker ++ ws :: rest))) repealed_tokens = false ->
   categorize_citation (VStr (marker ++ ws :: rest)) = Ok GARBAGE_FRAGMENT).
Proof.
  intros Hm Hws. unfold fragment_markers in Hm.
  repeat (apply elem_of_cons in Hm as [->|Hm]); [..|by apply elem_of_nil in Hm].
  all: split;
    [ eval_utf8; unfold is_garbage_citation, re_match, match_at, re_fragment;
      eval_utf8; cbn; rewrite Hws; reflexivity
    | intros -> Hrep; unfold categorize_citation, categorize_str; cbn [as_str bind];
      rewrite Hrep; reflexivity ].
Qed.

(** Every token of the list is spelled in ASCII or holds a character
    beyond Latin-1. *)
Lemma month_patterns_spelling :
  forallb (fun m => forallb (fun c => c <? 128) m || existsb (fun c => 256 <=? c) m)
          month_patterns = true.
Proof. by vm_compute. Qed.

Lemma contains_chars (p s : str) (c : char) :
  contains p s = true -> c ∈ p -> c ∈ s.
Proof.
  intros (pre & post & ->)%contains_spec Hc.
  apply elem_of_app. right. apply elem_of_app. by left.
Qed.

Lemma not_contained_beyond (m s : str) :
  forallb (fun c => c <? 256) s = true ->
  existsb (fun c => 256 <=? c) m = true ->
  contains m s = false.
Proof.
  intros Hs (c & Hc & Hbig)%existsb_exists. apply not_true_iff_false. intros Hcon.
  apply list_elem_of_In in Hc. pose proof (contains_chars m s c Hcon Hc) as Hin.
  rewrite forallb_forall in Hs. apply list_elem_of_In, Hs in Hin.
  apply N.ltb_lt in Hin. apply N.leb_le in Hbig. lia.
Qed.

Lemma months_found_are_spelled (s : str) (months : list str) :
  forallb (fun c => c <? 256) s = true ->
  forallb (fun m => forallb (fun c => c <? 128) m || existsb (fun c => 256 <=? c) m)
          months = true ->
  existsb (fun m => contains m s) months =
  existsb (fun m => contains m s) (List.filter (forallb (fun c => c <? 128)) months).
Proof.
  intros Hs. induction months as [|m ms IH]; [done|]. cbn [forallb existsb List.filter].
  intros [Hm Hms]%andb_true_iff. specialize (IH Hms).
  destruct (forallb (fun c => c <? 128) m) eqn:Hascii; cbn [existsb].
  - by rewrite IH.
  - cbn [orb] in Hm. by rewrite (not_contained_beyond m s Hs Hm), IH.
Qed.

Lemma has_month_spelled (s : str) :
  forallb (fun c => c <? 256) s = true ->
  has_month s = existsb (fun m => contains m s) spelled_months.
Proof.
  intros Hs. unfold has_month, spelled_months.
  apply months_found_are_spelled; [done|apply month_patterns_spelling].
Qed.

(** C8, at its failing inputs.  The accented month names of the list of
    [is_garbage_citation] (märz, février, août, décembre) stand in the
    source with each accented letter as two characters, one of them beyond
    Latin-1.  So on a citation whose lowercased text is Latin-1 and holds
    none of the month tokens spelled in ASCII, the filter never answers
    [date_reference], whatever accented month name the citation holds. *)
Theorem accented_month_not_flagged (citation : str) :
  forallb (fun c => c <? 256) (lower citation) = true ->
  existsb (fun month => contains month (lower citation)) spelled_months = false ->
  (is_garbage_citation (VStr citation)).2 ≠ Some date_reference.
Proof.
  intros Hlatin Hspelled. destruct citation as [|c0 cs]; [done|].
  unfold is_garbage_citation.
  rewrite (has_month_spelled _ Hlatin), Hspelled. cbn [andb].
  repeat (match goal with |- context [if ?b then _ else _] => destruct b end; try done).
Qed.

(** ** The loop of [process_csv] on a row of strings *)

Lemma normalize_string (c : str) :
  exists c' changed digit_only,
    normalize_citation (VStr c) = (VStr c', changed, digit_only) /\
    (c = [] -> c' = [] /\ changed = false /\ digit_only = false).
Proof.
  destruct c; simpl.
  - by exists [], false, false.
  - eexists _, _, _. split; [reflexivity|done].
Qed.

(** One turn of the loop that returns: the citation is dropped, or its
    normalised text is appended and counted as kept.  The empty string is
    always appended. *)
Lemma process_citation_returns (r : row) (ls ls' : loop_state) (citation : value) :
  process_citation r ls citation = Ok ls' ->
  exists kept : list str,
    normalized_articles ls' = normalized_articles ls ++ map VStr kept /\
    citations_kept (counters ls') =
      (citations_kept (counters ls) + length kept)%nat /\
    (citation = VStr [] -> kept = [[]]).
Proof.
  unfold process_citation.
  destruct (normalize_citation citation) as [[v ch] d] eqn:Hn.
  destruct d.
  { intros [= <-]. exists []. simpl. rewrite app_nil_r, Nat.add_0_r.
    repeat split; try done. intros ->. by simpl in Hn. }
  destruct (is_garbage_citation v) as [g why] eqn:Hg.
  destruct g.
  { intros [= <-]. exists []. simpl. rewrite app_nil_r, Nat.add_0_r.
    repeat split; try done. intros ->. simpl in Hn. injection Hn as <- _. by simpl in Hg. }
  destruct (if ch then write [citation; v] else Ok ()) as [[]|e]; [|done]. cbn [bind].
  destruct v as [c'| | | | |]; try done. cbn [as_str bind].
  destruct (is_short_fragment c'); [destruct (row_uuid r); [|done]|];
    intros [= <-]; exists [c'];
    (split; [reflexivity|]); (split; [simpl; lia|]);
    intros ->; simpl in Hn; by injection Hn as <- _.
Qed.

Lemma process_loop_returns (r : row) (articles : list value) (ls ls' : loop_state) :
  foldM (process_citation r) ls articles = Ok ls' ->
  exists kept : list str,
    normalized_articles ls' = normalized_articles ls ++ map VStr kept /\
    citations_kept (counters ls') =
      (citations_kept (counters ls) + length kept)%nat /\
    (VStr [] ∈ articles -> [] ∈ kept).
Proof.
  revert ls. induction articles as [|c cs IH]; intros ls; cbn [foldM].
  - intros [= <-]. exists []. simpl. rewrite app_nil_r, Nat.add_0_r.
    repeat split; try done. intros Hin. by apply elem_of_nil in Hin.
  - destruct (process_citation r ls c) as [ls1|e] eqn:H1; [|done]. cbn [bind].
    intros H2. apply process_citation_returns in H1 as (k1 & Ha1 & Hk1 & He1).
    apply IH in H2 as (k2 & Ha2 & Hk2 & He2).
    exists (k1 ++ k2). repeat split.
    + rewrite Ha2, Ha1, map_app. by rewrite <- app_assoc.
    + rewrite Hk2, Hk1, length_app. lia.
    + intros Hin. apply elem_of_app. apply elem_of_cons in Hin as [<-|Hin].
      * left. rewrite He1 by done. by left.
      * right. by apply He2.
Qed.

(** What the loop keeps has passed both filters: no kept citation is
    digit-only after normalisation or garbage for [is_garbage_citation]. *)
Lemma process_citation_keeps_clean (r : row) (ls ls' : loop_state) (citation : value) :
  process_citation r ls citation = Ok ls' ->
  Forall (fun v => (is_garbage_citation v).1 = false) (normalized_articles ls) ->
  Forall (fun v => (is_garbage_citation v).1 = false) (normalized_articles ls').
Proof.
  unfold process_citation.
  destruct (normalize_citation citation) as [[v ch] d].
  destruct d; [by intros [= <-]|].
  destruct (is_garbage_citation v) as [g why] eqn:Hg.
  destruct g; [by intros [= <-]|].
  destruct (if ch then write [citation; v] else Ok ()) as [[]|?]; [|done]. cbn [bind].
  destruct (as_str v) as [c'|e]; [|done]. cbn [bind].
  assert (Hv : (is_garbage_citation v).1 = false) by (by rewrite Hg).
  destruct (is_short_fragment c'); [destruct (row_uuid r); [|done]|];
    intros [= <-] Hall; cbn [normalized_articles];
    apply Forall_app; split; try done; by constructor.
Qed.

Lemma process_loop_keeps_clean (r : row) (articles : list value) (ls ls' : loop_state) :
  foldM (process_citation r) ls articles = Ok ls' ->
  Forall (fun v => (is_garbage_citation v).1 = false) (normalized_articles ls) ->
  Forall (fun v => (is_garbage_citation v).1 = false) (normalized_articles ls').
Proof.
  revert ls. induction articles as [|c cs IH]; intros ls; simpl.
  - by intros [= <-].
  - destruct (process_citation r ls c) as [ls1|e] eqn:H1; [|done]. simpl.
    intros H2 Hall. apply (IH ls1 H2). by apply (process_citation_keeps_clean r ls ls1 c).
Qed.

Lemma empty_not_article_only :
  lower [] = [] -> is_article_only [] = false.
Proof. intros H. unfold is_article_only. rewrite H. reflexivity. Qed.

(** ** The matcher on the patterns of [normalize_citation] *)

Lemma sub_scan_no_match (r : regex) (t : list titem) (s : str) (prev : option char) :
  search_from r prev s = None -> sub_scan r t O prev s = s.
Proof.
  revert prev. induction s as [|c s IH]; intros prev; simpl.
  - by destruct (match_at r prev []).
  - destruct (match_at r prev (c :: s)); [done|].
    intros H. by rewrite IH.
Qed.

Lemma m_star_chars (p : char -> bool) (fuel : nat) prev rest caps k :
  (length rest <= fuel)%nat ->
  m_star (fun st k => m_char p st k) fuel (MState prev rest caps) k =
  star_chars p prev rest caps k.
Proof.
  revert prev rest. induction fuel as [|f IH]; intros prev rest Hlen.
  - destruct rest; [done|simpl in Hlen; lia].
  - destruct rest as [|c tl]; [done|].
    simpl. unfold m_char at 1. simpl.
    destruct (p c); [|done].
    assert ((length tl <? S (length tl))%nat = true) as -> by (apply Nat.ltb_lt; lia).
    unfold step_char; simpl. rewrite IH by (simpl in Hlen; lia). done.
Qed.

Lemma star_chars_sound (p : char -> bool) prev rest caps k r :
  star_chars p prev rest caps k = Some r ->
  exists ds tail prev',
    rest = ds ++ tail /\ forallb p ds = true /\ k (MState prev' tail caps) = Some r.
Proof.
  revert prev. induction rest as [|c tl IH]; intros prev; simpl.
  - intros H. by exists [], [], prev.
  - destruct (p c) eqn:Hp.
    + destruct (star_chars p (Some c) tl caps k) eqn:Hs.
      * intros [= <-]. destruct (IH _ Hs) as (ds & tail & prev' & -> & Hds & Hk).
        exists (c :: ds), tail, prev'. simpl. by rewrite Hp, Hds.
      * intros H. by exists [], (c :: tl), prev.
    + intros H. by exists [], (c :: tl), prev.
Qed.

Lemma take_one_more {A} (x : A) (l : list A) :
  take (length (x :: l) - length l) (x :: l) = [x].
Proof. simpl. replace (S (length l) - length l)%nat with 1%nat by lia. done. Qed.

Lemma footnote_sound prev rest mo :
  match_at re_footnote prev rest = Some mo ->
  exists c ds tail,
    footnote_shape rest c ds tail /\ span mo = S (length ds) /\ group mo 1 = [c].
Proof.
  unfold match_at.
  destruct (m re_footnote (MState prev rest []) Some) as [st|] eqn:Hm; [|done].
  intros [= <-]. unfold re_footnote, Plus in Hm. cbn [m] in Hm.
  destruct rest as [|c tl]; [done|].
  unfold m_char in Hm at 1. cbn [m_rest] in Hm.
  destruct (in_class cls_footnote_letter c) eqn:Hc; [|done].
  unfold step_char, consumed in Hm. cbn [m_rest m_prev m_caps] in Hm.
  rewrite take_one_more in Hm.
  destruct tl as [|d tl]; [done|].
  unfold m_char in Hm at 1. cbn [m_rest] in Hm.
  destruct (isdecimal d) eqn:Hd; [|done].
  unfold step_char in Hm. cbn [m_rest m_prev m_caps] in Hm.
  rewrite m_star_chars in Hm by done.
  apply star_chars_sound in Hm as (ds & tail & prev' & -> & Hds & Hk).
  cbn [m_rest] in Hk. destruct (at_eos tail) eqn:He; [|done].
  injection Hk as <-. exists c, (d :: ds), tail. repeat split; try done.
  - simpl. by rewrite Hd, Hds.
  - simpl. rewrite length_app. lia.
Qed.

Lemma footnote_none_short prev (s : str) :
  (length s <= 1)%nat -> match_at re_footnote prev s = None.
Proof.
  intros Hlen. destruct (match_at re_footnote prev s) as [mo|] eqn:Hm; [|done].
  apply footnote_sound in Hm as (c & ds & tail & (-> & _ & Hds & _) & _).
  destruct ds; [done|]. simpl in Hlen. lia.
Qed.

Lemma sub_scan_skip (r : regex) (t : list titem) (ds tail : str) prev :
  exists prev', sub_scan r t (length ds) prev (ds ++ tail) = sub_scan r t O prev' tail.
Proof.
  revert prev. induction ds as [|d ds IH]; intros prev; simpl.
  - by exists prev.
  - apply IH.
Qed.

Lemma at_eos_cases (tail : str) : at_eos tail = true -> tail = [] \/ tail = [10].
Proof.
  destruct tail as [|c [|? ?]]; simpl; try done; [by left|].
  intros H. apply N.eqb_eq in H as ->. by right.
Qed.

Lemma star_chars_fallback (p : char -> bool) prev rest caps k :
  is_Some (k (MState prev rest caps)) -> is_Some (star_chars p prev rest caps k).
Proof.
  intros Hk. destruct rest as [|c tl]; simpl; [done|].
  destruct (p c); [|done].
  by destruct (star_chars p (Some c) tl caps k).
Qed.

Lemma star_chars_complete (p : char -> bool) prev ds tail caps k :
  forallb p ds = true ->
  (forall prev', is_Some (k (MState prev' tail caps))) ->
  is_Some (star_chars p prev (ds ++ tail) caps k).
Proof.
  intros Hds Hk. revert prev. induction ds as [|d ds IH]; intros prev.
  - by apply star_chars_fallback.
  - simpl in Hds |- *. apply andb_true_iff in Hds as [Hd Hds]. rewrite Hd.
    destruct (IH Hds (Some d)) as [r ->]. done.
Qed.

Lemma footnote_complete prev rest c ds tail :
  footnote_shape rest c ds tail -> is_Some (match_at re_footnote prev rest).
Proof.
  intros (-> & Hc & Hne & Hds & He).
  destruct ds as [|d ds]; [done|]. simpl in Hds.
  apply andb_true_iff in Hds as [Hd Hds].
  unfold match_at.
  destruct (m re_footnote (MState prev (c :: (d :: ds) ++ tail) []) Some) as [st|] eqn:Hm;
    [done|].
  exfalso. unfold re_footnote, Plus in Hm. cbn [m] in Hm.
  unfold m_char in Hm at 1. cbn [m_rest] in Hm. rewrite Hc in Hm.
  unfold step_char, consumed in Hm. cbn [m_rest m_prev m_caps app] in Hm.
  unfold m_char in Hm at 1. cbn [m_rest] in Hm. rewrite Hd in Hm.
  unfold step_char in Hm. cbn [m_rest m_prev m_caps] in Hm.
  rewrite m_star_chars in Hm by done.
  match type of Hm with
  | star_chars ?p ?pr _ ?caps ?k = None =>
      destruct (star_chars_complete p pr ds tail caps k Hds) as [r Hr]
  end.
  - intros prev'. cbn [m_rest]. by rewrite He.
  - congruence.
Qed.

(** The footnote pattern does not look at what precedes the match. *)
Lemma footnote_prev_irrelevant prev prev' rest :
  match_at re_footnote prev rest = None -> match_at re_footnote prev' rest = None.
Proof.
  intros H. destruct (match_at re_footnote prev' rest) as [mo|] eqn:Hm; [|done].
  apply footnote_sound in Hm as (c & ds & tail & Hshape & _).
  destruct (footnote_complete prev rest c ds tail Hshape) as [? ?]. congruence.
Qed.

(** The footnote rule leaves a subject alone, in which it finds nothing, or
    replaces the leftmost match: the letter is kept, the digits go. *)
Lemma sub_footnote_cases (z : str) prev :
  (sub_scan re_footnote [TGrp 1] O prev z = z /\ search_from re_footnote prev z = None) \/
  (exists pre c ds tail,
     z = pre ++ c :: ds ++ tail /\
     sub_scan re_footnote [TGrp 1] O prev z = pre ++ c :: tail /\
     forallb isdecimal ds = true /\ at_eos tail = true /\
     in_class cls_footnote_letter c = true /\
     forall p1 a p2, pre = p1 ++ a :: p2 ->
       match_at re_footnote None (a :: p2 ++ c :: ds ++ tail) = None).
Proof.
  revert prev. induction z as [|a z IH]; intros prev.
  - left. cbn [sub_scan search_from]. by rewrite footnote_none_short by (simpl; lia).
  - cbn [sub_scan search_from]. destruct (match_at re_footnote prev (a :: z)) as [mo|] eqn:Hm.
    + right. apply footnote_sound in Hm as (c & ds & tail & (Hz & Hc & _ & Hds & He) & Hspan & Hg).
      injection Hz as -> ->. rewrite Hspan.
      destruct (sub_scan_skip re_footnote [TGrp 1] ds tail (Some c)) as [prev' ->].
      exists [], c, ds, tail. unfold expand; simpl. rewrite Hg. simpl.
      repeat split; try done.
      * rewrite sub_scan_no_match; [done|].
        apply at_eos_cases in He as [-> | ->]; cbn [search_from];
          by rewrite !footnote_none_short by (simpl; lia).
      * intros p1 a p2 H. by destruct p1.
    + destruct (IH (Some a)) as [[Hy Hs]|(pre & c & ds & tail & Hz & Hy & Hds & He & Hc & Hleft)].
      * left. by rewrite Hy, Hs.
      * right. exists (a :: pre), c, ds, tail. rewrite Hy, Hz.
        repeat split; try done.
        intros p1 b p2 H. destruct p1 as [|x p1]; simpl in H.
        -- injection H as <- <-. rewrite <- Hz.
           by apply (footnote_prev_irrelevant prev).
        -- injection H as _ H. by apply (Hleft p1 b p2).
Qed.

(** ** Normalising twice *)

Section Idempotence.
Hypothesis newline_not_decimal : isdecimal 10 = false.

Lemma last_decimal (ds : str) (d : char) :
  forallb isdecimal (ds ++ [d]) = true -> isdecimal d = true.
Proof.
  rewrite forallb_app. simpl. intros H.
  apply andb_true_iff in H as [_ H]. by rewrite andb_true_r in H.
Qed.

(** Where the rule has replaced its leftmost match, nothing is left for it
    to match. *)
Lemma no_footnote_left (p2 : str) (c : char) (ds tail : str) prev :
  in_class cls_footnote_letter c = true ->
  forallb isdecimal ds = true ->
  at_eos tail = true ->
  (forall a p2', p2 = a :: p2' ->
     match_at re_footnote None (a :: p2' ++ c :: ds ++ tail) = None) ->
  match_at re_footnote prev (p2 ++ c :: tail) = None.
Proof.
  intros Hc Hds He Hleft.
  destruct (match_at re_footnote prev (p2 ++ c :: tail)) as [mo|] eqn:Hm; [|done].
  exfalso.
  apply footnote_sound in Hm as (c' & ds' & tail' & (Hs & Hc' & Hne & Hds' & He') & _).
  destruct (exists_last Hne) as (ds0 & d & ->).
  pose proof (last_decimal _ _ Hds') as Hd.
  assert (Hnl : in_class cls_footnote_letter 10 = false) by reflexivity.
  destruct p2 as [|a p2'].
  - simpl in Hs. injection Hs as _ Hs.
    apply at_eos_cases in He as [-> | ->].
    + by destruct ds0.
    + destruct ds0 as [|? [|? ?]]; simpl in Hs; try done.
      injection Hs as E _. rewrite <- E in Hd. congruence.
  - simpl in Hs. injection Hs as <- Hs.
    assert (Hmatch : forall DS, p2' ++ [c] = DS -> forallb isdecimal DS = true -> False).
    { intros DS HDS Hall.
      pose proof (Hleft a p2' eq_refl) as Hnone.
      destruct (footnote_complete None (a :: p2' ++ c :: ds ++ tail) a (DS ++ ds) tail)
        as [mo' Hmo'].
      - repeat split; try done.
        + rewrite <- HDS, <- !app_assoc. done.
        + rewrite <- HDS. by destruct p2'.
        + rewrite forallb_app. by rewrite Hall, Hds.
      - congruence. }
    apply at_eos_cases in He as [-> | ->]; apply at_eos_cases in He' as [-> | ->].
    + rewrite app_nil_r in Hs. by apply (Hmatch (ds0 ++ [d])).
    + change (p2' ++ [c] = ((ds0 ++ [d]) ++ [10])) in Hs.
      apply app_inj_tail in Hs as [_ ->]. congruence.
    + rewrite app_nil_r in Hs. change (p2' ++ [c] ++ [10] = ds0 ++ [d]) in Hs.
      rewrite app_assoc in Hs. apply app_inj_tail in Hs as [_ <-]. congruence.
    + change (p2' ++ [c] ++ [10] = (ds0 ++ [d]) ++ [10]) in Hs.
      rewrite app_assoc in Hs. apply app_inj_tail in Hs as [Hs _].
      by apply (Hmatch (ds0 ++ [d])).
Qed.

Lemma no_footnote_search_left (p1 p2 : str) (c : char) (ds tail : str) prev :
  in_class cls_footnote_letter c = true ->
  forallb isdecimal ds = true ->
  at_eos tail = true ->
  (forall q1 a q2, p1 ++ p2 = q1 ++ a :: q2 ->
     match_at re_footnote None (a :: q2 ++ c :: ds ++ tail) = None) ->
  search_from re_footnote prev (p2 ++ c :: tail) = None.
Proof.
  intros Hc Hds He. revert p1 prev. induction p2 as [|a p2 IH]; intros p1 prev Hleft.
  - cbn [app search_from].
    rewrite (no_footnote_left [] c ds tail) by done.
    apply at_eos_cases in He as [-> | ->]; cbn [search_from];
      by rewrite !footnote_none_short by (simpl; lia).
  - change ((a :: p2) ++ c :: tail) with (a :: (p2 ++ c :: tail)).
    cbn [search_from].
    change (a :: (p2 ++ c :: tail)) with ((a :: p2) ++ c :: tail).
    rewrite (no_footnote_left (a :: p2) c ds tail); try done.
    + apply (IH (p1 ++ [a])). intros q1 b q2 H. apply (Hleft q1 b q2).
      by rewrite <- H, <- app_assoc.
    + intros b q2 [= <- <-]. by apply (Hleft p1 a p2).
Qed.

(** The footnote rule does nothing to its own output. *)
Lemma footnote_rule_idempotent (z : str) :
  re_sub re_footnote [TGrp 1] (re_sub re_footnote [TGrp 1] z) =
  re_sub re_footnote [TGrp 1] z.
Proof.
  unfold re_sub.
  destruct (sub_footnote_cases z None)
    as [[Hy Hs]|(pre & c & ds & tail & Hz & Hy & Hds & He & Hc & Hleft)].
  - rewrite Hy. by apply sub_scan_no_match.
  - rewrite Hy. apply sub_scan_no_match.
    by apply (no_footnote_search_left [] pre c ds tail).
Qed.

(** C2, as amended.  Normalisation is one pass and is not idempotent in
    general.  It is idempotent on every string whose normalised text no
    longer matches any of the three spacing patterns: normalising that text
    again returns it as it is.  The newline is taken not to be a decimal
    digit. *)
Theorem normalize_idempotent_once_spaced (x y : str) :
  normalized_text (VStr x) = VStr y ->
  re_search re_fix1 y = None ->
  re_search re_fix2 y = None ->
  re_search re_fix3 y = None ->
  normalized_text (VStr y) = VStr y.
Proof.
  unfold normalized_text. intros Hy H1 H2 H3.
  destruct y as [|y0 y]; [done|].
  destruct x as [|x0 x]; [done|].
  cbn [normalize_citation fst] in Hy |- *. injection Hy as Hy.
  unfold re_search in H1, H2, H3. unfold re_sub at 4.
  rewrite sub_scan_no_match by done. unfold re_sub at 3.
  rewrite sub_scan_no_match by done. unfold re_sub at 2.
  rewrite sub_scan_no_match by done.
  rewrite <- Hy at 1. rewrite footnote_rule_idempotent. by rewrite Hy.
Qed.

End Idempotence.

End Properties.

(** * The program on Latin-1 subjects *)

Lemma latin1_newline_not_decimal : isdecimal 10 = false.
Proof. reflexivity. Qed.

Lemma latin1_lower_nil : lower [] = [].
Proof. reflexivity. Qed.

(** The characters of the classes that are not ASCII, as code points. *)
Example cls_upper_code_points :
  cls_upper = CRange 65 90 :: chars [1043; 8222; 1043; 8211; 1043; 1187].
Proof. reflexivity. Qed.

Example cls_footnote_letter_code_points :
  cls_footnote_letter =
  CRange 97 122 ::
  chars [1043; 160; 1043; 1118; 1043; 1256; 1043; 169; 1043; 1025; 1043; 1240;
         1043; 171; 1043; 1180; 1043; 174; 1043; 1177; 1043; 8470; 1043; 187;
         1043; 1112; 1043; 1181; 1045; 8220; 1043; 1200; 1043; 167].
Proof. reflexivity. Qed.

(** ** The scenarios of the specification *)

Example scenario_43_aCP :
  normalize_citation (VStr (utf8 "43 aCP")) = (VStr (utf8 "43 a CP"), true, false) /\
  is_garbage_citation (VStr (utf8 "43 a CP")) = (false, None) /\
  categorize_citation (VStr (utf8 "43 a CP")) = Ok UNKNOWN.
Proof. by vm_compute. Qed.

Example scenario_page_reference :
  is_garbage_citation (VStr (utf8 "207ff.")) = (true, Some page_reference) /\
  categorize_citation (VStr (utf8 "207ff.")) = Ok GARBAGE_PAGE_REF.
Proof. by vm_compute. Qed.

Example scenario_proposal :
  is_garbage_citation (VStr (utf8 "Proposition 12.345")) =
    (true, Some legislative_proposal) /\
  categorize_citation (VStr (utf8 "Proposition 12.345")) = Ok GARBAGE_PROPOSAL.
Proof. by vm_compute. Qed.

Example scenario_footnote :
  normalize_citation (VStr (utf8 "Loi sur l'administration3")) =
  (VStr (utf8 "Loi sur l'administration"), true, false).
Proof. by vm_compute. Qed.

Example scenario_enriched :
  enrich_article_only_citations
    [VStr (utf8 "art. 128"); VStr (utf8 "Loi cantonale, RS 131.211")] =
  Ok ([VStr (utf8 "art. 128 RS 131.211"); VStr (utf8 "Loi cantonale, RS 131.211")],
      1%nat).
Proof. by vm_compute. Qed.

Example scenario_two_laws :
  enrich_article_only_citations
    [VStr (utf8 "art. 5"); VStr (utf8 "StGB Art. 10"); VStr (utf8 "ZGB Art. 2")] =
  Ok ([VStr (utf8 "art. 5"); VStr (utf8 "StGB Art. 10"); VStr (utf8 "ZGB Art. 2")],
      O).
Proof. by vm_compute. Qed.

(** ** The properties at concrete records *)

(** C1 applied to a record with two laws. *)
Lemma enrich_requires_single_law_two_laws :
  size (law_set [utf8 "art. 5"; utf8 "StGB Art. 10"; utf8 "ZGB Art. 2"]) ≠ 1%nat /\
  enrich_article_only_citations
    (map VStr [utf8 "art. 5"; utf8 "StGB Art. 10"; utf8 "ZGB Art. 2"]) =
  Ok (map VStr [utf8 "art. 5"; utf8 "StGB Art. 10"; utf8 "ZGB Art. 2"], O).
Proof.
  assert (H : size (law_set [utf8 "art. 5"; utf8 "StGB Art. 10"; utf8 "ZGB Art. 2"])
              ≠ 1%nat).
  { vm_compute. lia. }
  split; [exact H|].
  apply (enrich_requires_single_law
           [utf8 "art. 5"; utf8 "StGB Art. 10"; utf8 "ZGB Art. 2"] H).
Defined.

(** C2 as stated fails: the footnote rule strips the digit that kept the
    word boundary of the third pattern from matching, and the second pass
    then inserts the spaces. *)
Lemma normalize_not_idempotent :
  normalized_text (VStr (utf8 "Art.6VwVg3")) = VStr (utf8 "Art.6VwVg") /\
  normalized_text (normalized_text (VStr (utf8 "Art.6VwVg3"))) =
    VStr (utf8 "Art. 6 VwVg") /\
  normalized_text (normalized_text (VStr (utf8 "Art.6VwVg3"))) ≠
    normalized_text (VStr (utf8 "Art.6VwVg3")).
Proof. by vm_compute. Qed.

(** C2 as amended, applied to the footnote scenario. *)
Lemma normalize_idempotent_on_footnote_scenario :
  normalized_text (VStr (utf8 "Loi sur l'administration3")) =
    VStr (utf8 "Loi sur l'administration") /\
  normalized_text (VStr (utf8 "Loi sur l'administration")) =
    VStr (utf8 "Loi sur l'administration").
Proof.
  split; [by vm_compute|].
  apply (normalize_idempotent_once_spaced latin1_newline_not_decimal
           (utf8 "Loi sur l'administration3") (utf8 "Loi sur l'administration"));
    by vm_compute.
Defined.

(** C3 at its failing input: a citation with a repealed marker is neither
    digit-only nor garbage for [is_garbage_citation], so the row is written
    with it, while [categorize_citation] labels it [GARBAGE_REPEALED]. *)
Theorem repealed_citation_is_written :
  process_row (Row (Some (utf8 "u1")) (Some (utf8 "0"))
                   (Some (VList [VStr (utf8 "Art. 5 (aufgehoben)")])))
              (Stats 0 0 0 0 0 0) =
    Ok (Some [VStr (utf8 "Art. 5 (aufgehoben)")], Stats 1 0 0 0 0 1, []) /\
  is_garbage_citation (VStr (utf8 "Art. 5 (aufgehoben)")) = (false, None) /\
  categorize_citation (VStr (utf8 "Art. 5 (aufgehoben)")) = Ok GARBAGE_REPEALED /\
  is_garbage_category GARBAGE_REPEALED = true.
Proof. by vm_compute. Qed.

(** C5 as stated fails: the enricher knows BGG, the extractor does not. *)
Lemma enricher_laws_differ_from_extractor :
  law_set [utf8 "art. 5 BGG"] ≠ extractAllLawReferences [utf8 "art. 5 BGG"].
Proof.
  intros H. apply (f_equal size) in H. vm_compute in H. discriminate.
Qed.

Ltac elem_cases H :=
  repeat (apply elem_of_cons in H as [->|H]); [..|by apply elem_of_nil in H].

(** C5 as amended, applied to the enrichment scenario. *)
Lemma enricher_laws_and_extractor_scenario :
  law_set [utf8 "art. 128"; utf8 "Loi cantonale, RS 131.211"] =
  extractAllLawReferences [utf8 "art. 128"; utf8 "Loi cantonale, RS 131.211"].
Proof.
  apply (proj2 (enricher_laws_and_extractor
                  [utf8 "art. 128"; utf8 "Loi cantonale, RS 131.211"])).
  intros c a Hc Ha. unfold enricher_only_abbrevs in Ha.
  elem_cases Hc; elem_cases Ha; by vm_compute.
Defined.

(** C6 applied to [None]. *)
Lemma none_citation_raises :
  categorize_citation VNone = Raise AttributeError /\
  extract_law_from_citations [VNone] = Raise AttributeError /\
  enrich_article_only_citations [VNone] = Raise AttributeError /\
  process_articles (Row (Some (utf8 "u1")) None (Some (VList [VNone]))) [VNone]
                   (Stats 0 0 0 0 0 0) = Raise AttributeError.
Proof.
  apply (non_string_citation_raises VNone
           (Row (Some (utf8 "u1")) None (Some (VList [VNone])))
           (Stats 0 0 0 0 0 0)).
  reflexivity.
Defined.

(** C7 as stated fails: without white space after the marker, or with the
    marker in another letter case, neither function sees a fragment. *)
Lemma bare_marker_not_flagged :
  startswith (utf8 "Abs.") (utf8 "Abs.3") = true /\
  has_article (utf8 "Abs.3") = false /\
  is_garbage_citation (VStr (utf8 "Abs.3")) ≠ (true, Some fragment_marker) /\
  categorize_citation (VStr (utf8 "Abs.3")) ≠ Ok GARBAGE_FRAGMENT /\
  is_garbage_citation (VStr (utf8 "abs. 3")) ≠ (true, Some fragment_marker) /\
  categorize_citation (VStr (utf8 "abs. 3")) ≠ Ok GARBAGE_FRAGMENT.
Proof. by vm_compute. Qed.

(** C7 as amended, applied to "Abs. 3". *)
Lemma fragment_marker_flagged_abs_3 :
  is_garbage_citation (VStr (utf8 "Abs." ++ 32 :: utf8 "3")) =
    (true, Some fragment_marker) /\
  categorize_citation (VStr (utf8 "Abs." ++ 32 :: utf8 "3")) = Ok GARBAGE_FRAGMENT.
Proof.
  assert (Hm : utf8 "Abs." ∈ fragment_markers) by (by left).
  assert (Hs : isspace 32 = true) by reflexivity.
  destruct (fragment_marker_flagged (utf8 "Abs.") 32 (utf8 "3") Hm Hs) as [H1 H2].
  split; [exact H1|]. apply H2; reflexivity.
Defined.

(** C8 at a failing input: "14 décembre 1990" holds a month name and no
    article marker, and the garbage filter lets it pass, while
    [categorize_citation] labels it [GARBAGE_DATE]. *)
Lemma accented_month_not_flagged_decembre :
  (is_garbage_citation (VStr (utf8 "14 décembre 1990"))).2 ≠ Some date_reference /\
  is_garbage_citation (VStr (utf8 "14 décembre 1990")) = (false, None) /\
  has_article (utf8 "14 décembre 1990") = false /\
  categorize_citation (VStr (utf8 "14 décembre 1990")) = Ok GARBAGE_DATE.
Proof.
  split.
  - apply (accented_month_not_flagged (utf8 "14 décembre 1990"));
      vm_compute; reflexivity.
  - by vm_compute.
Defined.

(** * Further properties *)

Section FurtherProperties.
Context {U : Unicode}.

(** ** The matcher succeeds only along [run] *)

Lemma m_char_sound (p : char -> bool) st k res :
  m_char p st k = Some res -> exists st', run_char p st st' /\ k st' = Some res.
Proof.
  unfold m_char. destruct st as [prev rest caps]; simpl.
  destruct rest as [|c tl]; [done|]. destruct (p c) eqn:Hp; [|done].
  intros H. exists (step_char (MState prev (c :: tl) caps) c tl). split; [|done].
  exists c. by simpl.
Qed.

Lemma m_lit_sound (s : str) st k res :
  m_lit s st k = Some res -> exists st', run_lit s st st' /\ k st' = Some res.
Proof.
  revert st. induction s as [|a s IH]; intros st; simpl.
  - intros H. by exists st.
  - intros H. apply m_char_sound in H as (mid & Hc & H).
    apply IH in H as (st' & Hl & H). exists st'. split; [|done]. by exists mid.
Qed.

Lemma m_star_sound (ma : mstate -> (mstate -> option mstate) -> option mstate)
    (R : mstate -> mstate -> Prop) :
  (forall st k res, ma st k = Some res -> exists st', R st st' /\ k st' = Some res) ->
  forall fuel st k res,
    m_star ma fuel st k = Some res -> exists st', iter R st st' /\ k st' = Some res.
Proof.
  intros Hma. induction fuel as [|f IH]; intros st k res; simpl.
  - intros H. exists st. split; [constructor|done].
  - destruct (ma st _) as [r|] eqn:Hm.
    + intros [= <-]. apply Hma in Hm as (st1 & HR & Hk).
      destruct (length (m_rest st1) <? length (m_rest st))%nat eqn:Hlt; [|done].
      apply Nat.ltb_lt in Hlt. apply IH in Hk as (st2 & Hit & Hk).
      exists st2. split; [|done]. by apply (iter_more R st st1 st2).
    + intros H. exists st. split; [constructor|done].
Qed.

(** The matcher succeeds only along [run]. *)
Lemma m_sound (r : regex) st k res :
  m r st k = Some res -> exists st', run r st st' /\ k st' = Some res.
Proof.
  revert st k res. induction r as [| s | items | | | | | | r1 IH1 r2 IH2 | r1 IH1 r2 IH2 | r1 IH1 | n r1 IH1];
    intros st k res; simpl.
  - intros H. by exists st.
  - apply m_lit_sound.
  - apply m_char_sound.
  - apply m_char_sound.
  - apply m_char_sound.
  - destruct (at_wordb st) eqn:Hb; [|done]. intros H. by exists st.
  - destruct (m_prev st) eqn:Hp; [done|]. intros H. by exists st.
  - destruct (at_eos (m_rest st)) eqn:He; [|done]. intros H. by exists st.
  - intros H. apply IH1 in H as (mid & H1 & H). apply IH2 in H as (st' & H2 & H).
    exists st'. split; [|done]. by exists mid.
  - destruct (m r1 st k) as [r|] eqn:H1.
    + intros [= <-]. apply IH1 in H1 as (st' & H1 & H). exists st'. split; [by left|done].
    + intros H. apply IH2 in H as (st' & H2 & H). exists st'. split; [by right|done].
  - apply m_star_sound. intros st0 k0 res0. apply IH1.
  - intros H. apply IH1 in H as (st1 & H1 & H). eexists. split; [|exact H].
    by exists st1.
Qed.

Lemma match_at_sound (r : regex) prev rest mo :
  match_at r prev rest = Some mo ->
  exists st', run r (MState prev rest []) st' /\
              span mo = (length rest - length (m_rest st'))%nat /\
              groups mo = m_caps st'.
Proof.
  unfold match_at. destruct (m r (MState prev rest []) Some) as [st|] eqn:Hm; [|done].
  intros [= <-]. apply m_sound in Hm as (st' & Hr & [= ->]). by exists st.
Qed.

Lemma run_char_eaten p st st' :
  run_char p st st' -> exists c, eaten st st' [c] /\ p c = true /\ m_caps st' = m_caps st.
Proof. intros (c & Hr & Hp & _ & Hc). by exists c. Qed.

Lemma run_lit_eaten s st st' :
  run_lit s st st' -> eaten st st' s /\ m_caps st' = m_caps st.
Proof.
  revert st. induction s as [|a s IH]; intros st; simpl.
  - by intros ->.
  - intros (mid & (c & Hr & Hp & _ & Hc) & Hl). apply N.eqb_eq in Hp as <-.
    apply IH in Hl as [He Hc']. unfold eaten in *. rewrite Hr, He. split; [done|congruence].
Qed.

Lemma iter_chars_eaten p st st' :
  iter (run_char p) st st' ->
  exists s, eaten st st' s /\ forallb p s = true /\ m_caps st' = m_caps st.
Proof.
  induction 1 as [st|st st1 st2 H1 _ _ IH].
  - by exists [].
  - destruct IH as (s & He & Hs & Hc). destruct H1 as (c & Hr & Hp & _ & Hc1).
    exists (c :: s). unfold eaten in *. rewrite Hr, He. simpl. rewrite Hp, Hs.
    repeat split; congruence.
Qed.

Lemma consumed_eaten st st' s : eaten st st' s -> consumed st st' = s.
Proof.
  unfold eaten, consumed. intros ->. rewrite length_app.
  replace (length s + length (m_rest st') - length (m_rest st'))%nat with (length s) by lia.
  by rewrite take_app_length.
Qed.

Lemma eaten_trans st mid st' s1 s2 :
  eaten st mid s1 -> eaten mid st' s2 -> eaten st st' (s1 ++ s2).
Proof. unfold eaten. intros -> ->. by rewrite app_assoc. Qed.

Lemma iter_eaten (R : mstate -> mstate -> Prop) (P : mstate -> mstate -> Prop) :
  (forall st, P st st) ->
  (forall st mid st', R st mid -> P mid st' -> P st st') ->
  forall st st', iter R st st' -> P st st'.
Proof.
  intros Hrefl Hstep st st'. induction 1 as [st|st st1 st2 H1 _ _ IH]; [apply Hrefl|].
  by apply (Hstep st st1 st2).
Qed.

Lemma run_groupless (r : regex) st st' :
  groupless r = true -> run r st st' ->
  exists s, eaten st st' s /\ m_caps st' = m_caps st.
Proof.
  revert st st'. induction r as [| s | items | | | | | | r1 IH1 r2 IH2 | r1 IH1 r2 IH2 | r1 IH1 | n r1 IH1];
    intros st st' Hg; simpl in *.
  - intros ->. by exists [].
  - intros H. apply run_lit_eaten in H as [? ?]. by exists s.
  - intros H. apply run_char_eaten in H as (c & ? & _ & ?). by exists [c].
  - intros H. apply run_char_eaten in H as (c & ? & _ & ?). by exists [c].
  - intros H. apply run_char_eaten in H as (c & ? & _ & ?). by exists [c].
  - intros [_ ->]. by exists [].
  - intros [_ ->]. by exists [].
  - intros [_ ->]. by exists [].
  - apply andb_true_iff in Hg as [Hg1 Hg2]. intros (mid & H1 & H2).
    apply IH1 in H1 as (s1 & He1 & Hc1); [|done].
    apply IH2 in H2 as (s2 & He2 & Hc2); [|done].
    exists (s1 ++ s2). split; [by apply (eaten_trans st mid st')|congruence].
  - apply andb_true_iff in Hg as [Hg1 Hg2]. intros [H|H]; [by apply IH1|by apply IH2].
  - apply (iter_eaten (run r1) (fun st st' => exists s, eaten st st' s /\ m_caps st' = m_caps st)).
    + intros st0. by exists [].
    + intros st0 mid st1 H1 (s2 & He2 & Hc2).
      apply IH1 in H1 as (s1 & He1 & Hc1); [|done].
      exists (s1 ++ s2). split; [by apply (eaten_trans st0 mid st1)|congruence].
  - done.
Qed.

(** A group around a pattern without groups records what it has consumed. *)
Lemma run_group (n : nat) (r : regex) st st' :
  groupless r = true -> run (Group n r) st st' ->
  exists s st1, run r st st1 /\ eaten st st1 s /\ eaten st st' s /\
               m_caps st' = (n, s) :: m_caps st.
Proof.
  intros Hg (st1 & Hr & ->). destruct (run_groupless r st st1 Hg Hr) as (s & He & Hc).
  exists s, st1. split; [done|]. split; [exact He|]. split; [exact He|]. simpl.
  by rewrite (consumed_eaten st st1 s He), Hc.
Qed.

Lemma eaten_inj st st' (a b : str) : eaten st st' a -> eaten st st' b -> a = b.
Proof. unfold eaten. intros -> H. by apply app_inv_tail in H. Qed.

Lemma run_plus_chars (p : char -> bool) st st' :
  (exists mid, run_char p st mid /\ iter (run_char p) mid st') ->
  exists s, eaten st st' s /\ s <> [] /\ forallb p s = true /\ m_caps st' = m_caps st.
Proof.
  intros (mid & H1 & H2). apply run_char_eaten in H1 as (c & He1 & Hp & Hc1).
  apply iter_chars_eaten in H2 as (s & He2 & Hs & Hc2).
  exists (c :: s). split; [by apply (eaten_trans st mid st' [c] s)|].
  split; [done|]. simpl. rewrite Hp, Hs. split; [done|congruence].
Qed.

Lemma span_eaten prev rest st' s (mo : match_obj) :
  eaten (MState prev rest []) st' s ->
  span mo = (length rest - length (m_rest st'))%nat ->
  take (span mo) rest = s.
Proof.
  unfold eaten; simpl. intros -> ->. rewrite length_app.
  replace (length s + length (m_rest st') - length (m_rest st'))%nat with (length s) by lia.
  by rewrite take_app_length.
Qed.

Lemma letters_app (a b : str) : letters (a ++ b) = letters a ++ letters b.
Proof. unfold letters. apply List.filter_app. Qed.

Lemma letters_spaces (s : str) : forallb isspace s = true -> letters s = [].
Proof.
  induction s as [|c s IH]; [done|]. simpl. intros H.
  apply andb_true_iff in H as [Hc Hs]. rewrite Hc. simpl. by apply IH.
Qed.

Lemma letters_digits (s : str) : forallb isdecimal s = true -> letters s = [].
Proof.
  induction s as [|c s IH]; [done|]. simpl. intros H.
  apply andb_true_iff in H as [Hc Hs]. rewrite Hc. rewrite andb_false_r. simpl. by apply IH.
Qed.

(** A substitution keeps the letters of its subject when each replacement
    keeps the letters of what it replaces. *)
Lemma sub_scan_letters (r : regex) (t : list titem) :
  (forall prev rest mo, match_at r prev rest = Some mo ->
     letters (expand t mo) = letters (take (span mo) rest)) ->
  forall s skip prev, letters (sub_scan r t skip prev s) = letters (drop skip s).
Proof.
  intros Hm. induction s as [|c s IH]; intros skip prev.
  - destruct skip; cbn [sub_scan]; [|by destruct skip].
    destruct (match_at r prev []) as [mo|] eqn:H; [|done].
    rewrite app_nil_r. rewrite (Hm _ _ _ H). by rewrite take_nil.
  - destruct skip as [|k]; cbn [sub_scan drop].
    + destruct (match_at r prev (c :: s)) as [mo|] eqn:H.
      * rewrite letters_app, (Hm _ _ _ H).
        destruct (span mo) as [|k].
        -- change (c :: sub_scan r t 0 (Some c) s) with ([c] ++ sub_scan r t 0 (Some c) s).
           rewrite letters_app, IH. rewrite drop_0. by rewrite <- letters_app.
        -- rewrite IH. rewrite <- letters_app. cbn [take].
           change ((c :: take k s) ++ drop k s) with (c :: (take k s ++ drop k s)).
           by rewrite take_drop.
      * change (c :: sub_scan r t 0 (Some c) s) with ([c] ++ sub_scan r t 0 (Some c) s).
        rewrite letters_app, IH. rewrite drop_0. by rewrite <- letters_app.
    + apply IH.
Qed.

(** ** What [normalize_citation] keeps *)

Lemma group_first (n : nat) (s : str) (caps : list (nat * str)) (mo : match_obj) :
  groups mo = (n, s) :: caps -> group mo n = s.
Proof. unfold group. intros ->. simpl. by rewrite Nat.eqb_refl. Qed.

Lemma group_second (n k : nat) (s x : str) (caps : list (nat * str)) (mo : match_obj) :
  groups mo = (k, x) :: (n, s) :: caps -> k <> n -> group mo n = s.
Proof.
  unfold group. intros -> Hne. simpl.
  destruct (Nat.eqb_spec k n); [done|]. by rewrite Nat.eqb_refl.
Qed.

Lemma group_third (n k j : nat) (s x y : str) (caps : list (nat * str)) (mo : match_obj) :
  groups mo = (k, x) :: (j, y) :: (n, s) :: caps -> k <> n -> j <> n -> group mo n = s.
Proof.
  unfold group. intros -> Hk Hj. simpl.
  destruct (Nat.eqb_spec k n); [done|]. destruct (Nat.eqb_spec j n); [done|].
  by rewrite Nat.eqb_refl.
Qed.

Section Space.
Hypothesis space_is_space : isspace 32 = true.

Lemma space_letters : letters [32] = [].
Proof. apply letters_spaces. simpl. by rewrite space_is_space. Qed.

Lemma letters_dot : letters [46] = [].
Proof. unfold letters. simpl. by rewrite andb_false_r. Qed.

Lemma fix1_letters prev rest mo :
  match_at re_fix1 prev rest = Some mo ->
  letters (expand [TGrp 1; TLit (utf8 " a "); TGrp 2] mo) = letters (take (span mo) rest).
Proof.
  intros H. apply match_at_sound in H as (st' & Hrun & Hspan & Hgroups).
  destruct Hrun as (st1 & H1 & st2 & H2 & st3 & H3 & st4 & H4 & _ & ->).
  apply run_group in H1 as (g1 & ? & ? & ? & He1 & Hc1); [|done].
  apply run_plus_chars in H2 as (ws & He2 & _ & Hws & Hc2).
  apply run_lit_eaten in H3 as [He3 Hc3].
  apply run_group in H4 as (g2 & ? & ? & ? & He4 & Hc4); [|done].
  pose proof (eaten_trans _ _ _ _ _ (eaten_trans _ _ _ _ _ (eaten_trans _ _ _ _ _ He1 He2) He3) He4) as He.
  rewrite (span_eaten _ _ _ _ _ He Hspan).
  rewrite Hc4, Hc3, Hc2, Hc1 in Hgroups. simpl in Hgroups.
  unfold expand. cbn [List.map concat].
  rewrite (group_first _ _ _ _ Hgroups), (group_second 1 2 g1 g2 [] mo Hgroups) by done.
  rewrite app_nil_r, !letters_app, (letters_spaces ws Hws).
  change (utf8 " a ") with ([32] ++ utf8 "a" ++ [32]).
  rewrite !letters_app, space_letters. cbn [app]; rewrite ?app_nil_r, <- ?app_assoc; reflexivity.
Qed.

Lemma fix2_letters prev rest mo :
  match_at re_fix2 prev rest = Some mo ->
  letters (expand [TGrp 1; TLit (utf8 "a "); TGrp 2] mo) = letters (take (span mo) rest).
Proof.
  intros H. apply match_at_sound in H as (st' & Hrun & Hspan & Hgroups).
  destruct Hrun as (st1 & H1 & st2 & H2 & st3 & H3 & _ & ->).
  apply run_group in H1 as (g1 & ? & ? & ? & He1 & Hc1); [|done].
  apply run_lit_eaten in H2 as [He2 Hc2].
  apply run_group in H3 as (g2 & ? & ? & ? & He3 & Hc3); [|done].
  pose proof (eaten_trans _ _ _ _ _ (eaten_trans _ _ _ _ _ He1 He2) He3) as He.
  rewrite (span_eaten _ _ _ _ _ He Hspan).
  rewrite Hc3, Hc2, Hc1 in Hgroups. simpl in Hgroups.
  unfold expand. cbn [List.map concat].
  rewrite (group_first _ _ _ _ Hgroups), (group_second 1 2 g1 g2 [] mo Hgroups) by done.
  rewrite app_nil_r, !letters_app.
  change (utf8 "a ") with (utf8 "a" ++ [32]).
  rewrite !letters_app, space_letters. cbn [app]; rewrite ?app_nil_r, <- ?app_assoc; reflexivity.
Qed.

Lemma fix3_letters prev rest mo :
  match_at re_fix3 prev rest = Some mo ->
  letters (expand [TGrp 1; TLit (utf8 ". "); TGrp 2; TLit (utf8 " "); TGrp 3] mo) =
  letters (take (span mo) rest).
Proof.
  intros H. apply match_at_sound in H as (st' & Hrun & Hspan & Hgroups).
  destruct Hrun as (st0 & [_ ->] & st1 & H1 & st2 & H2 & st3 & H3 & st4 & H4 & _ & ->).
  apply run_group in H1 as (g1 & ? & ? & ? & He1 & Hc1); [|done].
  assert (exists dot, eaten st1 st2 dot /\ letters dot = [] /\ m_caps st2 = m_caps st1)
    as (dot & He2 & Hdot & Hc2).
  { destruct H2 as [H2|H2].
    - apply run_lit_eaten in H2 as [He2 Hc2]. exists (utf8 "."). split; [done|].
      split; [apply letters_dot|done].
    - simpl in H2. subst st2. by exists []. }
  apply run_group in H3 as (g2 & st3' & Hin & He3' & He3 & Hc3); [|done].
  apply run_plus_chars in Hin as (g2' & He3'' & _ & Hg2 & _).
  rewrite (eaten_inj _ _ _ _ He3'' He3') in Hg2.
  apply run_group in H4 as (g3 & ? & ? & ? & He4 & Hc4); [|done].
  pose proof (eaten_trans _ _ _ _ _ (eaten_trans _ _ _ _ _ (eaten_trans _ _ _ _ _ He1 He2) He3) He4) as He.
  rewrite (span_eaten _ _ _ _ _ He Hspan).
  rewrite Hc4, Hc3, Hc2, Hc1 in Hgroups. simpl in Hgroups.
  unfold expand. cbn [List.map concat].
  rewrite (group_first _ _ _ _ Hgroups), (group_second 2 3 g2 g3 _ mo Hgroups) by done.
  rewrite (group_third 1 3 2 g1 g3 g2 [] mo Hgroups) by done.
  rewrite app_nil_r, !letters_app, Hdot, (letters_digits g2 Hg2).
  change (utf8 ". ") with ([46] ++ [32]). change (utf8 " ") with [32].
  rewrite !letters_app, space_letters, letters_dot. cbn [app]; rewrite ?app_nil_r, <- ?app_assoc; reflexivity.
Qed.

Lemma footnote_letters prev rest mo :
  match_at re_footnote prev rest = Some mo ->
  letters (expand [TGrp 1] mo) = letters (take (span mo) rest).
Proof.
  intros H. apply match_at_sound in H as (st' & Hrun & Hspan & Hgroups).
  destruct Hrun as (st1 & H1 & st2 & H2 & _ & ->).
  apply run_group in H1 as (g1 & ? & ? & ? & He1 & Hc1); [|done].
  apply run_plus_chars in H2 as (ds & He2 & _ & Hds & Hc2).
  pose proof (eaten_trans _ _ _ _ _ He1 He2) as He.
  rewrite (span_eaten _ _ _ _ _ He Hspan).
  rewrite Hc2, Hc1 in Hgroups. simpl in Hgroups.
  unfold expand. cbn [List.map concat].
  rewrite (group_first _ _ _ _ Hgroups).
  rewrite app_nil_r, letters_app, (letters_digits ds Hds). cbn [app]; rewrite ?app_nil_r, <- ?app_assoc; reflexivity.
Qed.

(** X1.  [normalize_citation] only inserts and removes spaces, dots and
    decimal digits: the characters of the result that are neither
    whitespace, nor decimal digits, nor a dot are those of the input, in the
    same order. *)
Theorem normalize_keeps_letters (x y : str) (changed digit_only : bool) :
  normalize_citation (VStr x) = (VStr y, changed, digit_only) ->
  letters y = letters x.
Proof.
  destruct x as [|x0 x]; [by intros [= <-]|].
  cbn [normalize_citation]. intros [= <- _ _]. unfold re_sub.
  rewrite (sub_scan_letters _ _ footnote_letters), drop_0.
  rewrite (sub_scan_letters _ _ fix3_letters), drop_0.
  rewrite (sub_scan_letters _ _ fix2_letters), drop_0.
  by rewrite (sub_scan_letters _ _ fix1_letters), drop_0.
Qed.

End Space.

(** ** Where the characters of a normalised citation come from *)

(** A substitution keeps a property of the characters of its subject when
    each replacement has it as soon as what it replaces has it. *)
Lemma sub_scan_forall (P : char -> Prop) (r : regex) (t : list titem) :
  (forall prev rest mo, match_at r prev rest = Some mo ->
     Forall P (take (span mo) rest) -> Forall P (expand t mo)) ->
  forall s skip prev, Forall P s -> Forall P (sub_scan r t skip prev s).
Proof.
  intros Hm. induction s as [|c s IH]; intros skip prev Hs.
  - destruct skip; cbn [sub_scan]; [|constructor].
    destruct (match_at r prev []) as [mo|] eqn:H; [|constructor].
    rewrite app_nil_r. apply (Hm _ _ _ H). rewrite take_nil. constructor.
  - apply Forall_cons in Hs as [Hc Hs]. destruct skip as [|k]; cbn [sub_scan].
    + destruct (match_at r prev (c :: s)) as [mo|] eqn:H.
      * apply Forall_app. split.
        -- apply (Hm _ _ _ H). apply Forall_take. by constructor.
        -- destruct (span mo); [constructor; [done|]|]; by apply IH.
      * constructor; [done|]. by apply IH.
    + by apply IH.
Qed.

Section Replacements.
Variable P : char -> Prop.
Hypothesis P_space : P 32.
Hypothesis P_dot : P 46.
Hypothesis P_a : P 97.

Lemma fix1_forall prev rest mo :
  match_at re_fix1 prev rest = Some mo ->
  Forall P (take (span mo) rest) ->
  Forall P (expand [TGrp 1; TLit (utf8 " a "); TGrp 2] mo).
Proof.
  intros H. apply match_at_sound in H as (st' & Hrun & Hspan & Hgroups).
  destruct Hrun as (st1 & H1 & st2 & H2 & st3 & H3 & st4 & H4 & _ & ->).
  apply run_group in H1 as (g1 & ? & ? & ? & He1 & Hc1); [|done].
  apply run_plus_chars in H2 as (ws & He2 & _ & Hws & Hc2).
  apply run_lit_eaten in H3 as [He3 Hc3].
  apply run_group in H4 as (g2 & ? & ? & ? & He4 & Hc4); [|done].
  pose proof (eaten_trans _ _ _ _ _ (eaten_trans _ _ _ _ _ (eaten_trans _ _ _ _ _ He1 He2) He3) He4) as He.
  rewrite (span_eaten _ _ _ _ _ He Hspan).
  rewrite Hc4, Hc3, Hc2, Hc1 in Hgroups. simpl in Hgroups.
  unfold expand. cbn [List.map concat].
  rewrite (group_first _ _ _ _ Hgroups), (group_second 1 2 g1 g2 [] mo Hgroups) by done.
  rewrite !Forall_app. intros [[[Hg1 _] _] Hg2].
  repeat split; try done. by repeat constructor.
Qed.

Lemma fix2_forall prev rest mo :
  match_at re_fix2 prev rest = Some mo ->
  Forall P (take (span mo) rest) ->
  Forall P (expand [TGrp 1; TLit (utf8 "a "); TGrp 2] mo).
Proof.
  intros H. apply match_at_sound in H as (st' & Hrun & Hspan & Hgroups).
  destruct Hrun as (st1 & H1 & st2 & H2 & st3 & H3 & _ & ->).
  apply run_group in H1 as (g1 & ? & ? & ? & He1 & Hc1); [|done].
  apply run_lit_eaten in H2 as [He2 Hc2].
  apply run_group in H3 as (g2 & ? & ? & ? & He3 & Hc3); [|done].
  pose proof (eaten_trans _ _ _ _ _ (eaten_trans _ _ _ _ _ He1 He2) He3) as He.
  rewrite (span_eaten _ _ _ _ _ He Hspan).
  rewrite Hc3, Hc2, Hc1 in Hgroups. simpl in Hgroups.
  unfold expand. cbn [List.map concat].
  rewrite (group_first _ _ _ _ Hgroups), (group_second 1 2 g1 g2 [] mo Hgroups) by done.
  rewrite !Forall_app. intros [[Hg1 _] Hg2].
  repeat split; try done. by repeat constructor.
Qed.

Lemma fix3_forall prev rest mo :
  match_at re_fix3 prev rest = Some mo ->
  Forall P (take (span mo) rest) ->
  Forall P (expand [TGrp 1; TLit (utf8 ". "); TGrp 2; TLit (utf8 " "); TGrp 3] mo).
Proof.
  intros H. apply match_at_sound in H as (st' & Hrun & Hspan & Hgroups).
  destruct Hrun as (st0 & [_ ->] & st1 & H1 & st2 & H2 & st3 & H3 & st4 & H4 & _ & ->).
  apply run_group in H1 as (g1 & ? & ? & ? & He1 & Hc1); [|done].
  assert (exists dot, eaten st1 st2 dot /\ m_caps st2 = m_caps st1) as (dot & He2 & Hc2).
  { destruct H2 as [H2|H2].
    - apply run_lit_eaten in H2 as [He2 Hc2]. by exists (utf8 ".").
    - simpl in H2. subst st2. by exists []. }
  apply run_group in H3 as (g2 & ? & ? & ? & He3 & Hc3); [|done].
  apply run_group in H4 as (g3 & ? & ? & ? & He4 & Hc4); [|done].
  pose proof (eaten_trans _ _ _ _ _ (eaten_trans _ _ _ _ _ (eaten_trans _ _ _ _ _ He1 He2) He3) He4) as He.
  rewrite (span_eaten _ _ _ _ _ He Hspan).
  rewrite Hc4, Hc3, Hc2, Hc1 in Hgroups. simpl in Hgroups.
  unfold expand. cbn [List.map concat].
  rewrite (group_first _ _ _ _ Hgroups), (group_second 2 3 g2 g3 _ mo Hgroups) by done.
  rewrite (group_third 1 3 2 g1 g3 g2 [] mo Hgroups) by done.
  rewrite !Forall_app. intros [[[Hg1 _] Hg2] Hg3].
  repeat split; try done; by repeat constructor.
Qed.

Lemma footnote_forall prev rest mo :
  match_at re_footnote prev rest = Some mo ->
  Forall P (take (span mo) rest) ->
  Forall P (expand [TGrp 1] mo).
Proof.
  intros H. apply match_at_sound in H as (st' & Hrun & Hspan & Hgroups).
  destruct Hrun as (st1 & H1 & st2 & H2 & _ & ->).
  apply run_group in H1 as (g1 & ? & ? & ? & He1 & Hc1); [|done].
  apply run_plus_chars in H2 as (ds & He2 & _ & Hds & Hc2).
  pose proof (eaten_trans _ _ _ _ _ He1 He2) as He.
  rewrite (span_eaten _ _ _ _ _ He Hspan).
  rewrite Hc2, Hc1 in Hgroups. simpl in Hgroups.
  unfold expand. cbn [List.map concat].
  rewrite (group_first _ _ _ _ Hgroups).
  rewrite !Forall_app. intros [Hg1 _]. by split.
Qed.

(** Every character of a normalised citation has a property that the
    characters of the citation, the space, the dot and the letter a have. *)
Lemma normalize_forall (x y : str) (changed digit_only : bool) :
  normalize_citation (VStr x) = (VStr y, changed, digit_only) ->
  Forall P x -> Forall P y.
Proof.
  destruct x as [|x0 x]; [by intros [= <-]|].
  cbn [normalize_citation]. intros [= <- _ _] Hx. unfold re_sub.
  apply (sub_scan_forall P _ _ footnote_forall).
  apply (sub_scan_forall P _ _ fix3_forall).
  apply (sub_scan_forall P _ _ fix2_forall).
  by apply (sub_scan_forall P _ _ fix1_forall).
Qed.

End Replacements.

Lemma encodable_forall (s : str) :
  encodable s = true <->
  Forall (fun c => negb ((55296 <=? c) && (c <=? 57343)) = true) s.
Proof.
  unfold encodable. rewrite forallb_forall, Forall_forall.
  split; intros H c Hc; apply H; by apply list_elem_of_In.
Qed.

(** Normalisation brings no surrogate into a citation. *)
Lemma normalize_keeps_encodable (x y : str) (changed digit_only : bool) :
  normalize_citation (VStr x) = (VStr y, changed, digit_only) ->
  encodable x = true -> encodable y = true.
Proof.
  intros Hn. rewrite !encodable_forall.
  by apply (normalize_forall _ eq_refl eq_refl eq_refl x y changed digit_only).
Qed.

(** ** The shape of what the rules accept *)

Lemma search_from_sound (r : regex) prev s mo :
  search_from r prev s = Some mo ->
  exists pre rest prev', s = pre ++ rest /\ match_at r prev' rest = Some mo.
Proof.
  revert prev. induction s as [|c s IH]; intros prev; cbn [search_from].
  - destruct (match_at r prev []) eqn:H; [|done]. intros [= <-]. by exists [], [], prev.
  - destruct (match_at r prev (c :: s)) eqn:H.
    + intros [= <-]. by exists [], (c :: s), prev.
    + intros Hs. apply IH in Hs as (pre & rest & prev' & -> & Hm).
      by exists (c :: pre), rest, prev'.
Qed.

Lemma iter_dotted st st' :
  iter (run (Seq (Lit (utf8 ".")) (Plus Digit))) st st' ->
  exists s, eaten st st' s /\ (s = [] \/ exists s', s = 46 :: s' /\ dotted_digits s').
Proof.
  induction 1 as [st|st st1 st2 H1 _ _ IH].
  - exists []. split; [done|by left].
  - destruct IH as (s2 & He2 & Hs2).
    destruct H1 as (mid & Hl & Hd).
    apply run_lit_eaten in Hl as [Hel _].
    apply run_plus_chars in Hd as (ds & Hed & Hne & Hds & _).
    exists (utf8 "." ++ ds ++ s2). split.
    + apply (eaten_trans st mid st2); [done|]. by apply (eaten_trans mid st1 st2).
    + right. exists (ds ++ s2). split; [done|].
      destruct Hs2 as [->|(s' & -> & Hs')].
      * rewrite app_nil_r. by constructor.
      * by constructor.
Qed.

Lemma rs_number_format (citation_lower law : str) :
  rs_number citation_lower = Some law ->
  exists s, law = utf8 "RS " ++ s /\ dotted_digits s.
Proof.
  unfold rs_number. destruct (_ || _); [|done].
  destruct (re_search re_rs citation_lower) as [mo|] eqn:Hs; [|done].
  intros [= <-]. exists (group mo 1). split; [done|].
  apply search_from_sound in Hs as (pre & rest & prev' & _ & Hm).
  apply match_at_sound in Hm as (st' & Hrun & _ & Hgroups).
  destruct Hrun as (st0 & _ & st1 & _ & st2 & _ & st3 & H3 & _ & ->).
  apply run_group in H3 as (g & st3' & Hin & He & _ & Hc); [|done].
  rewrite Hc in Hgroups. rewrite (group_first _ _ _ _ Hgroups).
  destruct Hin as (mid & Hd & Hit).
  apply run_plus_chars in Hd as (ds & Hed & Hne & Hds & _).
  apply iter_dotted in Hit as (s2 & He2 & Hs2).
  rewrite (eaten_inj _ _ _ _ He (eaten_trans _ _ _ _ _ Hed He2)).
  destruct Hs2 as [->|(s' & -> & Hs')].
  - rewrite app_nil_r. by constructor.
  - by constructor.
Qed.

Lemma known_abbrev_format (abbrevs : list str) (citation_lower law : str) :
  known_abbrev abbrevs citation_lower = Some law ->
  exists a, a ∈ abbrevs /\ law = upper a /\ has_word a citation_lower = true.
Proof.
  unfold known_abbrev.
  destruct (find _ abbrevs) as [a|] eqn:Hf; [|done]. intros [= <-].
  apply find_some in Hf as [Hin Ha]. exists a. split; [by apply list_elem_of_In|done].
Qed.

Lemma law_of_citation_format (abbrevs : list str) (citation_lower law : str) :
  law_of_citation abbrevs citation_lower = Some law ->
  (exists s, law = utf8 "RS " ++ s /\ dotted_digits s) \/
  (exists a, a ∈ abbrevs /\ law = upper a /\ has_word a citation_lower = true).
Proof.
  unfold law_of_citation. destruct (rs_number citation_lower) as [l|] eqn:Hrs.
  - intros [= <-]. left. by apply (rs_number_format citation_lower).
  - intros H. right. by apply known_abbrev_format.
Qed.

(** X2.  Every law reference the first loop of the enricher collects comes
    from a citation of the record and is either "RS " followed by dotted
    digits or the upper case of an abbreviation of its list that the
    lowercased citation holds as a whole word. *)
Theorem collected_law_format (citations : list str) (laws : list str) (law : str) :
  all_laws (map VStr citations) = Ok laws ->
  law ∈ laws ->
  exists c, c ∈ citations /\
    ((exists s, law = utf8 "RS " ++ s /\ dotted_digits s) \/
     (exists a, a ∈ enrich_law_abbrevs /\ law = upper a /\ has_word a (lower c) = true)).
Proof.
  rewrite all_laws_strings. intros [= <-]. unfold laws_of. rewrite list_elem_of_omap.
  intros (c & Hc & Hlaw). exists c. split; [done|]. by apply law_of_citation_format.
Qed.

(** The fragment rule fires only on a marker followed by white space. *)
Lemma re_fragment_shape (c : str) mo :
  re_match re_fragment c = Some mo ->
  exists marker ws rest,
    marker ∈ fragment_markers /\ isspace ws = true /\ c = marker ++ ws :: rest.
Proof.
  unfold re_match. intros H. apply match_at_sound in H as (st' & Hrun & _ & _).
  destruct Hrun as (st0 & [_ ->] & st1 & H1 & Hs).
  apply run_char_eaten in Hs as (ws & Hes & Hws & _).
  destruct H1 as (st1' & Halt & ->).
  assert (exists marker, marker ∈ fragment_markers /\
            eaten (MState None c []) st1' marker) as (marker & Hin & He).
  { unfold fragment_markers.
    destruct Halt as [H|[H|[H|[H|[H|[H|H]]]]]];
      apply run_lit_eaten in H as [He _]; eexists; (split; [|exact He]);
      repeat first [by left | right]. }
  exists marker, ws, (m_rest st'). split; [done|]. split; [done|].
  unfold eaten in *. simpl in *. by rewrite He, Hes.
Qed.

(** X3.  The garbage filter answers 'fragment_marker' only for a citation
    that begins with one of the seven markers followed by a whitespace
    character. *)
Theorem fragment_marker_only_after_marker (c : str) :
  (is_garbage_citation (VStr c)).2 = Some fragment_marker ->
  exists marker ws rest,
    marker ∈ fragment_markers /\ isspace ws = true /\ c = marker ++ ws :: rest.
Proof.
  destruct c as [|c0 c]; [done|]. unfold is_garbage_citation.
  destruct (re_match re_fragment (c0 :: c)) as [mo|] eqn:Hm.
  - intros _. by apply (re_fragment_shape _ mo).
  - rewrite bool_decide_eq_false_2 by (by intros [? ?]).
    repeat (match goal with |- context [if ?b then _ else _] => destruct b end; try done).
Qed.

Lemma re_page_shape (c : str) mo :
  re_match re_page c = Some mo ->
  exists ds ws ending tail,
    c = ds ++ ws ++ ending ++ tail /\
    ds <> [] /\ forallb isdecimal ds = true /\ forallb isspace ws = true /\
    ending ∈ page_endings /\ at_eos tail = true.
Proof.
  unfold re_match. intros H. apply match_at_sound in H as (st' & Hrun & _ & _).
  destruct Hrun as (st0 & [_ ->] & st1 & H1 & st2 & H2 & st3 & H3 & Heos & ->).
  apply run_plus_chars in H1 as (ds & He1 & Hne & Hds & _).
  apply iter_chars_eaten in H2 as (ws & He2 & Hws & _).
  destruct H3 as (st3' & (m1 & Hf & m2 & Hff & Hdot) & ->).
  apply run_lit_eaten in Hf as [Hef _].
  assert (exists ending, ending ∈ page_endings /\ eaten st2 st3' ending) as (ending & Hin & He3).
  { unfold page_endings.
    destruct Hff as [Hff|Hff]; destruct Hdot as [Hdot|Hdot];
      try (apply run_lit_eaten in Hff as [Heff _]);
      try (apply run_lit_eaten in Hdot as [Hedot _]);
      simpl in *; subst.
    - exists (utf8 "ff."). split; [repeat first [by left | right]|].
      apply (eaten_trans _ _ _ _ _ Hef). by apply (eaten_trans _ _ _ _ _ Heff).
    - exists (utf8 "ff"). split; [repeat first [by left | right]|].
      by apply (eaten_trans _ _ _ _ _ Hef).
    - exists (utf8 "f."). split; [repeat first [by left | right]|].
      by apply (eaten_trans _ _ _ _ _ Hef).
    - exists (utf8 "f"). split; [repeat first [by left | right]|]. done. }
  exists ds, ws, ending, (m_rest st3'). repeat split; try done.
  unfold eaten in *. simpl in *. by rewrite He1, He2, He3.
Qed.

(** X4.  The garbage filter answers 'page_reference' only for a citation
    made of decimal digits, optional whitespace and one of the endings f,
    f., ff, ff., with at most one newline after it. *)
Theorem page_reference_shape (c : str) :
  (is_garbage_citation (VStr c)).2 = Some page_reference ->
  exists ds ws ending tail,
    c = ds ++ ws ++ ending ++ tail /\
    ds <> [] /\ forallb isdecimal ds = true /\ forallb isspace ws = true /\
    ending ∈ page_endings /\ at_eos tail = true.
Proof.
  destruct c as [|c0 c]; [done|]. unfold is_garbage_citation.
  destruct (bool_decide (is_Some (re_match re_fragment (c0 :: c)))); [done|].
  destruct (has_month _ && _); [done|].
  destruct (re_match re_page (c0 :: c)) as [mo|] eqn:Hm.
  - intros _. by apply (re_page_shape _ mo).
  - rewrite bool_decide_eq_false_2 by (by intros [? ?]).
    repeat (match goal with |- context [if ?b then _ else _] => destruct b end; try done).
Qed.

(** ** The extractor, the enricher and the loop of [process_csv] *)

(** *** The extractor *)

(** X5.  [extract_law_from_citations] returns at the first citation in which
    a law is found and never looks at the citations after it: with no law in
    the citations before, it returns None at the end of the list, the law of
    the next citation whatever follows, and raises AttributeError when the
    next element is not a string. *)
Theorem extract_returns_first_law (pre : list str) (rest : list value) :
  (forall c, c ∈ pre -> law_of_citation swiss_law_abbrevs (lower c) = None) ->
  extract_law_from_citations (map VStr pre) = Ok None /\
  (forall c law,
     law_of_citation swiss_law_abbrevs (lower c) = Some law ->
     extract_law_from_citations (map VStr pre ++ VStr c :: rest) = Ok (Some law)) /\
  (forall v, is_str v = false ->
     extract_law_from_citations (map VStr pre ++ v :: rest) = Raise AttributeError).
Proof.
  intros Hpre. induction pre as [|p pre IH].
  - repeat split.
    + intros c law H. simpl. by rewrite H.
    + intros v Hv. simpl. by rewrite as_str_non_string.
  - assert (Hp : law_of_citation swiss_law_abbrevs (lower p) = None) by (apply Hpre; by left).
    destruct IH as (IH1 & IH2 & IH3); [intros c Hc; apply Hpre; by right|].
    repeat split.
    + simpl. by rewrite Hp.
    + intros c law H. simpl. rewrite Hp. by apply IH2.
    + intros v Hv. simpl. rewrite Hp. by apply IH3.
Qed.

(** *** The enricher on arbitrary values *)

Lemma all_strings (l : list value) :
  forallb is_str l = true -> exists ss, l = map VStr ss.
Proof.
  induction l as [|v l IH]; simpl.
  - by exists [].
  - intros H. apply andb_true_iff in H as [Hv Hl]. destruct (IH Hl) as [ss ->].
    destruct v; try done. by exists (s :: ss).
Qed.

Lemma all_laws_raises (l : list value) (acc : list str) :
  forallb is_str l = false ->
  foldM (fun all_laws citation =>
           citation_str <- as_str citation ;'
           match law_of_citation enrich_law_abbrevs (lower citation_str) with
           | Some law => Ok (all_laws ++ [law])
           | None => Ok all_laws
           end) acc l = Raise AttributeError.
Proof.
  revert acc. induction l as [|v l IH]; intros acc; simpl; [done|].
  destruct v; simpl; try done.
  intros H. destruct (law_of_citation _ _); simpl; by apply IH.
Qed.

(** X6.  [enrich_article_only_citations] returns exactly when every element
    of the list is a string; one element that is not a string, at any
    position, makes it raise AttributeError, because the first loop reads
    every citation before any decision is taken. *)
Theorem enrich_raises_on_any_non_string (citations : list value) :
  (forallb is_str citations = true ->
   exists out n, enrich_article_only_citations citations = Ok (out, n)) /\
  (forallb is_str citations = false ->
   enrich_article_only_citations citations = Raise AttributeError).
Proof.
  split.
  - intros H. destruct (all_strings _ H) as [ss ->]. rewrite enrich_strings.
    destruct (unique_laws (laws_of ss)) as [|law [|? ?]]; by eexists _, _.
  - intros H. unfold enrich_article_only_citations, all_laws.
    by rewrite all_laws_raises.
Qed.

Lemma mapM_length {A B} (f : A -> result B) (l : list A) (out : list B) :
  mapM f l = Ok out -> length out = length l.
Proof.
  revert out. induction l as [|x l IH]; intros out; simpl.
  - by intros [= <-].
  - destruct (f x); [|done]. simpl. destruct (mapM f l) as [ys|]; [|done]. simpl.
    intros [= <-]. simpl. by rewrite (IH ys).
Qed.

Lemma enrich_length (citations out : list value) (n : nat) :
  enrich_article_only_citations citations = Ok (out, n) ->
  length out = length citations /\ (n <= length citations)%nat.
Proof.
  unfold enrich_article_only_citations.
  destruct (all_laws citations) as [laws|]; [|done]. simpl.
  destruct (unique_laws laws) as [|law [|? ?]]; try (intros [= <- <-]; split; [done|lia]).
  destruct (mapM (enrich_one law) citations) as [res|] eqn:Hm; [|done]. simpl.
  intros [= <- <-]. apply mapM_length in Hm. rewrite length_map.
  split; [done|]. rewrite <- Hm. apply List.filter_length_le.
Qed.

(** *** The counters of the loop *)

Lemma process_citation_counters (r : row) (ls ls' : loop_state) (citation : value) :
  process_citation r ls citation = Ok ls' ->
  exists k d g ch f : nat,
    (k + d + g = 1)%nat /\ (ch <= k)%nat /\ (f <= k)%nat /\
    length (normalized_articles ls') = (length (normalized_articles ls) + k)%nat /\
    length (failures ls') = (length (failures ls) + f)%nat /\
    citations_processed (counters ls') = S (citations_processed (counters ls)) /\
    citations_kept (counters ls') = (citations_kept (counters ls) + k)%nat /\
    citations_removed_digit_only (counters ls') =
      (citations_removed_digit_only (counters ls) + d)%nat /\
    citations_removed_garbage (counters ls') =
      (citations_removed_garbage (counters ls) + g)%nat /\
    citations_changed (counters ls') = (citations_changed (counters ls) + ch)%nat /\
    citations_enriched (counters ls') = citations_enriched (counters ls).
Proof.
  unfold process_citation.
  destruct (normalize_citation citation) as [[v ch] d].
  destruct d.
  { intros [= <-]. exists O, 1%nat, O, O, O. simpl. repeat split; lia. }
  destruct (is_garbage_citation v) as [g why].
  destruct g.
  { intros [= <-]. exists O, O, 1%nat, O, O. simpl. repeat split; lia. }
  destruct (if ch then write [citation; v] else Ok ()) as [[]|?]; [|done]. cbn [bind].
  destruct (as_str v) as [n|]; [|done]. cbn [bind].
  destruct (is_short_fragment n); [destruct (row_uuid r); [|done]|];
    intros [= <-]; [exists 1%nat, O, O, (if ch then 1 else 0)%nat, 1%nat
                   |exists 1%nat, O, O, (if ch then 1 else 0)%nat, O];
    simpl; rewrite ?length_app; simpl; destruct ch; repeat split; lia.
Qed.

Lemma process_loop_counters (r : row) (articles : list value) (ls ls' : loop_state) :
  foldM (process_citation r) ls articles = Ok ls' ->
  exists k d g ch f : nat,
    (k + d + g = length articles)%nat /\ (ch <= k)%nat /\ (f <= k)%nat /\
    length (normalized_articles ls') = (length (normalized_articles ls) + k)%nat /\
    length (failures ls') = (length (failures ls) + f)%nat /\
    citations_processed (counters ls') =
      (citations_processed (counters ls) + length articles)%nat /\
    citations_kept (counters ls') = (citations_kept (counters ls) + k)%nat /\
    citations_removed_digit_only (counters ls') =
      (citations_removed_digit_only (counters ls) + d)%nat /\
    citations_removed_garbage (counters ls') =
      (citations_removed_garbage (counters ls) + g)%nat /\
    citations_changed (counters ls') = (citations_changed (counters ls) + ch)%nat /\
    citations_enriched (counters ls') = citations_enriched (counters ls).
Proof.
  revert ls. induction articles as [|c cs IH]; intros ls; simpl.
  - intros [= <-]. exists O, O, O, O, O. repeat split; lia.
  - destruct (process_citation r ls c) as [ls1|] eqn:H1; [|done]. simpl. intros H2.
    apply process_citation_counters in H1
      as (k1 & d1 & g1 & ch1 & f1 & ? & ? & ? & ? & ? & ? & ? & ? & ? & ? & ?).
    apply IH in H2
      as (k2 & d2 & g2 & ch2 & f2 & ? & ? & ? & ? & ? & ? & ? & ? & ? & ? & ?).
    exists (k1 + k2)%nat, (d1 + d2)%nat, (g1 + g2)%nat, (ch1 + ch2)%nat, (f1 + f2)%nat.
    repeat split; lia.
Qed.

(** X7.  The counters of [process_csv] over the citations of one row: every
    citation is counted as processed and as exactly one of kept, removed as
    digit-only, removed as garbage; the list written has one entry per kept
    citation; changed and enriched grow by at most the number kept; and at
    most one failure is recorded per kept citation. *)
Theorem row_counters_add_up (r : row) (articles out : list value)
    (s s' : stats) (fs : list failure) :
  process_articles r articles s = Ok (out, s', fs) ->
  citations_processed s' = (citations_processed s + length articles)%nat /\
  citations_kept s' = (citations_kept s + length out)%nat /\
  (citations_kept s' + citations_removed_digit_only s' + citations_removed_garbage s'
   = citations_kept s + citations_removed_digit_only s + citations_removed_garbage s
     + length articles)%nat /\
  (citations_changed s <= citations_changed s' <= citations_changed s + length out)%nat /\
  (citations_enriched s <= citations_enriched s' <= citations_enriched s + length out)%nat /\
  (length fs <= length out <= length articles)%nat.
Proof.
  unfold process_articles.
  destruct (foldM (process_citation r) (LoopState [] s []) articles) as [ls|] eqn:Hl; [|done].
  cbn [bind].
  destruct (enrich_article_only_citations (normalized_articles ls)) as [[enriched n]|] eqn:He;
    [|done].
  cbn [bind]. intros [= <- <- <-].
  apply process_loop_counters in Hl
    as (k & d & g & ch & f & ? & ? & ? & Hlen & Hf & ? & ? & ? & ? & ? & ?).
  apply enrich_length in He as [Hout Hn]. simpl in *.
  repeat split; lia.
Qed.

(** *** What the loop keeps *)

Lemma normalize_digit_flag (citation v : value) (ch d : bool) :
  normalize_citation citation = (v, ch, d) ->
  d = match v with VStr n => digit_only_text n | _ => false end.
Proof.
  destruct citation as [s| | | | |]; try (by intros [= <- _ <-]).
  destruct s as [|c s]; [by intros [= <- _ <-]|].
  cbn [normalize_citation]. by intros [= <- _ <-].
Qed.

Lemma process_citation_keeps_checked (r : row) (ls ls' : loop_state) (citation : value) :
  process_citation r ls citation = Ok ls' ->
  Forall (fun v => exists n, v = VStr n /\ digit_only_text n = false /\
                             (is_garbage_citation v).1 = false)
         (normalized_articles ls) ->
  Forall (fun v => exists n, v = VStr n /\ digit_only_text n = false /\
                             (is_garbage_citation v).1 = false)
         (normalized_articles ls').
Proof.
  unfold process_citation.
  destruct (normalize_citation citation) as [[v ch] d] eqn:Hn.
  apply normalize_digit_flag in Hn.
  destruct d; [by intros [= <-]|].
  destruct (is_garbage_citation v) as [g why] eqn:Hg.
  destruct g; [by intros [= <-]|].
  destruct (if ch then write [citation; v] else Ok ()) as [[]|?]; [|done]. cbn [bind].
  destruct v as [n| | | | |]; try done. cbn [as_str bind].
  assert (Hv : exists n0, VStr n = VStr n0 /\ digit_only_text n0 = false /\
                          (is_garbage_citation (VStr n)).1 = false).
  { exists n. by rewrite Hg. }
  destruct (is_short_fragment n); [destruct (row_uuid r); [|done]|];
    intros [= <-] Hall; cbn [normalized_articles];
    apply Forall_app; split; try done; by constructor.
Qed.

(** X8.  Every citation the loop of [process_csv] hands to the enricher is a
    string that is not digit-only and that [is_garbage_citation] does not
    flag. *)
Theorem kept_citations_are_checked (r : row) (articles : list value)
    (s : stats) (ls : loop_state) :
  foldM (process_citation r) (LoopState [] s []) articles = Ok ls ->
  Forall (fun v => exists n, v = VStr n /\ digit_only_text n = false /\
                             (is_garbage_citation v).1 = false)
         (normalized_articles ls).
Proof.
  assert (forall ls0 ls1,
            foldM (process_citation r) ls0 articles = Ok ls1 ->
            Forall (fun v => exists n, v = VStr n /\ digit_only_text n = false /\
                                       (is_garbage_citation v).1 = false)
                   (normalized_articles ls0) ->
            Forall (fun v => exists n, v = VStr n /\ digit_only_text n = false /\
                                       (is_garbage_citation v).1 = false)
                   (normalized_articles ls1)) as H.
  { induction articles as [|c cs IH]; intros ls0 ls1; simpl.
    - by intros [= <-].
    - destruct (process_citation r ls0 c) as [lsm|] eqn:H1; [|done]. simpl.
      intros H2 Hall. apply (IH lsm ls1 H2).
      by apply (process_citation_keeps_checked r ls0 lsm c). }
  intros Hl. apply (H _ _ Hl). constructor.
Qed.

(** *** A table without a [uuid] column *)

(** The write of the transformation log goes through for a citation
    without a surrogate. *)
Lemma log_write_encodable (c c' : str) (ch d : bool) :
  normalize_citation (VStr c) = (VStr c', ch, d) ->
  encodable c = true ->
  (if ch then write [VStr c; VStr c'] else Ok ()) = Ok ().
Proof.
  intros Hn Hc. destruct ch; [|done]. unfold write. cbn [forallb encodable_value].
  by rewrite Hc, (normalize_keeps_encodable c c' _ _ Hn Hc).
Qed.

Lemma process_citation_no_uuid (pn : option str) (a : option value)
    (ls : loop_state) (c : str) :
  (logged_short c = true -> encodable c = true ->
   process_citation (Row None pn a) ls (VStr c) = Raise KeyError) /\
  (logged_short c = false -> encodable c = true ->
   exists ls', process_citation (Row None pn a) ls (VStr c) = Ok ls') /\
  (logged_short c = false ->
   forall u,
     process_citation (Row None pn a) ls (VStr c) =
     process_citation (Row (Some u) pn a) ls (VStr c) /\
     forall ls', process_citation (Row None pn a) ls (VStr c) = Ok ls' ->
                 failures ls' = failures ls /\
                 exists kept,
                   normalized_articles ls' = normalized_articles ls ++ map VStr kept).
Proof.
  unfold logged_short, process_citation.
  destruct (normalize_string c) as (c' & ch & d & Hn & _). rewrite Hn.
  pose proof (log_write_encodable c c' ch d Hn) as Hw.
  destruct d; cbn [negb andb].
  { split; [done|]. split; [by eexists|]. intros _ u. split; [done|].
    intros ls' [= <-]. split; [done|]. exists []. simpl. by rewrite app_nil_r. }
  destruct (is_garbage_citation (VStr c')) as [g why].
  destruct g; cbn [negb andb fst].
  { split; [done|]. split; [by eexists|]. intros _ u. split; [done|].
    intros ls' [= <-]. split; [done|]. exists []. simpl. by rewrite app_nil_r. }
  destruct (is_short_fragment c') eqn:Hs.
  - split; [|by split]. intros _ Hc. rewrite (Hw Hc). cbn [as_str bind]. by rewrite Hs.
  - split; [done|]. split.
    + intros _ Hc. rewrite (Hw Hc). cbn [as_str bind]. rewrite Hs. by eexists.
    + intros _ u. split.
      * destruct (if ch then write [VStr c; VStr c'] else Ok ()) as [[]|?]; [|done].
        cbn [as_str bind]. by rewrite Hs.
      * intros ls'.
        destruct (if ch then write [VStr c; VStr c'] else Ok ()) as [[]|?]; [|done].
        cbn [as_str bind]. rewrite Hs. intros [= <-]. split; [done|]. by exists [c'].
Qed.

Lemma process_loop_no_uuid_raises (pn : option str) (a : option value)
    (articles : list str) (ls : loop_state) :
  forallb encodable articles = true ->
  existsb logged_short articles = true ->
  foldM (process_citation (Row None pn a)) ls (map VStr articles) = Raise KeyError.
Proof.
  revert ls. induction articles as [|c cs IH]; intros ls; [done|].
  cbn [forallb existsb map foldM]. intros [Hc Hcs]%andb_true_iff Hshort.
  destruct (process_citation_no_uuid pn a ls c) as (Hraise & Hok & _).
  destruct (logged_short c).
  - by rewrite Hraise.
  - destruct (Hok eq_refl Hc) as [ls1 ->]. cbn [bind]. by apply IH.
Qed.

Lemma process_loop_no_uuid (pn : option str) (a : option value)
    (articles : list str) (ls : loop_state) (u : str) :
  existsb logged_short articles = false ->
  foldM (process_citation (Row None pn a)) ls (map VStr articles) =
  foldM (process_citation (Row (Some u) pn a)) ls (map VStr articles) /\
  forall ls', foldM (process_citation (Row None pn a)) ls (map VStr articles) = Ok ls' ->
              failures ls' = failures ls /\
              exists kept,
                normalized_articles ls' = normalized_articles ls ++ map VStr kept.
Proof.
  revert ls. induction articles as [|c cs IH]; intros ls; cbn [existsb map foldM].
  - intros _. split; [done|]. intros ls' [= <-]. split; [done|].
    exists []. simpl. by rewrite app_nil_r.
  - intros [Hc Hcs]%orb_false_iff.
    destruct (process_citation_no_uuid pn a ls c) as (_ & _ & Hsame).
    destruct (Hsame Hc u) as [<- Hls1].
    destruct (process_citation (Row None pn a) ls (VStr c)) as [ls1|e]; [|done].
    cbn [bind]. destruct (Hls1 ls1 eq_refl) as (Hf1 & k1 & Hk1).
    destruct (IH ls1 Hcs) as [Heq Hls2]. split; [exact Heq|].
    intros ls' Hloop. destruct (Hls2 ls' Hloop) as (Hf2 & k2 & Hk2).
    split; [congruence|]. exists (k1 ++ k2).
    by rewrite Hk2, Hk1, map_app, <- app_assoc.
Qed.

(** X9.  A table without a 'uuid' column.  For a row whose citations hold
    no surrogate, the loop raises KeyError as soon as one of them is kept
    and logged as a short fragment.  When none is, the row is processed
    exactly as in a table with that column, and if it is processed without
    an exception no failure is recorded. *)
Theorem missing_uuid_raises_on_short_fragment (pn : option str) (a : option value)
    (articles : list str) (s : stats) :
  (forallb encodable articles = true ->
   existsb logged_short articles = true ->
   process_articles (Row None pn a) (map VStr articles) s = Raise KeyError) /\
  (existsb logged_short articles = false ->
   forall u,
     process_articles (Row None pn a) (map VStr articles) s =
     process_articles (Row (Some u) pn a) (map VStr articles) s /\
     forall res, process_articles (Row None pn a) (map VStr articles) s = Ok res ->
                 res.2 = []).
Proof.
  unfold process_articles. split.
  - intros Henc Hshort.
    by rewrite (process_loop_no_uuid_raises pn a articles _ Henc Hshort).
  - intros Hshort u.
    destruct (process_loop_no_uuid pn a articles (LoopState [] s []) u Hshort)
      as [<- Hls].
    split; [done|]. intros res.
    destruct (foldM (process_citation (Row None pn a)) (LoopState [] s [])
                (map VStr articles)) as [ls|e]; [|done].
    cbn [bind]. destruct (Hls ls eq_refl) as (Hf & kept & Hk).
    simpl in Hk, Hf. rewrite Hk, enrich_strings, Hf.
    destruct (unique_laws (laws_of kept)) as [|law [|? ?]]; cbn [bind];
      by intros [= <-].
Qed.


(** *** The empty citation *)

Lemma process_citation_encodable (u : str) (pn : option str) (a : option value)
    (ls : loop_state) (c : str) :
  encodable c = true ->
  exists ls', process_citation (Row (Some u) pn a) ls (VStr c) = Ok ls'.
Proof.
  intros Hc. unfold process_citation.
  destruct (normalize_string c) as (c' & ch & d & Hn & _). rewrite Hn.
  destruct d; [by eexists|].
  destruct (is_garbage_citation (VStr c')) as [g why].
  destruct g; [by eexists|].
  rewrite (log_write_encodable c c' ch false Hn Hc). cbn [as_str bind row_uuid].
  destruct (is_short_fragment c'); by eexists.
Qed.

Lemma process_loop_encodable (u : str) (pn : option str) (a : option value)
    (articles : list str) (ls : loop_state) :
  forallb encodable articles = true ->
  exists ls', foldM (process_citation (Row (Some u) pn a)) ls (map VStr articles) = Ok ls'.
Proof.
  revert ls. induction articles as [|c cs IH]; intros ls; cbn [forallb map foldM].
  - intros _. by exists ls.
  - intros [Hc Hcs]%andb_true_iff.
    destruct (process_citation_encodable u pn a ls c Hc) as [ls1 ->]. cbn [bind].
    by apply IH.
Qed.

Lemma process_citation_non_string (r : row) (ls : loop_state) (v : value) :
  is_str v = false -> process_citation r ls v = Raise AttributeError.
Proof.
  intros Hv. unfold process_citation.
  rewrite normalize_non_string by done.
  rewrite is_garbage_non_string by done. cbn [bind].
  by rewrite as_str_non_string.
Qed.

Lemma process_loop_non_string (r : row) (articles : list value) (ls ls' : loop_state) :
  (exists v, v ∈ articles /\ is_str v = false) ->
  foldM (process_citation r) ls articles <> Ok ls'.
Proof.
  revert ls. induction articles as [|c cs IH]; intros ls (v & Hin & Hv).
  - by apply elem_of_nil in Hin.
  - cbn [foldM]. apply elem_of_cons in Hin as [<-|Hin].
    + by rewrite process_citation_non_string.
    + destruct (process_citation r ls c) as [ls1|e]; [|done]. cbn [bind].
      apply IH. by exists v.
Qed.

(** C10, at its failing input.  On the empty string and on a value that is
    not a string, [normalize_citation] returns the value itself with both
    flags false and [is_garbage_citation] returns (False, None).  But the
    loop of [process_csv] goes on to call [strip] on what it keeps: a value
    that is not a string anywhere in the list of a row makes the processing
    of the row raise, so that an empty citation beside it is kept by both
    filters and yet never written.  The empty citation is written in the
    other rows: in a table with a [uuid] column the citations of a row that
    are strings without a surrogate are normalised, filtered and enriched
    without an exception, and whenever the citations of a row that hold an
    empty string are processed without an exception, the empty string is in
    the list put in the row, and every citation of that list, the empty one
    included, has been counted as kept.  The lowercase of the empty string
    is taken to be empty. *)
Theorem empty_and_non_string_pass_through :
  (forall v, v = VStr [] \/ is_str v = false ->
     normalize_citation v = (v, false, false) /\
     is_garbage_citation v = (false, None)) /\
  (forall (r : row) (articles : list value) (s : stats),
     (exists v, v ∈ articles /\ is_str v = false) ->
     forall res, process_articles r articles s <> Ok res) /\
  (forall (u : str) (pn : option str) (a : option value) (articles : list str)
          (s : stats),
     forallb encodable articles = true ->
     exists out s' fs,
       process_articles (Row (Some u) pn a) (map VStr articles) s = Ok (out, s', fs)) /\
  (lower [] = [] ->
   forall (r : row) (articles out : list value) (s s' : stats) (fs : list failure),
     row_articles r = Some (VList articles) ->
     VStr [] ∈ articles ->
     process_row r s = Ok (Some out, s', fs) ->
     VStr [] ∈ out /\
     citations_kept s' = (citations_kept s + length out)%nat).
Proof.
  split; [|split; [|split]].
  - intros v [->|Hv]; [done|]. by destruct v.
  - intros r articles s Hv res. unfold process_articles.
    destruct (foldM (process_citation r) (LoopState [] s []) articles)
      as [ls|e] eqn:Hloop; [|done].
    by apply process_loop_non_string in Hloop.
  - intros u pn a articles s Henc. unfold process_articles.
    destruct (process_loop_encodable u pn a articles (LoopState [] s []) Henc)
      as [ls Hloop].
    rewrite Hloop. cbn [bind].
    destruct (process_loop_returns _ _ _ _ Hloop) as (kept & Harts & _).
    simpl in Harts. rewrite Harts, enrich_strings.
    destruct (unique_laws (laws_of kept)) as [|law [|? ?]]; cbn [bind];
      by eexists _, _, _.
  - intros Hlower r articles out s s' fs Hrow Hin.
    assert (Hf : forall (f : str -> str) kept,
              [] ∈ kept -> f [] = [] -> VStr [] ∈ map VStr (map f kept)).
    { intros f kept Hk Hf. apply list_elem_of_In, in_map, in_map_iff.
      exists []. split; [done|]. by apply list_elem_of_In. }
    unfold process_row. rewrite Hrow.
    assert (truthy (VList articles) = true) as ->.
    { destruct articles; [by apply elem_of_nil in Hin|done]. }
    cbn [negb]. unfold process_articles.
    destruct (foldM (process_citation r) (LoopState [] s []) articles)
      as [ls|e] eqn:Hloop; [|done].
    cbn [bind].
    apply process_loop_returns in Hloop as (kept & Harts & Hkept & Hempty).
    simpl in Harts, Hkept. specialize (Hempty Hin).
    rewrite Harts, enrich_strings.
    destruct (unique_laws (laws_of kept)) as [|law [|? ?]]; cbn [bind];
      intros [= <- <- <-]; cbn [citations_kept];
      rewrite ?length_map; (split; [|done]).
    + rewrite <- (map_id kept) at 1. by apply Hf.
    + apply Hf; [done|]. unfold enrich_text. by rewrite empty_not_article_only.
    + rewrite <- (map_id kept) at 1. by apply Hf.
Qed.

(** *** The list written for a row *)

Lemma process_citation_kept (r : row) (ls ls' : loop_state) (c : str) :
  process_citation r ls (VStr c) = Ok ls' ->
  normalized_articles ls' =
    normalized_articles ls ++ map VStr (option_list (kept_text c)) /\
  map (fun f => (original f, normalized f)) (failures ls') =
    map (fun f => (original f, normalized f)) (failures ls) ++ option_list (logged_pair c) /\
  citations_enriched (counters ls') = citations_enriched (counters ls).
Proof.
  unfold process_citation, logged_pair, kept_text.
  destruct (normalize_string c) as (c' & ch & d & Hn & _). rewrite Hn.
  destruct d.
  { intros [= <-]. cbn. by rewrite !app_nil_r. }
  destruct (is_garbage_citation (VStr c')) as [g why].
  destruct g; cbn [fst].
  { intros [= <-]. cbn. by rewrite !app_nil_r. }
  destruct (if ch then write [VStr c; VStr c'] else Ok ()) as [[]|?]; [|done].
  cbn [as_str bind].
  destruct (is_short_fragment c'); [destruct (row_uuid r); [|done]|];
    intros [= <-]; cbn; rewrite ?map_app, ?app_nil_r; done.
Qed.

Lemma process_loop_kept (r : row) (articles : list str) (ls ls' : loop_state) :
  foldM (process_citation r) ls (map VStr articles) = Ok ls' ->
  normalized_articles ls' =
    normalized_articles ls ++ map VStr (omap kept_text articles) /\
  map (fun f => (original f, normalized f)) (failures ls') =
    map (fun f => (original f, normalized f)) (failures ls) ++ omap logged_pair articles /\
  citations_enriched (counters ls') = citations_enriched (counters ls).
Proof.
  revert ls. induction articles as [|c cs IH]; intros ls; cbn [map foldM].
  - intros [= <-]. cbn. by rewrite !app_nil_r.
  - destruct (process_citation r ls (VStr c)) as [ls1|] eqn:H1; [|done]. cbn [bind].
    intros H2. apply process_citation_kept in H1 as (Ha1 & Hf1 & He1).
    apply IH in H2 as (Ha2 & Hf2 & He2).
    rewrite Ha2, Hf2, He2, Ha1, Hf1, He1. cbn [omap list_omap].
    fold (omap kept_text cs). fold (omap logged_pair cs).
    repeat split.
    + rewrite <- app_assoc. f_equal. by destruct (kept_text c).
    + rewrite <- app_assoc. f_equal. by destruct (logged_pair c).
Qed.

(** X10.  The list written for a row of citation strings is the enricher
    applied to the normalized texts of the citations that are neither
    digit-only nor garbage, in their order: what the loop drops is not seen
    by the enricher, so a law named only in a dropped citation enriches
    nothing. The failures logged are the kept citations that are short
    fragments, each with its text before and after normalization. *)
Theorem written_citations_are_enriched_kept (r : row) (articles : list str)
    (out : list value) (s s' : stats) (fs : list failure) :
  process_articles r (map VStr articles) s = Ok (out, s', fs) ->
  enrich_article_only_citations (map VStr (omap kept_text articles)) =
    Ok (out, (citations_enriched s' - citations_enriched s)%nat) /\
  map (fun f => (original f, normalized f)) fs = omap logged_pair articles.
Proof.
  unfold process_articles.
  destruct (foldM (process_citation r) (LoopState [] s []) (map VStr articles))
    as [ls|] eqn:Hl; [|done].
  cbn [bind]. apply process_loop_kept in Hl as (Ha & Hf & He).
  cbn [normalized_articles failures counters app map] in Ha, Hf, He. rewrite Ha.
  destruct (enrich_article_only_citations (map VStr (omap kept_text articles)))
    as [[enriched n]|]; [|done].
  cbn [bind]. intros [= <- <- <-]. cbn [citations_enriched]. rewrite He.
  split; [|done]. do 2 f_equal. lia.
Qed.

(** ** [main] of [analyze_unparseable.py] *)

Lemma well_formed_category (it : item) :
  well_formed it = true ->
  exists s, item_citation it = Some (VStr s) /\ item_category it = Some (categorize_str s).
Proof.
  unfold well_formed, item_category. destruct (item_citation it) as [[s| | | | |]|]; try done.
  by exists s.
Qed.

Lemma count_item_well_formed (it : item) cats byc :
  well_formed it = true ->
  exists s, item_citation it = Some (VStr s) /\
    count_item (cats, byc) it =
    Ok (<[categorize_str s := S (count_of cats (categorize_str s))]> cats,
        let examples := default [] (byc !! categorize_str s) in
        if (length examples <? 10)%nat
        then <[categorize_str s := examples ++ [VStr s]]> byc
        else <[categorize_str s := examples]> byc).
Proof.
  intros H. destruct (well_formed_category it H) as (s & Hc & _).
  exists s. split; [done|]. unfold count_item. by rewrite Hc.
Qed.

Lemma count_item_ill_formed (it : item) st :
  well_formed it = false ->
  exists e, count_item st it = Raise e /\ (e = KeyError \/ e = AttributeError).
Proof.
  destruct st as [cats byc]. unfold well_formed, count_item.
  destruct (item_citation it) as [[s| | | | |]|]; try done; eexists;
    (split; [reflexivity|]); first [by left | by right].
Qed.

Lemma count_loop_ill_formed (items : list item) st :
  forallb well_formed items = false ->
  exists e, foldM count_item st items = Raise e /\ (e = KeyError \/ e = AttributeError).
Proof.
  revert st. induction items as [|it items IH]; intros st; simpl; [done|].
  destruct (well_formed it) eqn:Hw; simpl.
  - intros H. destruct st as [cats byc].
    destruct (count_item_well_formed it cats byc Hw) as (s & _ & ->). simpl. by apply IH.
  - intros _. destruct (count_item_ill_formed it st Hw) as (e & -> & He). by exists e.
Qed.

Lemma has_category_spec (cat : category) (it : item) (s : str) :
  item_citation it = Some (VStr s) ->
  has_category cat it = bool_decide (categorize_str s = cat).
Proof.
  intros H. unfold has_category, item_category. rewrite H.
  apply bool_decide_ext. split; [by intros [= ->]|by intros ->].
Qed.

Lemma count_loop_well_formed (items : list item) cats byc :
  forallb well_formed items = true ->
  exists cats' byc',
    foldM count_item (cats, byc) items = Ok (cats', byc') /\
    (forall cat, count_of cats' cat =
                 (count_of cats cat + length (List.filter (has_category cat) items))%nat) /\
    (forall cat, byc' !! cat = more_examples (byc !! cat) (citations_of cat items)).
Proof.
  revert cats byc. induction items as [|it items IH]; intros cats byc.
  - intros _. exists cats, byc. repeat split; try done; intros cat; simpl; lia.
  - cbn [forallb foldM]. intros H. apply andb_true_iff in H as [Hw Hrest].
    destruct (count_item_well_formed it cats byc Hw) as (s & Hc & ->). cbn [bind].
    match goal with
    | |- context [foldM count_item (?c, ?b) items] =>
        destruct (IH c b Hrest) as (cats' & byc' & -> & Hcount & Hex)
    end.
    exists cats', byc'. split; [done|]. split.
    + intros cat. rewrite Hcount. cbn [List.filter].
      rewrite (has_category_spec cat it s Hc).
      unfold count_of at 1. rewrite lookup_insert.
      destruct (decide (categorize_str s = cat)) as [->|Hne].
      * rewrite bool_decide_eq_true_2 by done. simpl. unfold count_of. lia.
      * rewrite bool_decide_eq_false_2 by done. by unfold count_of.
    + intros cat. rewrite Hex. unfold citations_of. cbn [omap list_omap].
      rewrite (has_category_spec cat it s Hc). rewrite Hc.
      fold (omap (fun it0 => if has_category cat it0 then item_citation it0 else None) items).
      fold (citations_of cat items).
      set (e := default [] (byc !! categorize_str s)).
      destruct (decide (categorize_str s = cat)) as [Heq|Hne].
      * rewrite bool_decide_eq_true_2 by done. cbv zeta. subst e. rewrite Heq.
        set (e := default [] (byc !! cat)).
        assert (Hlook : (if (length e <? 10)%nat
                         then <[cat := e ++ [VStr s]]> byc
                         else <[cat := e]> byc) !! cat
                        = Some (e ++ take (10 - length e) [VStr s])).
        { destruct (length e <? 10)%nat eqn:Hlt.
          - rewrite lookup_insert_eq. apply Nat.ltb_lt in Hlt.
            destruct (10 - length e)%nat eqn:Hd; [lia|]. cbn [take]. by rewrite take_nil.
          - rewrite lookup_insert_eq. apply Nat.ltb_ge in Hlt.
            replace (10 - length e)%nat with O by lia. by rewrite app_nil_r. }
        rewrite Hlook. unfold more_examples.
        repeat match goal with
               | |- context [default [] (Some ?x)] =>
                   change (default [] (Some x)) with x
               end.
        destruct (citations_of cat items) as [|c cs] eqn:Hcs.
        -- done.
        -- subst e. generalize (default [] (byc !! cat)). intros e.
           f_equal. rewrite <- app_assoc. f_equal. rewrite length_app.
           destruct (10 - length e)%nat as [|k] eqn:Hk.
           ++ simpl. by replace (10 - (length e + 0))%nat with O by lia.
           ++ cbn [take app length]. rewrite take_nil. cbn [app length].
              by replace (10 - (length e + 1))%nat with k by lia.
      * rewrite bool_decide_eq_false_2 by done. cbv zeta.
        assert (Hlook : (if (length e <? 10)%nat
                         then <[categorize_str s := e ++ [VStr s]]> byc
                         else <[categorize_str s := e]> byc) !! cat = byc !! cat).
        { destruct (length e <? 10)%nat; by rewrite lookup_insert_ne. }
        by rewrite Hlook.
Qed.

(** *** Sums over the counter *)

Lemma sum_counts_insert (p : category -> bool) (m : gmap category nat) i x :
  m !! i = None ->
  sum_counts p (<[i:=x]> m) = ((if p i then x else O) + sum_counts p m)%nat.
Proof.
  intros Hi. unfold sum_counts. rewrite map_fold_insert_L; [|
    intros j1 j2 z1 z2 y _ _ _; destruct (p j1), (p j2); lia | done].
  by destruct (p i).
Qed.

Lemma sum_over_insert (p : category -> bool) (m : gmap category nat) i x l :
  m !! i = None -> NoDup l ->
  sum_over l (fun c => if p c then count_of (<[i:=x]> m) c else O) =
  ((if bool_decide (i ∈ l) then (if p i then x else O) else O) +
   sum_over l (fun c => if p c then count_of m c else O))%nat.
Proof.
  intros Hi. induction l as [|c l IH]; intros Hnd; simpl; [done|].
  apply NoDup_cons in Hnd as [Hc Hnd]. rewrite IH by done.
  unfold count_of at 1. rewrite lookup_insert.
  destruct (decide (i = c)) as [->|Hne].
  - rewrite (bool_decide_eq_false_2 (c ∈ l)) by done.
    rewrite (bool_decide_eq_true_2 (c ∈ c :: l)) by (by left).
    unfold count_of. rewrite Hi. simpl. destruct (p c); lia.
  - assert (bool_decide (i ∈ c :: l) = bool_decide (i ∈ l)) as ->.
    { apply bool_decide_ext. rewrite elem_of_cons.
      split; [by intros [?|?]|by right]. }
    unfold count_of. destruct (p c); lia.
Qed.

Lemma all_categories_nodup : NoDup all_categories.
Proof. by apply (bool_decide_unpack _). Qed.

Lemma all_categories_complete (c : category) : c ∈ all_categories.
Proof. unfold all_categories. destruct c; repeat first [by left | right]. Qed.

Lemma sum_counts_spec (p : category -> bool) (m : gmap category nat) :
  sum_counts p m = sum_over all_categories (fun c => if p c then count_of m c else O).
Proof.
  induction m as [|i x m Hi IH] using map_ind.
  - unfold sum_counts. rewrite map_fold_empty. unfold all_categories, count_of. simpl.
    by repeat destruct (p _).
  - rewrite sum_counts_insert by done.
    rewrite (sum_over_insert p m i x all_categories Hi all_categories_nodup).
    rewrite bool_decide_eq_true_2 by apply all_categories_complete. by rewrite IH.
Qed.

Lemma filter_by_category (p : category -> bool) (items : list item) :
  forallb well_formed items = true ->
  sum_over all_categories
    (fun c => if p c then length (List.filter (has_category c) items) else O) =
  length (List.filter (fun it => match item_category it with
                                 | Some cat => p cat
                                 | None => false
                                 end) items).
Proof.
  induction items as [|it items IH]; simpl.
  - intros _. unfold all_categories. simpl. by repeat destruct (p _).
  - intros H. apply andb_true_iff in H as [Hw Hrest]. specialize (IH Hrest).
    destruct (well_formed_category it Hw) as (s & Hc & Hcat). rewrite Hcat.
    assert (Hlen : length (if p (categorize_str s)
                           then it :: List.filter (fun it0 => match item_category it0 with
                                                              | Some cat => p cat
                                                              | None => false
                                                              end) items
                           else List.filter (fun it0 => match item_category it0 with
                                                        | Some cat => p cat
                                                        | None => false
                                                        end) items)
                   = ((if p (categorize_str s) then 1 else 0) +
                      length (List.filter (fun it0 => match item_category it0 with
                                                      | Some cat => p cat
                                                      | None => false
                                                      end) items))%nat).
    { by destruct (p (categorize_str s)). }
    rewrite Hlen, <- IH. clear Hlen IH. unfold all_categories. cbn [sum_over foldr].
    rewrite !(has_category_spec _ it s Hc).
    destruct (categorize_str s); cbn [bool_decide decide_rel category_eq_dec];
      repeat match goal with
             | |- context [p ?c] => destruct (p c)
             end; simpl; lia.
Qed.

Lemma filter_item_well_formed (it : item) (acc : list filtered) :
  well_formed it = true ->
  filter_item acc it =
  if is_garbage_item it
  then match item_element_id it with
       | Some _ => Ok (acc ++ default [] (option_map (fun f => [f]) (filtered_of it)))
       | None => Raise KeyError
       end
  else Ok (acc ++ default [] (option_map (fun f => [f]) (filtered_of it))).
Proof.
  intros Hw. destruct (well_formed_category it Hw) as (s & Hc & Hcat).
  unfold filter_item, is_garbage_item, filtered_of. rewrite Hc, Hcat. cbn [subscript bind].
  change (categorize_citation (VStr s)) with (Ok (categorize_str s)). cbn [bind].
  destruct (is_garbage_category (categorize_str s)).
  - destruct (item_element_id it); [done|done].
  - destruct (item_element_id it); simpl; by rewrite app_nil_r.
Qed.

Lemma filtered_of_no_id (it : item) :
  item_element_id it = None -> filtered_of it = None.
Proof.
  intros H. unfold filtered_of. rewrite H.
  destruct (item_citation it); [|done]. by destruct (item_category it).
Qed.

Lemma filter_loop (items : list item) (acc : list filtered) :
  forallb well_formed items = true ->
  foldM filter_item acc items =
  if forallb has_element_id items then Ok (acc ++ omap filtered_of items)
  else Raise KeyError.
Proof.
  revert acc. induction items as [|it items IH]; intros acc.
  - intros _. simpl. by rewrite app_nil_r.
  - cbn [forallb foldM]. intros H. apply andb_true_iff in H as [Hw Hrest].
    rewrite (filter_item_well_formed it acc Hw). unfold has_element_id at 1.
    destruct (is_garbage_item it) eqn:Hg; cbn [implb].
    + destruct (item_element_id it) as [eid|] eqn:He.
      * rewrite bool_decide_eq_true_2 by (by eexists). cbn [andb bind].
        rewrite IH by done. destruct (forallb has_element_id items); [|done].
        f_equal. rewrite <- app_assoc. f_equal. cbn [omap list_omap].
        by destruct (filtered_of it).
      * rewrite bool_decide_eq_false_2 by (by intros [? ?]). done.
    + cbn [andb bind]. rewrite IH by done.
      destruct (forallb has_element_id items); [|done].
      f_equal. rewrite <- app_assoc. f_equal. cbn [omap list_omap].
      by destruct (filtered_of it).
Qed.

Lemma filtered_length (items : list item) :
  forallb well_formed items = true ->
  forallb has_element_id items = true ->
  length (omap filtered_of items) = length (List.filter is_garbage_item items).
Proof.
  induction items as [|it items IH]; [done|].
  cbn [forallb]. intros H1 H2.
  apply andb_true_iff in H1 as [Hw Hrest]. apply andb_true_iff in H2 as [He Hrest2].
  specialize (IH Hrest Hrest2). cbn [omap list_omap List.filter].
  fold (omap filtered_of items).
  destruct (well_formed_category it Hw) as (s & Hc & Hcat).
  unfold has_element_id in He. unfold filtered_of, is_garbage_item in *.
  rewrite Hc, Hcat in *.
  destruct (is_garbage_category (categorize_str s)); cbn [implb] in He.
  - apply bool_decide_eq_true in He as [eid ->]. cbn [length]. by rewrite IH.
  - destruct (item_element_id it); exact IH.
Qed.

Lemma main_first_loop (citations : list item) :
  forallb well_formed citations = true ->
  exists cats byc,
    foldM count_item (∅, ∅) citations = Ok (cats, byc) /\
    (forall cat, count_of cats cat = length (List.filter (has_category cat) citations)) /\
    (forall cat, byc !! cat = match citations_of cat citations with
                              | [] => None
                              | _ :: _ => Some (take 10 (citations_of cat citations))
                              end).
Proof.
  intros Hw. destruct (count_loop_well_formed citations ∅ ∅ Hw) as (cats & byc & H & Hc & He).
  exists cats, byc. split; [done|]. split.
  - intros cat. rewrite Hc. unfold count_of. by rewrite lookup_empty.
  - intros cat. rewrite He, lookup_empty. unfold more_examples.
    by destruct (citations_of cat citations).
Qed.

Lemma main_cases (citations : list item) :
  match main citations with
  | DividesByZero => citations = []
  | Fails _ =>
      forallb well_formed citations = false \/
      citations <> [] /\ forallb has_element_id citations = false
  | Returns r =>
      citations <> [] /\ forallb well_formed citations = true /\
      forallb has_element_id citations = true /\
      foldM count_item (∅, ∅) citations = Ok (categories r, by_category r) /\
      total_garbage r = sum_counts is_garbage_category (categories r) /\
      total_rescuable r = sum_counts is_rescuable_category (categories r) /\
      filtered_citations r = omap filtered_of citations
  end.
Proof.
  unfold main. destruct (forallb well_formed citations) eqn:Hw.
  - destruct (main_first_loop citations Hw) as (cats & byc & -> & _ & _).
    case_bool_decide as Hlen.
    + by destruct citations.
    + assert (citations <> []) by (by intros ->).
      rewrite (filter_loop citations [] Hw).
      destruct (forallb has_element_id citations); [|by right].
      repeat split; done.
  - destruct (count_loop_ill_formed citations (∅, ∅) Hw) as (e & -> & _). by left.
Qed.


(** X12.  The counts of a report: each category's count is the number of
    citations of that category, the list written for filtering has
    [total_garbage] entries, and garbage, rescuable, non-Swiss and unknown
    citations add up to all citations. *)
Theorem main_counts (citations : list item) (r : report) :
  main citations = Returns r ->
  (forall cat, count_of (categories r) cat =
               length (List.filter (has_category cat) citations)) /\
  total_garbage r = length (filtered_citations r) /\
  (total_garbage r + total_rescuable r + count_of (categories r) NON_SWISS_LAW +
   count_of (categories r) UNKNOWN)%nat = length citations.
Proof.
  intros Hm. pose proof (main_cases citations) as H. rewrite Hm in H.
  destruct H as (_ & Hw & He & Hloop & Hg & Hr & Hf).
  destruct (main_first_loop citations Hw) as (cats & byc & Hloop' & Hcount & _).
  rewrite Hloop in Hloop'. injection Hloop' as <- <-.
  assert (Hsum : forall p, sum_counts p (categories r) =
            length (List.filter (fun it => match item_category it with
                                           | Some cat => p cat
                                           | None => false
                                           end) citations)).
  { intros p. rewrite sum_counts_spec, <- (filter_by_category p citations Hw).
    unfold all_categories. cbn [sum_over foldr]. by rewrite !Hcount. }
  split; [done|]. split.
  - rewrite Hg, Hf, Hsum. by rewrite filtered_length.
  - rewrite Hg, Hr, !Hsum, !Hcount. clear -Hw.
    induction citations as [|it items IH]; [done|].
    cbn [forallb] in Hw. apply andb_true_iff in Hw as [Hw Hrest]. specialize (IH Hrest).
    cbn [List.filter]. destruct (well_formed_category it Hw) as (s & Hc & Hcat).
    rewrite !(has_category_spec _ it s Hc), Hcat.
    destruct (categorize_str s); cbn [is_garbage_category is_rescuable_category
      bool_decide decide_rel category_eq_dec length]; simpl; simpl in IH; lia.
Qed.

(** X13.  The examples of a report: for each category, the first ten
    citations of that category in the order of the log, and no entry for a
    category no citation has. *)
Theorem main_examples (citations : list item) (r : report) (cat : category) :
  main citations = Returns r ->
  by_category r !! cat =
  match citations_of cat citations with
  | [] => None
  | _ :: _ => Some (take 10 (citations_of cat citations))
  end.
Proof.
  intros Hm. pose proof (main_cases citations) as H. rewrite Hm in H.
  destruct H as (_ & Hw & _ & Hloop & _).
  destruct (main_first_loop citations Hw) as (cats & byc & Hloop' & _ & Hex).
  rewrite Hloop in Hloop'. injection Hloop' as <- <-. apply Hex.
Qed.

(** X14.  The list written for filtering: the items of a garbage category,
    in the order of the log, each with its citation, category and element
    id. *)
Theorem main_filtered (citations : list item) (r : report) :
  main citations = Returns r ->
  filtered_citations r = omap filtered_of citations.
Proof.
  intros Hm. pose proof (main_cases citations) as H. rewrite Hm in H. tauto.
Qed.

(** ** The loops of the two dataset scripts *)

(** *** [str.strip] *)

Lemma lstrip_head (s : str) (c : char) (t : str) :
  lstrip s = c :: t -> isspace c = false.
Proof.
  induction s as [|x s IH]; [done|]. cbn [lstrip].
  destruct (isspace x) eqn:Hx; [exact IH|]. by intros [= <- <-].
Qed.

Lemma lstrip_fixed (s : str) :
  (forall c, head s = Some c -> isspace c = false) -> lstrip s = s.
Proof.
  destruct s as [|x s]; [done|]. intros H. cbn [lstrip]. by rewrite (H x eq_refl).
Qed.

Lemma lstrip_suffix (s : str) : exists ws, s = ws ++ lstrip s.
Proof.
  induction s as [|x s [ws IH]]; [by exists []|]. cbn [lstrip].
  destruct (isspace x); [|by exists []]. exists (x :: ws). cbn [app]. by rewrite <- IH.
Qed.

Lemma strip_strip (s : str) : strip (strip s) = strip s.
Proof.
  unfold strip. set (a := lstrip s). set (b := lstrip (rev a)).
  assert (Hb : forall c, head b = Some c -> isspace c = false).
  { intros c Hc. destruct b as [|x b'] eqn:Eb; [done|]. injection Hc as ->.
    by apply (lstrip_head (rev a) c b'). }
  assert (Ha : forall c, head (rev b) = Some c -> isspace c = false).
  { intros c Hc. destruct (lstrip_suffix (rev a)) as [ws Hws]. fold b in Hws.
    destruct b as [|x b'] eqn:Eb; [done|].
    assert (Hrev : a = rev (x :: b') ++ rev ws).
    { rewrite <- (rev_involutive a), Hws, rev_app_distr. done. }
    destruct (rev (x :: b')) as [|y r] eqn:Er.
    { apply (f_equal (@length _)) in Er. rewrite length_rev in Er. done. }
    injection Hc as ->. cbn [app] in Hrev.
    destruct (lstrip s) as [|z a'] eqn:Ea; subst a; [done|].
    injection Hrev as -> _. by apply (lstrip_head s c a'). }
  rewrite (lstrip_fixed (rev b) Ha), rev_involutive. by rewrite (lstrip_fixed b Hb).
Qed.

(** *** The loop of [build_abbreviation_triplets] *)

Lemma lookup2_insert (m : gmap str (gmap str str)) (rs : str) (langs : gmap str str)
    (rs' lang' : str) :
  lookup2 (<[rs := langs]> m) rs' lang' =
  if decide (rs = rs') then langs !! lang' else lookup2 m rs' lang'.
Proof.
  unfold lookup2. rewrite lookup_insert. by destruct (decide (rs = rs')).
Qed.

Lemma lookup2_default (m : gmap str (gmap str str)) (rs lang : str) :
  default ∅ (m !! rs) !! lang = lookup2 m rs lang.
Proof. unfold lookup2. by destruct (m !! rs). Qed.

Lemma store_first (m : gmap str (gmap str str)) (rs lang v rs' lang' : str) :
  lookup2 (let langs := default ∅ (m !! rs) in
           match langs !! lang with
           | None => <[rs := <[lang := v]> langs]> m
           | Some _ => <[rs := langs]> m
           end) rs' lang' =
  match lookup2 m rs' lang' with
  | Some old => Some old
  | None => if bool_decide (rs = rs') && bool_decide (lang = lang') then Some v else None
  end.
Proof.
  cbv zeta. destruct (default ∅ (m !! rs) !! lang) as [old|] eqn:Hold;
    rewrite lookup2_insert; destruct (decide (rs = rs')) as [<-|Hrs].
  - rewrite lookup2_default. destruct (lookup2 m rs lang') eqn:H'; [done|].
    rewrite bool_decide_eq_true_2 by done. cbn [andb].
    case_bool_decide as Hl; [|done]. subst lang'. rewrite lookup2_default in Hold. congruence.
  - rewrite (bool_decide_eq_false_2 (rs = rs')) by done. by destruct (lookup2 m rs' lang').
  - rewrite lookup_insert. rewrite bool_decide_eq_true_2 by done. cbn [andb].
    destruct (decide (lang = lang')) as [<-|Hl].
    + rewrite lookup2_default in Hold. rewrite Hold. by rewrite bool_decide_eq_true_2.
    + rewrite lookup2_default. rewrite (bool_decide_eq_false_2 (lang = lang')) by done.
      by destruct (lookup2 m rs lang').
  - rewrite (bool_decide_eq_false_2 (rs = rs')) by done. by destruct (lookup2 m rs' lang').
Qed.

Lemma abbreviation_step_lookup (m : gmap str (gmap str str)) (row : fedlex_row)
    (rs lang : str) :
  lookup2 (abbreviation_step m row) rs lang =
  match lookup2 m rs lang with
  | Some v => Some v
  | None => abbreviation_for rs lang row
  end.
Proof.
  unfold abbreviation_step, abbreviation_for, accepted.
  destruct (RS_number row) as [[|c r]|]; try by destruct (lookup2 m rs lang).
  destruct (Language row) as [[|d l]|]; try by destruct (lookup2 m rs lang).
  destruct (skipped_rs_number (c :: r)); [by destruct (lookup2 m rs lang)|].
  destruct (Abbreviation row) as [[|a ab]|]; [| |by destruct (lookup2 m rs lang)].
  { rewrite andb_false_r. by destruct (lookup2 m rs lang). }
  destruct (strip (a :: ab)) as [|x v] eqn:Hv.
  - destruct (lookup2 m rs lang); [done|]. by repeat case_bool_decide.
  - pose proof (store_first m (c :: r) (d :: l) (x :: v) rs lang) as Hstore.
    cbv zeta in Hstore. rewrite Hstore.
    destruct (lookup2 m rs lang); [done|]. by repeat case_bool_decide.
Qed.

Lemma abbreviation_loop_lookup (dataset : list fedlex_row) (m : gmap str (gmap str str))
    (rs lang : str) :
  lookup2 (fold_left abbreviation_step dataset m) rs lang =
  match lookup2 m rs lang with
  | Some v => Some v
  | None => head (omap (abbreviation_for rs lang) dataset)
  end.
Proof.
  revert m. induction dataset as [|row dataset IH]; intros m.
  - cbn. by destruct (lookup2 m rs lang).
  - cbn [fold_left omap list_omap]. rewrite IH, abbreviation_step_lookup.
    fold (omap (abbreviation_for rs lang) dataset).
    destruct (lookup2 m rs lang); [done|].
    by destruct (abbreviation_for rs lang row).
Qed.

Lemma abbreviation_step_inhabited (m : gmap str (gmap str str)) (row : fedlex_row) :
  inhabited m -> inhabited (abbreviation_step m row).
Proof.
  intros Hm. unfold abbreviation_step.
  destruct (RS_number row) as [[|c r]|]; try done.
  destruct (Language row) as [[|d l]|]; try done.
  destruct (skipped_rs_number (c :: r)); [done|].
  destruct (Abbreviation row) as [[|a ab]|]; try done.
  destruct (strip (a :: ab)) as [|x v] eqn:Hv; [done|]. unfold inhabited. cbv zeta.
  match goal with
  | |- context [match ?t with Some _ => _ | None => _ end] =>
      destruct t as [old|] eqn:Hold
  end; intros rs langs; destruct (decide (c :: r = rs)) as [<-|Hne];
    rewrite ?lookup_insert_eq, ?lookup_insert_ne by done.
  - intros [= <-]. by exists (d :: l), old.
  - apply Hm.
  - intros [= <-]. exists (d :: l), (x :: v). by rewrite lookup_insert_eq.
  - apply Hm.
Qed.

Lemma abbreviation_loop_inhabited (dataset : list fedlex_row) (m : gmap str (gmap str str)) :
  inhabited m -> inhabited (fold_left abbreviation_step dataset m).
Proof.
  revert m. induction dataset as [|row dataset IH]; intros m Hm; [done|].
  cbn [fold_left]. by apply IH, abbreviation_step_inhabited.
Qed.

Lemma head_omap_elem {A B} (f : A -> option B) (l : list A) (y : B) :
  head (omap f l) = Some y -> exists x, x ∈ l /\ f x = Some y.
Proof.
  intros H. assert (y ∈ omap f l) as Hin.
  { destruct (omap f l) as [|z t]; [done|]. injection H as ->. by left. }
  by apply list_elem_of_omap in Hin.
Qed.

Lemma abbreviation_for_spec (rs lang : str) (row : fedlex_row) (v : str) :
  abbreviation_for rs lang row = Some v ->
  RS_number row = Some rs /\ Language row = Some lang /\
  rs <> [] /\ lang <> [] /\ skipped_rs_number rs = false /\
  exists abbreviation, Abbreviation row = Some abbreviation /\
    v = strip abbreviation /\ v <> [].
Proof.
  unfold abbreviation_for, accepted.
  destruct (RS_number row) as [[|c r]|]; try done.
  destruct (Language row) as [[|d l]|]; try done.
  destruct (skipped_rs_number (c :: r)) eqn:Hs; [done|].
  destruct (Abbreviation row) as [ab|]; [|done].
  repeat case_bool_decide; try done. cbn [andb negb]. intros [= <-]. subst.
  repeat split; try done. by exists ab.
Qed.

Lemma head_omap_some {A B} (f : A -> option B) (l : list A) (x : A) (y : B) :
  x ∈ l -> f x = Some y -> is_Some (head (omap f l)).
Proof.
  intros Hin Hf. assert (y ∈ omap f l) as Hy by (apply list_elem_of_omap; eauto).
  destruct (omap f l); [by apply elem_of_nil in Hy|by eexists].
Qed.

(** *** The loop of [build_title_mappings] *)

Lemma title_step_lookup (st : title_maps) (row : fedlex_row) (rs lang t : str) :
  lookup2 (titles_by_rs (title_step st row)) rs lang =
    match lookup2 (titles_by_rs st) rs lang with
    | Some v => Some v
    | None => title_for rs lang row
    end /\
  title_to_rs (title_step st row) !! t =
    match title_to_rs st !! t with
    | Some r => Some r
    | None => rs_number_for t row
    end.
Proof.
  unfold title_step, title_for, rs_number_for, accepted.
  destruct (RS_number row) as [[|c r]|]; destruct (Title row) as [[|a ti]|];
    destruct (Language row) as [[|d l]|];
    try (destruct (skipped_rs_number (c :: r)));
    try (by split; [destruct (lookup2 _ rs lang)|destruct (title_to_rs st !! t)]).
  cbv zeta. cbn [titles_by_rs title_to_rs]. split.
  - pose proof (store_first (titles_by_rs st) (c :: r) (d :: l) (a :: ti) rs lang) as Hstore.
    cbv zeta in Hstore. rewrite Hstore. by destruct (lookup2 _ rs lang).
  - destruct (title_to_rs st !! normalized_title (a :: ti)) as [old|] eqn:Hold.
    + destruct (title_to_rs st !! t) eqn:Ht; [done|].
      case_bool_decide; [congruence|done].
    + destruct (decide (normalized_title (a :: ti) = t)) as [<-|Hne].
      * rewrite lookup_insert_eq, Hold. by rewrite bool_decide_eq_true_2.
      * rewrite lookup_insert_ne by done. rewrite bool_decide_eq_false_2 by done.
        by destruct (title_to_rs st !! t).
Qed.

Lemma title_loop_lookup (dataset : list fedlex_row) (st : title_maps) (rs lang t : str) :
  lookup2 (titles_by_rs (fold_left title_step dataset st)) rs lang =
    match lookup2 (titles_by_rs st) rs lang with
    | Some v => Some v
    | None => head (omap (title_for rs lang) dataset)
    end /\
  title_to_rs (fold_left title_step dataset st) !! t =
    match title_to_rs st !! t with
    | Some r => Some r
    | None => head (omap (rs_number_for t) dataset)
    end.
Proof.
  revert st. induction dataset as [|row dataset IH]; intros st.
  - cbn. split; [by destruct (lookup2 _ rs lang)|by destruct (title_to_rs st !! t)].
  - cbn [fold_left omap list_omap].
    destruct (IH (title_step st row)) as [-> ->].
    destruct (title_step_lookup st row rs lang t) as [-> ->].
    fold (omap (title_for rs lang) dataset). fold (omap (rs_number_for t) dataset). split.
    + destruct (lookup2 (titles_by_rs st) rs lang); [done|].
      by destruct (title_for rs lang row).
    + destruct (title_to_rs st !! t); [done|]. by destruct (rs_number_for t row).
Qed.

Lemma rs_number_for_spec (t rs : str) (row : fedlex_row) :
  rs_number_for t row = Some rs ->
  exists lang title,
    RS_number row = Some rs /\ Language row = Some lang /\ Title row = Some title /\
    rs <> [] /\ skipped_rs_number rs = false /\ normalized_title title = t /\
    title_for rs lang row = Some title.
Proof.
  unfold rs_number_for, title_for, accepted.
  destruct (RS_number row) as [[|c r]|]; try done.
  destruct (Language row) as [[|d l]|]; try done.
  destruct (skipped_rs_number (c :: r)) eqn:Hs; [done|].
  destruct (Title row) as [[|a ti]|]; try done.
  case_bool_decide as Ht; [|done]. intros [= <-].
  exists (d :: l), (a :: ti). rewrite !bool_decide_eq_true_2 by done. done.
Qed.

(** *** The shape of a normalized title *)

Lemma split_whitespace_cons (c : char) (tl : str) :
  split_whitespace (c :: tl) =
  if isspace c then split_whitespace tl
  else match tl with
       | [] => [[c]]
       | d :: _ =>
           if isspace d then [c] :: split_whitespace tl
           else match split_whitespace tl with
                | w :: ws => (c :: w) :: ws
                | [] => [[c]]
                end
       end.
Proof. by destruct tl. Qed.

Lemma word_cons (c : char) (w : str) :
  isspace c = false -> (w = [] \/ word w) -> word (c :: w).
Proof.
  intros Hc Hw. split; [done|]. intros x [->|Hx]%elem_of_cons; [done|].
  destruct Hw as [->|[_ Hw]]; [by apply elem_of_nil in Hx|by apply Hw].
Qed.

Lemma split_whitespace_words (s : str) : Forall word (split_whitespace s).
Proof.
  induction s as [|c tl IH]; [constructor|].
  rewrite split_whitespace_cons. destruct (isspace c) eqn:Hc; [done|].
  destruct tl as [|d tl']; [by repeat constructor; try apply word_cons; auto|].
  destruct (isspace d).
  - constructor; [by apply word_cons; auto|done].
  - destruct (split_whitespace (d :: tl')) as [|w ws].
    + repeat constructor; by apply word_cons; auto.
    + apply Forall_cons in IH as [Hw Hws]. constructor; [|done]. apply word_cons; auto.
Qed.

Lemma tidy_word_app (w s : str) :
  (forall c, c ∈ w -> isspace c = false) -> tidy s -> tidy (w ++ s).
Proof.
  intros Hw. induction w as [|x w IH]; [done|]. intros Hs.
  assert (Hx : isspace x = false) by (apply Hw; by left).
  destruct IH as (Hh & Hd & Hc); [intros c ?; apply Hw; by right|done|].
  split; [|split].
  - cbn. by intros c [= <-].
  - cbn [app single_spaced]. rewrite Hd, Hx. by destruct (w ++ s).
  - intros c [->|Hin]%elem_of_cons Hsp; [congruence|by apply Hc].
Qed.

Lemma tidy_space (s : str) :
  s <> [] -> tidy s -> single_spaced (32 :: s) = true /\
  (forall c, c ∈ 32 :: s -> isspace c = true -> c = 32).
Proof.
  intros Hne (Hh & Hd & Hc). split.
  - destruct s as [|x s']; [done|].
    change (single_spaced (32 :: x :: s'))
      with (negb (isspace 32 && isspace x) && single_spaced (x :: s')).
    rewrite (Hh x eq_refl), andb_false_r. exact Hd.
  - intros c [->|Hin]%elem_of_cons Hsp; [done|by apply Hc].
Qed.

Lemma join_tidy (words : list str) :
  Forall word words -> tidy (join (utf8 " ") words) /\
  (words <> [] -> join (utf8 " ") words <> []).
Proof.
  assert (Hnil : tidy []).
  { split; [done|]. split; [done|]. intros c Hin. by apply elem_of_nil in Hin. }
  induction words as [|w ws IH]; [done|].
  intros [[Hne Hw] Hws]%Forall_cons. specialize (IH Hws) as [IH IHne].
  destruct ws as [|w' ws'].
  - cbn [join]. split; [|done]. rewrite <- (app_nil_r w). by apply tidy_word_app.
  - change (join (utf8 " ") (w :: w' :: ws'))
      with (w ++ 32 :: join (utf8 " ") (w' :: ws')).
    split; [|by destruct w].
    destruct (tidy_space (join (utf8 " ") (w' :: ws'))) as [Hd Hc]; [by apply IHne|done|].
    destruct w as [|x w]; [done|].
    assert (Hx : isspace x = false) by (apply Hw; by left).
    split; [|split].
    + cbn. by intros c [= <-].
    + clear Hne. induction (x :: w) as [|y v IHv]; [done|].
      cbn [app single_spaced]. rewrite IHv by (intros c ?; apply Hw; by right).
      rewrite (Hw y) by (by left). by destruct (v ++ _).
    + intros c [Hin|Hin]%elem_of_app Hsp; [rewrite (Hw c Hin) in Hsp; done|by apply Hc].
Qed.

Lemma lstrip_chars_suffix (cs s : str) : exists r, s = r ++ lstrip_chars cs s.
Proof.
  induction s as [|x s [r IH]]; [by exists []|]. cbn [lstrip_chars].
  destruct (existsb (N.eqb x) cs); [|by exists []]. exists (x :: r). cbn [app]. by rewrite <- IH.
Qed.

Lemma lstrip_chars_head (cs s : str) (c : char) :
  head (lstrip_chars cs s) = Some c -> c ∉ cs.
Proof.
  induction s as [|x s IH]; [done|]. cbn [lstrip_chars].
  destruct (existsb (N.eqb x) cs) eqn:Hx; [exact IH|].
  intros [= <-] Hin. apply not_true_iff_false in Hx. apply Hx.
  apply existsb_exists. exists x. split; [by apply list_elem_of_In|apply N.eqb_refl].
Qed.

Lemma rstrip_chars_prefix (cs s : str) : exists r, s = rstrip_chars cs s ++ r.
Proof.
  unfold rstrip_chars. destruct (lstrip_chars_suffix cs (rev s)) as [r Hr].
  exists (rev r). rewrite <- rev_app_distr, <- Hr. by rewrite rev_involutive.
Qed.

Lemma last_rev_head {A} (l : list A) : last (rev l) = head l.
Proof. destruct l as [|x l]; [done|]. cbn [rev head]. apply last_snoc. Qed.

Lemma single_spaced_spec (s : str) :
  single_spaced s = true ->
  forall a c d b, s = a ++ c :: d :: b -> isspace c = true -> isspace d = false.
Proof.
  intros Hs a. revert s Hs. induction a as [|x a IH]; intros s Hs c d b -> Hc.
  - cbn [app single_spaced] in Hs. rewrite Hc in Hs. by destruct (isspace d).
  - cbn [app single_spaced] in Hs. apply andb_true_iff in Hs as [_ Hs].
    by apply (IH _ Hs c d b).
Qed.

Lemma single_spaced_prefix (t r : str) :
  single_spaced (t ++ r) = true -> single_spaced t = true.
Proof.
  induction t as [|x t IH]; [done|]. cbn [app single_spaced].
  intros [H1 H2]%andb_true_iff. rewrite (IH H2), andb_true_r.
  destruct t as [|y t]; [done|exact H1].
Qed.

Lemma lookup2_empty (rs lang : str) : lookup2 ∅ rs lang = None.
Proof. unfold lookup2. by rewrite lookup_empty. Qed.

(** X15.  [build_abbreviation_triplets]: the abbreviation stored for an RS
    number and a language is the stripped abbreviation of the first row of
    the dataset that has this RS number and language, passes the two
    RS-number filters and has an abbreviation that is not blank; later rows
    never overwrite it. *)
Theorem abbreviation_first_wins (dataset : list fedlex_row) (rs lang : str) :
  lookup2 (build_abbreviation_triplets dataset) rs lang =
  head (omap (abbreviation_for rs lang) dataset).
Proof.
  unfold build_abbreviation_triplets.
  by rewrite abbreviation_loop_lookup, lookup2_empty.
Qed.

(** X16.  [build_abbreviation_triplets]: no key of the result is empty,
    starts with '0' or has three all-digit parts; no inner dictionary is
    empty; and every abbreviation stored is non-empty and has no whitespace
    left at either end. *)
Theorem abbreviation_triplets_entries (dataset : list fedlex_row) (rs : str)
    (langs : gmap str str) :
  build_abbreviation_triplets dataset !! rs = Some langs ->
  rs <> [] /\ skipped_rs_number rs = false /\
  (exists lang v, langs !! lang = Some v) /\
  forall lang v, langs !! lang = Some v -> lang <> [] /\ v <> [] /\ strip v = v.
Proof.
  intros Hrs.
  assert (Hentry : forall lang v, langs !! lang = Some v ->
            exists row, row ∈ dataset /\ abbreviation_for rs lang row = Some v).
  { intros lang v Hv. apply head_omap_elem.
    pose proof (abbreviation_loop_lookup dataset ∅ rs lang) as Hl.
    rewrite lookup2_empty in Hl. rewrite <- Hl. unfold lookup2.
    fold (build_abbreviation_triplets dataset). by rewrite Hrs. }
  assert (Hsome : exists lang v, langs !! lang = Some v).
  { apply (abbreviation_loop_inhabited dataset ∅) with rs; [|done].
    intros ? ?. by rewrite lookup_empty. }
  destruct Hsome as (lang0 & v0 & Hv0).
  destruct (Hentry lang0 v0 Hv0) as (row0 & _ & Hrow0).
  apply abbreviation_for_spec in Hrow0 as (_ & _ & Hne & _ & Hskip & _).
  split; [done|]. split; [done|]. split; [by exists lang0, v0|].
  intros lang v Hv. destruct (Hentry lang v Hv) as (row & _ & Hrow).
  apply abbreviation_for_spec in Hrow as (_ & _ & _ & Hl & _ & ab & _ & -> & Hvne).
  split; [done|]. split; [done|]. apply strip_strip.
Qed.

(** X17.  [build_title_mappings]: the title stored for an RS number and a
    language is the title of the first row with this RS number and language
    that passes the filters, and a normalized title maps to the RS number of
    the first such row whose title normalizes to it; later rows never
    overwrite either. *)
Theorem title_first_wins (dataset : list fedlex_row) (rs lang t : str) :
  lookup2 (titles_by_rs (build_title_mappings dataset)) rs lang =
    head (omap (title_for rs lang) dataset) /\
  title_to_rs (build_title_mappings dataset) !! t =
    head (omap (rs_number_for t) dataset).
Proof.
  unfold build_title_mappings.
  destruct (title_loop_lookup dataset (TitleMaps ∅ ∅) rs lang t) as [-> ->].
  cbn [titles_by_rs title_to_rs]. by rewrite lookup2_empty, lookup_empty.
Qed.

(** X18.  [build_title_mappings]: every RS number the reverse mapping points
    to has a title in [titles_by_rs], passed the RS-number filters, and
    comes from a row of the dataset whose title normalizes to the key. *)
Theorem title_to_rs_consistent (dataset : list fedlex_row) (t rs : str) :
  title_to_rs (build_title_mappings dataset) !! t = Some rs ->
  (exists lang title,
     lookup2 (titles_by_rs (build_title_mappings dataset)) rs lang = Some title) /\
  rs <> [] /\ skipped_rs_number rs = false /\
  exists row title, row ∈ dataset /\ RS_number row = Some rs /\
    Title row = Some title /\ normalized_title title = t.
Proof.
  intros Ht. unfold build_title_mappings in *.
  destruct (title_loop_lookup dataset (TitleMaps ∅ ∅) rs [] t) as [_ Hrev].
  cbn [title_to_rs] in Hrev. rewrite lookup_empty, Ht in Hrev. symmetry in Hrev.
  apply head_omap_elem in Hrev as (row & Hin & Hrow).
  apply rs_number_for_spec in Hrow
    as (lang & title & Hrs & Hlang & Htitle & Hne & Hskip & Hnorm & Hfor).
  split; [|split; [done|split; [done|by exists row, title]]].
  destruct (title_loop_lookup dataset (TitleMaps ∅ ∅) rs lang t) as [Hfwd _].
  cbn [titles_by_rs] in Hfwd. rewrite lookup2_empty in Hfwd.
  destruct (head_omap_some (title_for rs lang) dataset row title Hin Hfor) as [title' Hhead].
  exists lang, title'. by rewrite Hfwd.
Qed.

(** X19.  [build_title_mappings], the normalized title: it never ends with
    one of the characters '.', ',', ';', ':'; it does not begin with
    whitespace; no two adjacent characters are both whitespace; and the only
    whitespace character in it is the space. *)
Theorem normalized_title_shape (title : str) :
  let t := normalized_title title in
  (forall c, last t = Some c -> c ∉ utf8 ".,;:") /\
  (forall c, head t = Some c -> isspace c = false) /\
  (forall a c d b, t = a ++ c :: d :: b -> isspace c = true -> isspace d = false) /\
  (forall c, c ∈ t -> isspace c = true -> c = 32).
Proof.
  cbv zeta. unfold normalized_title.
  set (j := join (utf8 " ") (split_whitespace (strip (lower title)))).
  destruct (join_tidy (split_whitespace (strip (lower title))))
    as [(Hh & Hd & Hc) _]; [apply split_whitespace_words|]. fold j in Hh, Hd, Hc.
  destruct (rstrip_chars_prefix (utf8 ".,;:") j) as [r Hr].
  set (t := rstrip_chars (utf8 ".,;:") j) in *.
  split; [|split; [|split]].
  - intros c Hl. unfold t, rstrip_chars in Hl. rewrite last_rev_head in Hl.
    by apply lstrip_chars_head in Hl.
  - intros c Hc'. apply Hh. rewrite Hr. by destruct t.
  - apply single_spaced_spec. apply (single_spaced_prefix t r). by rewrite <- Hr.
  - intros c Hin. apply Hc. rewrite Hr. apply elem_of_app. by left.
Qed.

End FurtherProperties.

(** ** The further properties on Latin-1 subjects *)

(** The footnote digit of "Art.6VwVg3" goes, the letters stay. *)
Lemma normalize_keeps_letters_footnote :
  letters (U:=latin1) (utf8 "Art.6VwVg") = letters (U:=latin1) (utf8 "Art.6VwVg3").
Proof.
  apply (normalize_keeps_letters (U:=latin1) eq_refl
           (utf8 "Art.6VwVg3") (utf8 "Art.6VwVg") true false).
  vm_compute. reflexivity.
Defined.

(** A record with an abbreviation in one citation and an RS number in
    another. *)
Lemma collected_law_format_rs_number :
  exists c, c ∈ [utf8 "art. 5 BGG"; utf8 "RS 101.1 art. 3"; utf8 "Art. 3"] /\
    ((exists s, utf8 "RS 101.1" = utf8 "RS " ++ s /\ dotted_digits (U:=latin1) s) \/
     (exists a, a ∈ enrich_law_abbrevs /\ utf8 "RS 101.1" = upper (Unicode:=latin1) a /\
                has_word (U:=latin1) a (lower (Unicode:=latin1) c) = true)).
Proof.
  apply (collected_law_format (U:=latin1)
           [utf8 "art. 5 BGG"; utf8 "RS 101.1 art. 3"; utf8 "Art. 3"]
           [utf8 "BGG"; utf8 "RS 101.1"] (utf8 "RS 101.1")).
  - vm_compute. reflexivity.
  - right. left.
Defined.

Lemma fragment_marker_only_after_marker_abs_3 :
  exists marker ws rest,
    marker ∈ fragment_markers /\ isspace (Unicode:=latin1) ws = true /\
    utf8 "Abs. 3" = marker ++ ws :: rest.
Proof.
  apply (fragment_marker_only_after_marker (U:=latin1) (utf8 "Abs. 3")).
  vm_compute. reflexivity.
Defined.

Lemma page_reference_shape_207_ff :
  exists ds ws ending tail,
    utf8 "207 ff." = ds ++ ws ++ ending ++ tail /\
    ds <> [] /\ forallb (isdecimal (Unicode:=latin1)) ds = true /\
    forallb (isspace (Unicode:=latin1)) ws = true /\
    ending ∈ page_endings /\ at_eos tail = true.
Proof.
  apply (page_reference_shape (U:=latin1) (utf8 "207 ff.")).
  vm_compute. reflexivity.
Defined.

(** The extractor after one citation without a law: a following null
    raises, although a law follows it. *)
Lemma extract_returns_first_law_after_article :
  extract_law_from_citations (U:=latin1) (map VStr [utf8 "Art. 3"]) = Ok None /\
  (forall c law,
     law_of_citation (U:=latin1) swiss_law_abbrevs (lower (Unicode:=latin1) c) = Some law ->
     extract_law_from_citations (U:=latin1)
       (map VStr [utf8 "Art. 3"] ++ VStr c :: [VNone]) = Ok (Some law)) /\
  (forall v, is_str v = false ->
     extract_law_from_citations (U:=latin1)
       (map VStr [utf8 "Art. 3"] ++ v :: [VNone]) = Raise AttributeError).
Proof.
  apply (extract_returns_first_law (U:=latin1) [utf8 "Art. 3"] [VNone]).
  intros c Hc. apply list_elem_of_singleton in Hc. subst c. vm_compute. reflexivity.
Defined.

(** A row of five citations: one digit-only, one fragment, three kept, of
    which one is changed and one enriched. *)
Lemma row_counters_add_up_five_citations :
  exists out s' fs,
    process_articles (U:=latin1) (Row (Some (utf8 "u1")) None None)
      (map VStr [utf8 "Art. 5"; utf8 "125"; utf8 "Abs. 3"; utf8 "art. 8 BGG";
                 utf8 "Art.6VwVg3"])
      (Stats 0 0 0 0 0 0) = Ok (out, s', fs) /\
    (citations_processed s' = 0 + 5 /\
     citations_kept s' = 0 + length out /\
     citations_kept s' + citations_removed_digit_only s' + citations_removed_garbage s'
       = 0 + 0 + 0 + 5 /\
     0 <= citations_changed s' <= 0 + length out /\
     0 <= citations_enriched s' <= 0 + length out /\
     length fs <= length out <= 5)%nat.
Proof.
  eexists _, _, _. split; [vm_compute; reflexivity|].
  apply (row_counters_add_up (U:=latin1) (Row (Some (utf8 "u1")) None None)
           (map VStr [utf8 "Art. 5"; utf8 "125"; utf8 "Abs. 3"; utf8 "art. 8 BGG";
                      utf8 "Art.6VwVg3"])
           _ (Stats 0 0 0 0 0 0)).
  vm_compute. reflexivity.
Defined.

Lemma kept_citations_are_checked_five_citations :
  exists ls,
    foldM (process_citation (U:=latin1) (Row (Some (utf8 "u1")) None None))
      (LoopState [] (Stats 0 0 0 0 0 0) [])
      (map VStr [utf8 "Art. 5"; utf8 "125"; utf8 "Abs. 3"; utf8 "art. 8 BGG";
                 utf8 "Art.6VwVg3"]) = Ok ls /\
    Forall (fun v => exists n, v = VStr n /\ digit_only_text (U:=latin1) n = false /\
                               (is_garbage_citation (U:=latin1) v).1 = false)
           (normalized_articles ls).
Proof.
  eexists. split; [vm_compute; reflexivity|].
  apply (kept_citations_are_checked (U:=latin1) (Row (Some (utf8 "u1")) None None)
           (map VStr [utf8 "Art. 5"; utf8 "125"; utf8 "Abs. 3"; utf8 "art. 8 BGG";
                      utf8 "Art.6VwVg3"])
           (Stats 0 0 0 0 0 0)).
  vm_compute. reflexivity.
Defined.

(** A log of two items: a fragment with its element id, and an
    article-only citation without one. *)
Lemma main_counts_two_items :
  exists r,
    main (U:=latin1)
      [Item (Some (VStr (utf8 "Abs. 3"))) (Some (VStr (utf8 "e1")));
       Item (Some (VStr (utf8 "Art. 5"))) None] = Returns r /\
    ((forall cat, count_of (categories r) cat =
                  length (List.filter (has_category (U:=latin1) cat)
                            [Item (Some (VStr (utf8 "Abs. 3"))) (Some (VStr (utf8 "e1")));
                             Item (Some (VStr (utf8 "Art. 5"))) None])) /\
     total_garbage r = length (filtered_citations r) /\
     (total_garbage r + total_rescuable r + count_of (categories r) NON_SWISS_LAW +
      count_of (categories r) UNKNOWN)%nat = 2%nat).
Proof.
  eexists. split; [vm_compute; reflexivity|].
  apply (main_counts (U:=latin1)
           [Item (Some (VStr (utf8 "Abs. 3"))) (Some (VStr (utf8 "e1")));
            Item (Some (VStr (utf8 "Art. 5"))) None]).
  vm_compute. reflexivity.
Defined.

Lemma main_examples_two_items :
  exists r,
    main (U:=latin1)
      [Item (Some (VStr (utf8 "Abs. 3"))) (Some (VStr (utf8 "e1")));
       Item (Some (VStr (utf8 "Art. 5"))) None] = Returns r /\
    by_category r !! GARBAGE_FRAGMENT =
    match citations_of (U:=latin1) GARBAGE_FRAGMENT
            [Item (Some (VStr (utf8 "Abs. 3"))) (Some (VStr (utf8 "e1")));
             Item (Some (VStr (utf8 "Art. 5"))) None] with
    | [] => None
    | _ :: _ =>
        Some (take 10 (citations_of (U:=latin1) GARBAGE_FRAGMENT
                         [Item (Some (VStr (utf8 "Abs. 3"))) (Some (VStr (utf8 "e1")));
                          Item (Some (VStr (utf8 "Art. 5"))) None]))
    end.
Proof.
  eexists. split; [vm_compute; reflexivity|].
  apply (main_examples (U:=latin1)
           [Item (Some (VStr (utf8 "Abs. 3"))) (Some (VStr (utf8 "e1")));
            Item (Some (VStr (utf8 "Art. 5"))) None]).
  vm_compute. reflexivity.
Defined.

Lemma main_filtered_two_items :
  exists r,
    main (U:=latin1)
      [Item (Some (VStr (utf8 "Abs. 3"))) (Some (VStr (utf8 "e1")));
       Item (Some (VStr (utf8 "Art. 5"))) None] = Returns r /\
    filtered_citations r =
    omap (filtered_of (U:=latin1))
      [Item (Some (VStr (utf8 "Abs. 3"))) (Some (VStr (utf8 "e1")));
       Item (Some (VStr (utf8 "Art. 5"))) None].
Proof.
  eexists. split; [vm_compute; reflexivity|].
  apply (main_filtered (U:=latin1)
           [Item (Some (VStr (utf8 "Abs. 3"))) (Some (VStr (utf8 "e1")));
            Item (Some (VStr (utf8 "Art. 5"))) None]).
  vm_compute. reflexivity.
Defined.

(** Two rows for the same RS number and language: the first abbreviation
    is stored, stripped. *)
Lemma abbreviation_triplets_entries_two_rows :
  exists langs,
    build_abbreviation_triplets (U:=latin1)
      [FedlexRow (Some (utf8 "101")) (Some (utf8 " Cst. ")) (Some (utf8 "FR")) None;
       FedlexRow (Some (utf8 "101")) (Some (utf8 "BV")) (Some (utf8 "FR")) None]
      !! utf8 "101" = Some langs /\
    (utf8 "101" <> [] /\ skipped_rs_number (U:=latin1) (utf8 "101") = false /\
     (exists lang v, langs !! lang = Some v) /\
     forall lang v, langs !! lang = Some v ->
                    lang <> [] /\ v <> [] /\ strip (U:=latin1) v = v).
Proof.
  eexists. split; [vm_compute; reflexivity|].
  apply (abbreviation_triplets_entries (U:=latin1)
           [FedlexRow (Some (utf8 "101")) (Some (utf8 " Cst. ")) (Some (utf8 "FR")) None;
            FedlexRow (Some (utf8 "101")) (Some (utf8 "BV")) (Some (utf8 "FR")) None]).
  vm_compute. reflexivity.
Defined.

Lemma title_to_rs_consistent_constitution :
  (exists lang title,
     lookup2 (titles_by_rs (build_title_mappings (U:=latin1)
        [FedlexRow (Some (utf8 "101")) None (Some (utf8 "FR"))
                   (Some (utf8 "Constitution  federale."))]))
       (utf8 "101") lang = Some title) /\
  utf8 "101" <> [] /\ skipped_rs_number (U:=latin1) (utf8 "101") = false /\
  exists row title,
    row ∈ [FedlexRow (Some (utf8 "101")) None (Some (utf8 "FR"))
                     (Some (utf8 "Constitution  federale."))] /\
    RS_number row = Some (utf8 "101") /\ Title row = Some title /\
    normalized_title (U:=latin1) title = utf8 "constitution federale".
Proof.
  apply (title_to_rs_consistent (U:=latin1)
           [FedlexRow (Some (utf8 "101")) None (Some (utf8 "FR"))
                      (Some (utf8 "Constitution  federale."))]
           (utf8 "constitution federale") (utf8 "101")).
  vm_compute. reflexivity.
Defined.

(** A normalized title can end with a space, and normalizing it again
    gives another string. *)
Example normalized_title_trailing_space :
  normalized_title (U:=latin1) (utf8 "a .") = utf8 "a " /\
  normalized_title (U:=latin1) (utf8 "a ") = utf8 "a".
Proof. split; vm_compute; reflexivity. Qed.

(** A short citation without an abbreviation is logged as a fragment. *)
Example logged_short_article : logged_short (U:=latin1) (utf8 "Art. 5") = true.
Proof. vm_compute. reflexivity. Qed.

(** A law named only in a citation that is dropped as garbage: the
    article-only citation of the row is not enriched. *)
Lemma written_citations_are_enriched_kept_dropped_law :
  exists out s' fs,
    process_articles (U:=latin1) (Row (Some (utf8 "u1")) None None)
      (map VStr [utf8 "Art. 5"; utf8 "Abs. 3 BGG"]) (Stats 0 0 0 0 0 0)
      = Ok (out, s', fs) /\
    (enrich_article_only_citations (U:=latin1)
       (map VStr (omap (kept_text (U:=latin1)) [utf8 "Art. 5"; utf8 "Abs. 3 BGG"])) =
       Ok (out, (citations_enriched s' - citations_enriched (Stats 0 0 0 0 0 0))%nat) /\
     map (fun f => (original f, normalized f)) fs =
       omap (logged_pair (U:=latin1)) [utf8 "Art. 5"; utf8 "Abs. 3 BGG"]).
Proof.
  eexists _, _, _. split; [vm_compute; reflexivity|].
  apply (written_citations_are_enriched_kept (U:=latin1) (Row (Some (utf8 "u1")) None None)
           [utf8 "Art. 5"; utf8 "Abs. 3 BGG"]).
  vm_compute. reflexivity.
Defined.

Example dropped_law_enriches_nothing :
  process_articles (U:=latin1) (Row (Some (utf8 "u1")) None None)
    (map VStr [utf8 "Art. 5"; utf8 "Abs. 3 BGG"]) (Stats 0 0 0 0 0 0) =
  Ok ([VStr (utf8 "Art. 5")], Stats 2 0 0 1 0 1,
      [Failure (utf8 "u1") (utf8 "0") (VStr (utf8 "Art. 5")) (VStr (utf8 "Art. 5"))]).
Proof. vm_compute. reflexivity. Qed.

(** The enricher raises on a null that follows two citations with
    different laws, where it would have enriched nothing. *)
Lemma enrich_raises_after_two_laws :
  enrich_article_only_citations (U:=latin1)
    [VStr (utf8 "art. 5 BGG"); VStr (utf8 "art. 3 ZGB"); VNone] = Raise AttributeError.
Proof.
  apply (proj2 (enrich_raises_on_any_non_string (U:=latin1)
                  [VStr (utf8 "art. 5 BGG"); VStr (utf8 "art. 3 ZGB"); VNone])).
  reflexivity.
Defined.

(** Without a 'uuid' column, a row with the citation "Art. 5" raises. *)
Lemma missing_uuid_raises_on_article :
  process_articles (U:=latin1) (Row None None None) (map VStr [utf8 "Art. 5"])
    (Stats 0 0 0 0 0 0) = Raise KeyError.
Proof.
  apply (proj1 (missing_uuid_raises_on_short_fragment (U:=latin1) None None
                  [utf8 "Art. 5"] (Stats 0 0 0 0 0 0)));
    vm_compute; reflexivity.
Defined.


(** C10 at its failing input: beside a null the empty citation is kept by
    both filters, but the null raises and the row is not written; in a row
    of strings it is written. *)
Lemma empty_citation_not_written :
  (forall res,
     process_articles (Row (Some (utf8 "u1")) None (Some (VList [VStr []; VNone])))
                      [VStr []; VNone] (Stats 0 0 0 0 0 0) <> Ok res) /\
  process_row (Row (Some (utf8 "u1")) None (Some (VList [VStr []; VNone])))
              (Stats 0 0 0 0 0 0) = Raise AttributeError /\
  (exists out s' fs,
     process_row (Row (Some (utf8 "u1")) None
                      (Some (VList (map VStr [utf8 "art. 3"; []; utf8 "125"]))))
                 (Stats 0 0 0 0 0 0) = Ok (Some out, s', fs) /\
     VStr [] ∈ out /\
     citations_kept s' = (citations_kept (Stats 0 0 0 0 0 0) + length out)%nat).
Proof.
  split; [|split].
  - apply (proj1 (proj2 empty_and_non_string_pass_through)).
    exists VNone. split; [right; left|reflexivity].
  - by vm_compute.
  - eexists _, _, _. split; [vm_compute; reflexivity|].
    eapply (proj2 (proj2 (proj2 empty_and_non_string_pass_through)) latin1_lower_nil
              (Row (Some (utf8 "u1")) None
                   (Some (VList (map VStr [utf8 "art. 3"; []; utf8 "125"]))))
              (map VStr [utf8 "art. 3"; []; utf8 "125"]) _ (Stats 0 0 0 0 0 0)).
    + reflexivity.
    + right. left.
    + vm_compute. reflexivity.
Defined.
